(** * oiVolume: resampling a sparse float grid onto a dense RGBA lattice

    A shallow embedding of [Plugin/openvdbi/Importer/oiVolume.cpp] and the
    properties of its value-range accumulator, bounding-box resolver,
    lattice sampler, two-pass writer/normalizer and volume facade.

    Conventions of the embedding:
    - [float] is IEEE-754 binary32 and [double] is binary64, both carried by
      [spec_float] and computed with the operations of [SpecFloat] at
      precision 24/128 and 53/1024;
    - [int] is a [Z] and every [int] operation is followed by [wrap32];
    - the destination buffer is a [list] of floats, a store outside of it
      is a fault ([None]);
    - the two [tbb::parallel_for] calls take the splitting and the
      thread assignment chosen by the scheduler as a [schedule] argument. *)

From Stdlib Require Import ZArith Lia Bool List Permutation.
From Stdlib Require Import Floats.SpecFloat.
From stdpp Require Import base option list gmap strings.

Local Open Scope Z_scope.

(** ** Machine numbers *)

Module Int32.
Definition modulus : Z := 2 ^ 32.
Definition max : Z := 2 ^ 31 - 1.
Definition min : Z := - 2 ^ 31.

(** Two's complement reduction of an integer to [int]. *)
Definition wrap32 (z : Z) : Z := (z + 2 ^ 31) mod modulus - 2 ^ 31.

Definition add (a b : Z) : Z := wrap32 (a + b).
Definition sub (a b : Z) : Z := wrap32 (a - b).
Definition mul (a b : Z) : Z := wrap32 (a * b).
End Int32.

Module F32.
Definition prec : Z := 24.
Definition emax : Z := 128.

Definition sub : spec_float -> spec_float -> spec_float := SFsub prec emax.
Definition div : spec_float -> spec_float -> spec_float := SFdiv prec emax.
Definition ltb : spec_float -> spec_float -> bool := SFltb.

Definition of_Z (z : Z) : spec_float := binary_normalize prec emax z 0 false.

(** [std::numeric_limits<float>::max()], the largest finite value. *)
Definition numeric_limits_max : spec_float := S754_finite false (2 ^ 24 - 1) 104.
(** [std::numeric_limits<float>::min()], the smallest positive normal
    value, 2^-126. *)
Definition numeric_limits_min : spec_float := S754_finite false (2 ^ 23) (-149).
End F32.

Module F64.
Definition prec : Z := 53.
Definition emax : Z := 1024.

Definition add : spec_float -> spec_float -> spec_float := SFadd prec emax.
Definition sub : spec_float -> spec_float -> spec_float := SFsub prec emax.
Definition mul : spec_float -> spec_float -> spec_float := SFmul prec emax.
Definition div : spec_float -> spec_float -> spec_float := SFdiv prec emax.

(** Conversion [int -> double], exact. *)
Definition of_Z (z : Z) : spec_float := binary_normalize prec emax z 0 false.

(** Conversion [float -> double], exact: the same number in the
    binary64 format. *)
Definition of_float (f : spec_float) : spec_float :=
  match f with
  | S754_finite s m e => binary_normalize prec emax (cond_Zopp s (Zpos m)) e s
  | _ => f
  end.

Definition half : spec_float := S754_finite false (2 ^ 52) (-53).
Definition one : spec_float := S754_finite false (2 ^ 52) (-52).
End F64.

Abbreviation float := spec_float.
Abbreviation double := spec_float.

(** ** ValueRange<RealType> at RealType = float (FloatRange) *)

(** [std::min(a, b)]: [(b < a) ? b : a]. *)
Definition std_min (a b : float) : float := if F32.ltb b a then b else a.
(** [std::max(a, b)]: [(a < b) ? b : a]. *)
Definition std_max (a b : float) : float := if F32.ltb a b then b else a.

Record FloatRange := mkRange { m_min : float; m_max : float }.

Definition ValueRange : FloatRange :=
  mkRange F32.numeric_limits_max F32.numeric_limits_min.

Definition getMin (r : FloatRange) : float := m_min r.
Definition getMax (r : FloatRange) : float := m_max r.

Definition addValue (r : FloatRange) (value : float) : FloatRange :=
  mkRange (std_min (m_min r) value) (std_max (m_max r) value).

(** [unlerp(a, b, x)] at T = float. *)
Definition unlerp (a b x : float) : float := F32.div (F32.sub x a) (F32.sub b a).

(** ** OpenVDB value types used by the importer *)

(** [openvdb::Coord] and [openvdb::Vec3i]: three [int]s. *)
Record Coord := mkCoord { cx : Z; cy : Z; cz : Z }.
Abbreviation Vec3i := Coord.

Record Vec3d := mkVec3d { vx : double; vy : double; vz : double }.

(** [openvdb::CoordBBox]: inclusive integer corners. *)
Record CoordBBox := mkBBox { bmin : Coord; bmax : Coord }.

(** [openvdb::BBoxd]: corners in world space. *)
Record BBoxd := mkBBoxd { wmin : Vec3d; wmax : Vec3d }.

Definition Coord_sub (a b : Coord) : Coord :=
  mkCoord (Int32.sub (cx a) (cx b)) (Int32.sub (cy a) (cy b)) (Int32.sub (cz a) (cz b)).

(** [Vec3i::dot]. *)
Definition Vec3i_dot (a b : Vec3i) : Z :=
  Int32.add (Int32.add (Int32.mul (cx a) (cx b)) (Int32.mul (cy a) (cy b)))
            (Int32.mul (cz a) (cz b)).

(** [Coord::asVec3d], also the conversion [Vec3i -> Vec3d]. *)
Definition asVec3d (c : Coord) : Vec3d :=
  mkVec3d (F64.of_Z (cx c)) (F64.of_Z (cy c)) (F64.of_Z (cz c)).

Definition Vec3d_map2 (op : double -> double -> double) (a b : Vec3d) : Vec3d :=
  mkVec3d (op (vx a) (vx b)) (op (vy a) (vy b)) (op (vz a) (vz b)).

(** Componentwise [+], [-], [*] and [/] of [Vec3d], and [v + scalar]. *)
Definition Vec3d_add : Vec3d -> Vec3d -> Vec3d := Vec3d_map2 F64.add.
Definition Vec3d_sub : Vec3d -> Vec3d -> Vec3d := Vec3d_map2 F64.sub.
Definition Vec3d_mul : Vec3d -> Vec3d -> Vec3d := Vec3d_map2 F64.mul.
Definition Vec3d_div : Vec3d -> Vec3d -> Vec3d := Vec3d_map2 F64.div.
Definition Vec3d_add_scalar (a : Vec3d) (s : double) : Vec3d :=
  mkVec3d (F64.add (vx a) s) (F64.add (vy a) s) (F64.add (vz a) s).

(** [CoordBBox()], which [return {}] builds: the corners are
    [Coord::max()] and [Coord::min()]. *)
Definition CoordBBox_default : CoordBBox :=
  mkBBox (mkCoord Int32.max Int32.max Int32.max) (mkCoord Int32.min Int32.min Int32.min).

(** [CoordBBox::empty]. *)
Definition CoordBBox_empty (b : CoordBBox) : bool :=
  (cx (bmax b) <? cx (bmin b)) || (cy (bmax b) <? cy (bmin b)) || (cz (bmax b) <? cz (bmin b)).

(** [CoordBBox::dim]: [max.offsetBy(1) - min]. *)
Definition CoordBBox_dim (b : CoordBBox) : Coord :=
  Coord_sub (mkCoord (Int32.add (cx (bmax b)) 1) (Int32.add (cy (bmax b)) 1)
                     (Int32.add (cz (bmax b)) 1)) (bmin b).

(** [CoordBBox::volume], an [Index64] product of the dimensions. *)
Definition CoordBBox_volume (b : CoordBBox) : Z :=
  let d := CoordBBox_dim b in
  ((cx d mod 2 ^ 64) * (cy d mod 2 ^ 64) * (cz d mod 2 ^ 64)) mod 2 ^ 64.

(** [BBoxd::extents]: [max - min] for a floating-point box. *)
Definition BBoxd_extents (b : BBoxd) : Vec3d := Vec3d_sub (wmax b) (wmin b).

(** ** The grid, as far as the importer uses it *)

(** A metadata entry: a [Vec3i] value, or a value of another type. *)
Inductive Metadata :=
  | MetaVec3i (v : Vec3i)
  | MetaOther (typeName : string).

Inductive Exception := LookupError | TypeError.

Inductive result (A : Type) :=
  | Ok (a : A)
  | Throw (e : Exception).
Arguments Ok {A} a.
Arguments Throw {A} e.

Definition bind {A B} (m : result A) (k : A -> result B) : result B :=
  match m with
  | Ok a => k a
  | Throw e => Throw e
  end.

Notation "'do' x <- m ; k" := (bind m (fun x => k))
  (at level 10, x name, m at level 100, k at level 200).

(** [try { body } catch (openvdb::Exception e) { handler }]: both
    exceptions of the model derive from [openvdb::Exception]. *)
Definition try_catch {A} (body : result A) (handler : Exception -> A) : A :=
  match body with
  | Ok a => a
  | Throw e => handler e
  end.

(** [openvdb::FloatGrid]: its metadata map, the box transform of
    [grid.transform().indexToWorld], and the world-space trilinear sampler
    [GridSampler<FloatGrid, BoxSampler>(grid).wsSample]. *)
Record FloatGrid := mkGrid {
  metaMap : gmap string Metadata;
  indexToWorld : CoordBBox -> BBoxd;
  wsSample : Vec3d -> float
}.

(** [grid.metaValue<openvdb::Vec3i>(name)]: [LookupError] when the key is
    absent, [TypeError] when the entry has another type. *)
Definition metaValue (grid : FloatGrid) (name : string) : result Vec3i :=
  match metaMap grid !! name with
  | None => Throw LookupError
  | Some (MetaVec3i v) => Ok v
  | Some (MetaOther _) => Throw TypeError
  end.

(** The [try] block of [getIndexSpaceBoundingBox]. *)
Definition stored_bbox (grid : FloatGrid) : result CoordBBox :=
  do file_bbox_min <- metaValue grid "file_bbox_min";
  if (cx file_bbox_min =? Int32.max) || (cy file_bbox_min =? Int32.max)
     || (cz file_bbox_min =? Int32.max)
  then Ok CoordBBox_default
  else
    do file_bbox_max <- metaValue grid "file_bbox_max";
    if (cx file_bbox_max =? Int32.min) || (cy file_bbox_max =? Int32.min)
       || (cz file_bbox_max =? Int32.min)
    then Ok CoordBBox_default
    else Ok (mkBBox file_bbox_min file_bbox_max).

Definition getIndexSpaceBoundingBox (grid : FloatGrid) : CoordBBox :=
  try_catch (stored_bbox grid) (fun e => CoordBBox_default).

(** ** [tbb::parallel_for] *)

Inductive Axis := AxisX | AxisY | AxisZ.

(** What the scheduler decides: a range is run by a thread, or split in
    two halves that are scheduled in turn, the upper half first when
    [swap]. A box is split along [axis]; the library takes the axis of
    [CoordBBox::maxExtent], the model any axis. Distinct tasks store to
    distinct slots, so the order of the tasks stands for their
    interleaving. The flat range of the second pass uses the same trees and
    ignores the axes and the threads. *)
Inductive schedule :=
  | Run (thread : nat)
  | Split (axis : Axis) (swap : bool) (lower upper : schedule).

Fixpoint first_thread (s : schedule) : nat :=
  match s with
  | Run t => t
  | Split _ _ l _ => first_thread l
  end.

(** [CoordBBox::is_divisible]. *)
Definition is_divisible (b : CoordBBox) : bool :=
  (cx (bmin b) <? cx (bmax b)) && (cy (bmin b) <? cy (bmax b)) && (cz (bmin b) <? cz (bmax b)).

Definition axis_get (a : Axis) (c : Coord) : Z :=
  match a with AxisX => cx c | AxisY => cy c | AxisZ => cz c end.

Definition axis_set (a : Axis) (v : Z) (c : Coord) : Coord :=
  match a with
  | AxisX => mkCoord v (cy c) (cz c)
  | AxisY => mkCoord (cx c) v (cz c)
  | AxisZ => mkCoord (cx c) (cy c) v
  end.

(** The splitting constructor of [CoordBBox]: the new box takes the lower
    half, up to [(min[n] + max[n]) >> 1], the old one keeps the rest. *)
Definition split_box (n : Axis) (b : CoordBBox) : CoordBBox * CoordBBox :=
  let mid := Z.shiftr (Int32.add (axis_get n (bmin b)) (axis_get n (bmax b))) 1 in
  (mkBBox (bmin b) (axis_set n mid (bmax b)),
   mkBBox (axis_set n (Int32.add mid 1) (bmin b)) (bmax b)).

(** The sub-boxes handed to the body, with the thread that runs each, in
    the order they are run. *)
Fixpoint tasks (s : schedule) (b : CoordBBox) : list (nat * CoordBBox) :=
  match s with
  | Run t => [(t, b)]
  | Split n swap lo hi =>
      if is_divisible b then
        let '(b1, b2) := split_box n b in
        if swap then tasks hi b2 ++ tasks lo b1 else tasks lo b1 ++ tasks hi b2
      else [(first_thread s, b)]
  end.

(** The chunks [begin, end) of a [tbb::blocked_range<size_t>] of grain
    size 1, split at [begin + (end - begin) / 2]. *)
Fixpoint chunks (s : schedule) (b e : Z) : list (Z * Z) :=
  match s with
  | Run _ => [(b, e)]
  | Split _ swap lo hi =>
      if 1 <? e - b then
        let middle := b + (e - b) / 2 in
        if swap then chunks hi middle e ++ chunks lo b middle
        else chunks lo b middle ++ chunks hi middle e
      else [(b, e)]
  end.

(** [tbb::enumerable_thread_specific<FloatRange>]: one range per thread
    that asked for it, in the order of creation. *)
Abbreviation PerThreadRange := (list (nat * FloatRange)).

(** [ranges.local()]: creates the calling thread's range when it has none. *)
Fixpoint local (t : nat) (ranges : PerThreadRange) : PerThreadRange :=
  match ranges with
  | [] => [(t, ValueRange)]
  | (t', r) :: rest => if Nat.eqb t t' then ranges else (t', r) :: local t rest
  end.

(** An update through the reference [ranges.local()] returned. *)
Fixpoint update_local (t : nat) (f : FloatRange -> FloatRange) (ranges : PerThreadRange)
  : PerThreadRange :=
  match ranges with
  | [] => []
  | (t', r) :: rest =>
      if Nat.eqb t t' then (t', f r) :: rest else (t', r) :: update_local t f rest
  end.

(** ** The destination buffer *)

(** [out_samples[i] = v]. *)
Definition store (buf : list float) (i : Z) (v : float) : option (list float) :=
  if (0 <=? i) && (i <? Z.of_nat (length buf)) then Some (<[Z.to_nat i := v]> buf) else None.

(** [out_samples[i]] read. *)
Definition load (buf : list float) (i : Z) : option float :=
  if 0 <=? i then buf !! Z.to_nat i else None.

Fixpoint foldM {S A : Type} (f : S -> A -> option S) (s : S) (l : list A) : option S :=
  match l with
  | [] => Some s
  | a :: l' =>
      match f s a with
      | Some s' => foldM f s' l'
      | None => None
      end
  end.

(** ** sampleVolume *)

(** The cells of a box in the order of the three nested loops. *)
Definition cells (b : CoordBBox) : list Vec3i :=
  z ← seqZ (cz (bmin b)) (cz (bmax b) - cz (bmin b) + 1);
  y ← seqZ (cy (bmin b)) (cy (bmax b) - cy (bmin b) + 1);
  x ← seqZ (cx (bmin b)) (cx (bmax b) - cx (bmin b) + 1);
  [mkCoord x y z].

Definition stride_of (extents : Coord) : Vec3i :=
  mkCoord 1 (cx extents) (Int32.mul (cx extents) (cy extents)).

Definition linear_index (stride : Vec3i) (domain_index : Vec3i) : Z :=
  Int32.mul (Vec3i_dot domain_index stride) 4.

(** The innermost loop body, run by thread [t]. *)
Definition visit (sampling_func : Vec3i -> float) (stride : Vec3i) (t : nat)
    (st : list float * PerThreadRange) (domain_index : Vec3i)
  : option (list float * PerThreadRange) :=
  let linear_index := linear_index stride domain_index in
  let sample_value := sampling_func domain_index in
  buf0 ← store (fst st) (Int32.add linear_index 0) sample_value;
  buf1 ← store buf0 (Int32.add linear_index 1) sample_value;
  buf2 ← store buf1 (Int32.add linear_index 2) sample_value;
  buf3 ← store buf2 (Int32.add linear_index 3) sample_value;
  Some (buf3, update_local t (fun r => addValue r sample_value) (snd st)).

(** The body of the first [parallel_for] on one sub-box. *)
Definition sample_task (sampling_func : Vec3i -> float) (stride : Vec3i)
    (st : list float * PerThreadRange) (task : nat * CoordBBox)
  : option (list float * PerThreadRange) :=
  foldM (visit sampling_func stride (fst task)) (fst st, local (fst task) (snd st))
        (cells (snd task)).

(** One step of the merge loop: [per_thread_range] is folded into
    [out_value_range] by its two ends. *)
Definition merge (out_value_range per_thread_range : FloatRange) : FloatRange :=
  addValue (addValue out_value_range (getMin per_thread_range)) (getMax per_thread_range).

(** Merge of the per-thread ranges into [out_value_range]. *)
Definition merge_ranges (ranges : PerThreadRange) : FloatRange :=
  fold_left (fun out per_thread_range => merge out (snd per_thread_range))
            ranges ValueRange.

(** The range a thread holds after it has folded [samples], in this
    order, into [r]. *)
Definition accumulate (r : FloatRange) (samples : list float) : FloatRange :=
  fold_left addValue samples r.

(** The body of the second [parallel_for] on one chunk. *)
Definition remap_chunk (out_value_range : FloatRange) (buf : list float) (chunk : Z * Z)
  : option (list float) :=
  foldM (fun buf i =>
           x ← load buf i;
           store buf i (unlerp (getMin out_value_range) (getMax out_value_range) x))
        buf (seqZ (fst chunk) (snd chunk - fst chunk)).

(** The domain [sampleVolume] builds from the extents. *)
Definition lattice (extents : Coord) : CoordBBox :=
  mkBBox (mkCoord 0 0 0) (Coord_sub extents (mkCoord 1 1 1)).

(** The status a [bool] function hands back: [Some b] after [return b],
    [None] when control reaches the closing brace without a [return]. *)
Abbreviation status := (option bool).

(** [sampleVolume]; [None] is a fault (an access outside of the buffer). *)
Definition sampleVolume (sch1 sch2 : schedule) (extents : Coord)
    (sampling_func : Vec3i -> float) (out_value_range : FloatRange)
    (out_samples : list float)
  : option (status * FloatRange * list float) :=
  let domain := lattice extents in
  if CoordBBox_empty domain then Some (Some false, out_value_range, out_samples)
  else
    let num_voxels := CoordBBox_volume domain in
    let stride := stride_of extents in
    '(buf, ranges) ← foldM (sample_task sampling_func stride) (out_samples, [])
                          (tasks sch1 domain);
    let out_value_range := merge_ranges ranges in
    let size := Int32.wrap32 (num_voxels * 4) in
    buf' ← foldM (remap_chunk out_value_range) buf (chunks sch2 0 (size mod 2 ^ 64));
    Some (None, out_value_range, buf').

(** ** sampleGrid *)

(** The sampling lambda of [sampleGrid]. *)
Definition sampling_func (grid : FloatGrid) (bbox_world : BBoxd) (domain_extents : Vec3d)
    (domain_index : Vec3i) : float :=
  let sample_pos_ws :=
    Vec3d_add (wmin bbox_world)
      (Vec3d_mul (Vec3d_div (Vec3d_add_scalar (asVec3d domain_index) F64.half) domain_extents)
                 (BBoxd_extents bbox_world)) in
  wsSample grid sample_pos_ws.

Definition sampleGrid (sch1 sch2 : schedule) (grid : FloatGrid) (sampling_extents : Coord)
    (value_range : FloatRange) (out_data : list float)
  : option (status * FloatRange * Vec3d * list float) :=
  let grid_bbox_is := getIndexSpaceBoundingBox grid in
  let bbox_world := indexToWorld grid grid_bbox_is in
  let scale := BBoxd_extents bbox_world in
  if CoordBBox_empty grid_bbox_is then Some (Some false, value_range, scale, out_data)
  else
    let domain_extents := asVec3d sampling_extents in
    '(_, value_range, out_data) ←
      sampleVolume sch1 sch2 sampling_extents
                   (sampling_func grid bbox_world domain_extents) value_range out_data;
    Some (None, value_range, scale, out_data).

(** ** oiVolume *)

(** Modelled from the spec: the summary record [oiVolumeSummary], declared
    in a header that is not among the sources. Its fields are the ones the
    spec lists; the scale fields hold the [double] that is assigned to
    them. *)
Record oiVolumeSummary := mkSummary {
  voxel_count : Z;
  width : Z;
  height : Z;
  depth : Z;
  format : Z;
  min_value : float;
  max_value : float;
  x_scale : double;
  y_scale : double;
  z_scale : double
}.

(** [oiVolumeData]: the caller's buffer, [None] for a null pointer. *)
Record oiVolumeData := mkData { voxels : option (list float) }.

Record oiVolume := mkVolume {
  m_grid : FloatGrid;
  m_extents : Coord;
  m_scaleFactor : float;
  m_summary : oiVolumeSummary
}.

(** Modelled from the spec: the constructor of [oiVolumeSummary], which
    is in the same header. It keeps the five counts it is given; the range
    and scale fields start from [init_range] and [init_scale]. *)
Definition oiVolumeSummary_new (init_range : FloatRange) (init_scale : Vec3d)
    (voxel_count width height depth texture_format : Z) : oiVolumeSummary :=
  mkSummary voxel_count width height depth texture_format
            (m_min init_range) (m_max init_range)
            (vx init_scale) (vy init_scale) (vz init_scale).

(** The constructor of [oiVolume]. *)
Definition oiVolume_new (init_range : FloatRange) (init_scale : Vec3d)
    (grid : FloatGrid) (extents : Coord) : oiVolume :=
  let voxel_count := Int32.mul (Int32.mul (cx extents) (cy extents)) (cz extents) in
  let texture_format := 20 in
  mkVolume grid extents (F32.of_Z 1)
    (oiVolumeSummary_new init_range init_scale
       voxel_count (cx extents) (cy extents) (cz extents) texture_format).

Definition setScaleFactor (self : oiVolume) (scaleFactor : float) : oiVolume :=
  mkVolume (m_grid self) (m_extents self) scaleFactor (m_summary self).

Definition reset (self : oiVolume) : oiVolume := self.

Definition getSummary (self : oiVolume) : oiVolumeSummary := m_summary self.

(** [fillTextureBuffer] returns nothing: the result is the volume and the
    buffer after the call, [None] when the call faults. *)
Definition fillTextureBuffer (sch1 sch2 : schedule) (self : oiVolume) (data : oiVolumeData)
  : option (oiVolume * oiVolumeData) :=
  match voxels data with
  | None => Some (self, data)
  | Some out_data =>
      let s := m_summary self in
      let extents := mkCoord (width s) (height s) (depth s) in
      let value_range := ValueRange in
      '(_, value_range, scale, out_data) ←
        sampleGrid sch1 sch2 (m_grid self) extents value_range out_data;
      let k := F64.of_float (m_scaleFactor self) in
      Some (mkVolume (m_grid self) (m_extents self) (m_scaleFactor self)
              (mkSummary (voxel_count s) (width s) (height s) (depth s) (format s)
                 (getMin value_range) (getMax value_range)
                 (F64.mul (vx scale) k) (F64.mul (vy scale) k) (F64.mul (vz scale) k)),
            mkData (Some out_data))
  end.

(** ** Concrete grids and calls *)

Module Examples.
(** The box transform of a grid with the identity transform. *)
Definition identity_transform (b : CoordBBox) : BBoxd :=
  mkBBoxd (asVec3d (bmin b)) (asVec3d (bmax b)).

Definition unit_bounds : gmap string Metadata :=
  <["file_bbox_min" := MetaVec3i (mkCoord 0 0 0)]>
    (<["file_bbox_max" := MetaVec3i (mkCoord 1 1 1)]> ∅).

(** The constant field 5.0 with stored bounds (0,0,0)-(1,1,1). *)
Definition constant_grid : FloatGrid :=
  mkGrid unit_bounds identity_transform (fun _ => F32.of_Z 5).

(** A field that is -3.0 for x < 0.5 and -1.0 elsewhere. *)
Definition negative_grid : FloatGrid :=
  mkGrid unit_bounds identity_transform
         (fun p => if SFltb (vx p) F64.half then F32.of_Z (-3) else F32.of_Z (-1)).

(** A field that is 1.0 for x < 0.5 and 3.0 elsewhere. *)
Definition step_grid : FloatGrid :=
  mkGrid unit_bounds identity_transform
         (fun p => if SFltb (vx p) F64.half then F32.of_Z 1 else F32.of_Z 3).

(** A grid without stored bounds. *)
Definition bare_grid : FloatGrid :=
  mkGrid ∅ identity_transform (fun _ => F32.of_Z 5).

Definition zero_scale : Vec3d := mkVec3d (F64.of_Z 0) (F64.of_Z 0) (F64.of_Z 0).
Definition unit_range : FloatRange := mkRange (F32.of_Z 0) (F32.of_Z 1).

Definition volume_of (grid : FloatGrid) (extents : Coord) : oiVolume :=
  oiVolume_new unit_range zero_scale grid extents.

Definition sentinel : float := F32.of_Z 9.
Definition buffer_of (n : nat) : oiVolumeData := mkData (Some (replicate n sentinel)).

Definition two_threads : schedule := Split AxisX false (Run 0) (Run 1).
Definition one_thread : schedule := Run 0.
End Examples.
Import Examples.

(** ** The order of [operator<] on floats *)

Definition is_nan (f : float) : bool :=
  match f with S754_nan => true | _ => false end.

(** [fle a b]: [!(b < a)], which is [a <= b] when neither is a NaN. *)
Definition fle (a b : float) : Prop := F32.ltb b a = false.
(** Numeric equality [a == b]; it identifies [+0] and [-0]. *)
Definition feq (a b : float) : Prop := SFcompare a b = Some Eq.

Definition range_eq (r s : FloatRange) : Prop :=
  feq (m_min r) (m_min s) /\ feq (m_max r) (m_max s).

Definition range_ok (r : FloatRange) : Prop :=
  is_nan (m_min r) = false /\ is_nan (m_max r) = false /\ fle (m_min r) (m_max r).

(** Equal, or zeros that differ by their sign at most. *)
Definition same_number (x y : float) : Prop :=
  x = y \/ exists s s', x = S754_zero s /\ y = S754_zero s'.

(** ** Floats as numbers *)

(** A float of the binary32 format: its mantissa and exponent are the
    canonical ones. *)
Definition valid_float (x : float) : Prop := valid_binary F32.prec F32.emax x = true.

(** The number a finite float stands for, counted in units of 2^-149. *)
Definition units (x : float) : Z :=
  match x with
  | S754_finite s m e => cond_Zopp s (Z.pos m * 2 ^ (e + 149))
  | _ => 0
  end.

(** The sign bit is clear; NaN has none. *)
Definition sign_false (f : float) : Prop :=
  match f with
  | S754_zero s | S754_infinity s | S754_finite s _ _ => s = false
  | S754_nan => True
  end.

(** A zero of either sign, or the sign bit is clear. *)
Definition not_negative (f : float) : Prop :=
  match f with
  | S754_zero _ | S754_nan => True
  | S754_infinity s | S754_finite s _ _ => s = false
  end.

(** Where the remainder of [n] by [c] lies against one half of [c]. *)
Definition ratio_loc (n c : Z) : location :=
  if n mod c =? 0 then loc_Exact else loc_Inexact (2 * (n mod c) ?= c).

(** Where the bits shifted out of [m] by [j] places lie against one half
    of the last place kept. *)
Definition shifted_out (m : Z) (j : Z) : location := ratio_loc m (2 ^ j).

(** The integer nearest to the quotient of [n] by [c], ties to even. *)
Definition round_ratio (n c : Z) : Z := round_nearest_even (n / c) (ratio_loc n c).

(** Round to nearest, ties to even, of [m / 2^n]. *)
Definition rne (m n : Z) : Z := round_nearest_even (m / 2 ^ n) (shifted_out m n).

(** The float nearest to [v] units, ties to even, in units. *)
Definition round_units (v : Z) : Z :=
  let n := Z.max (Zdigits2 v - 24) 0 in rne v n * 2 ^ n.

(** 2^128, the first number past the finite floats, in units. *)
Definition huge : Z := 2 ^ 277.

(** Neither an infinity nor a NaN. *)
Definition finite_or_zero (x : float) : Prop :=
  match x with S754_zero _ | S754_finite _ _ _ => True | _ => False end.

(** ** The stores of the two passes *)

(** The cells the first pass visits, in the order it visits them. *)
Definition visited (sch : schedule) (b : CoordBBox) : list Vec3i :=
  t ← tasks sch b; cells (snd t).

(** The four slots of one visit. *)
Definition cell_slots (stride : Vec3i) (c : Vec3i) : list Z :=
  Int32.add (linear_index stride c) <$> [0; 1; 2; 3].

(** The four stores of one visit. *)
Definition cell_stores (sampling_func : Vec3i -> float) (stride : Vec3i) (c : Vec3i)
  : list (Z * float) :=
  (fun i => (i, sampling_func c)) <$> cell_slots stride c.

(** The slots the first pass stores to, in the order of the stores. *)
Definition first_pass_slots (sch : schedule) (extents : Coord) : list Z :=
  visited sch (lattice extents) ≫= cell_slots (stride_of extents).

(** The slots the second pass rewrites, in the order it does. *)
Definition second_pass_slots (sch : schedule) (extents : Coord) : list Z :=
  ch ← chunks sch 0 (Int32.wrap32 (CoordBBox_volume (lattice extents) * 4) mod 2 ^ 64);
  seqZ (fst ch) (snd ch - fst ch).

Definition store_step (buf : list float) (s : Z * float) : option (list float) :=
  store buf (fst s) (snd s).

Definition remap_step (r : FloatRange) (buf : list float) (i : Z) : option (list float) :=
  x ← load buf i; store buf i (unlerp (getMin r) (getMax r) x).

(** [c] lies in the box [b]. *)
Definition in_box (b : CoordBBox) (c : Coord) : Prop :=
  (cx (bmin b) <= cx c <= cx (bmax b))
  /\ (cy (bmin b) <= cy c <= cy (bmax b))
  /\ (cz (bmin b) <= cz c <= cz (bmax b)).

(** The corners of [b] are small enough for the midpoint of the splitting
    constructor not to overflow. *)
Definition small_box (b : CoordBBox) : Prop :=
  (0 <= cx (bmin b) /\ cx (bmax b) < 2 ^ 30)
  /\ (0 <= cy (bmin b) /\ cy (bmax b) < 2 ^ 30)
  /\ (0 <= cz (bmin b) /\ cz (bmax b) < 2 ^ 30).

(** Extents that are positive and whose slot count fits an [int]. *)
Definition fits_int (extents : Coord) : Prop :=
  1 <= cx extents /\ 1 <= cy extents /\ 1 <= cz extents
  /\ cx extents * cy extents * cz extents * 4 <= Int32.max.

(** The flat offset of a cell as the specification gives it. *)
Definition flat_offset (extents : Coord) (c : Coord) : Z :=
  (cx c * 1 + cy c * cx extents + cz c * cx extents * cy extents) * 4.

(** ** The samples behind the per-thread ranges *)

(** The per-thread ranges of the first pass, without the buffer. *)
Definition ranges_task (sampling_func : Vec3i -> float) (ranges : PerThreadRange)
    (task : nat * CoordBBox) : PerThreadRange :=
  fold_left (fun rs c => update_local (fst task) (fun r => addValue r (sampling_func c)) rs)
            (cells (snd task)) (local (fst task) ranges).

(** The samples each thread has folded into its range, in the order of
    creation of the ranges. *)
Abbreviation PerThreadSamples := (list (nat * list float)).

Definition to_ranges (g : PerThreadSamples) : PerThreadRange :=
  (fun e => (fst e, accumulate ValueRange (snd e))) <$> g.

Fixpoint samples_local (t : nat) (g : PerThreadSamples) : PerThreadSamples :=
  match g with
  | [] => [(t, [])]
  | (t', xs) :: rest => if Nat.eqb t t' then g else (t', xs) :: samples_local t rest
  end.

Fixpoint samples_update (t : nat) (v : float) (g : PerThreadSamples) : PerThreadSamples :=
  match g with
  | [] => []
  | (t', xs) :: rest =>
      if Nat.eqb t t' then (t', xs ++ [v]) :: rest else (t', xs) :: samples_update t v rest
  end.

Definition samples_task (sampling_func : Vec3i -> float) (g : PerThreadSamples)
    (task : nat * CoordBBox) : PerThreadSamples :=
  fold_left (fun g c => samples_update (fst task) (sampling_func c) g)
            (cells (snd task)) (samples_local (fst task) g).

(** The box has a cell. *)
Definition inhabited_box (b : CoordBBox) : Prop :=
  cx (bmin b) <= cx (bmax b) /\ cy (bmin b) <= cy (bmax b) /\ cz (bmin b) <= cz (bmax b).

(** ** The resolver as the specification words it *)

(** The stored bound under [key], when the lookup succeeds. *)
Definition stored_bound (grid : FloatGrid) (key : string) : option Vec3i :=
  match metaMap grid !! key with
  | Some (MetaVec3i v) => Some v
  | _ => None
  end.

(** [v] equals [s] on some axis. *)
Definition on_any_axis (v : Vec3i) (s : Z) : bool :=
  (cx v =? s) || (cy v =? s) || (cz v =? s).

Definition resolver_spec (grid : FloatGrid) : CoordBBox :=
  match stored_bound grid "file_bbox_min", stored_bound grid "file_bbox_max" with
  | Some lo, Some hi =>
      if on_any_axis lo Int32.max || on_any_axis hi Int32.min
      then CoordBBox_default
      else mkBBox lo hi
  | _, _ => CoordBBox_default
  end.

(** What a caller can look at after a fill: the summary and the buffer. *)
Definition observe (r : option (oiVolume * oiVolumeData))
  : option (oiVolumeSummary * option (list float)) :=
  (fun r => (getSummary (fst r), voxels (snd r))) <$> r.

(** [m] is, up to numeric equality, the least element of [l] for the
    order [le]. *)
Definition extremum (le : float -> float -> Prop) (m : float) (l : list float) : Prop :=
  is_nan m = false /\ Forall (le m) l /\ Exists (feq m) l.

Definition no_nan (l : list float) : Prop := Forall (fun x => is_nan x = false) l.

(** [fge a b]: [!(a < b)]. *)
Definition fge (a b : float) : Prop := fle b a.

(** The ends of [r] are the least of [lo] and the greatest of [hi]. *)
Definition summarises (r : FloatRange) (lo hi : list float) : Prop :=
  extremum fle (m_min r) lo /\ extremum fge (m_max r) hi.

(** [r] summarises [lo] and [hi] and its ends are in order: something in
    [lo] is below its maximum and something in [hi] above its minimum. *)
Definition mergeable (r : FloatRange) (lo hi : list float) : Prop :=
  summarises r lo hi
  /\ Exists (fun x => is_nan x = false /\ fle x (m_max r)) lo
  /\ Exists (fun y => is_nan y = false /\ fge y (m_min r)) hi.

(** What [std::min] with [<=] and [std::max] with [>=] have in common. *)
Class Selector (le : float -> float -> Prop) (sel : float -> float -> float) := {
  le_refl : forall a, le a a;
  le_trans : forall a b c, is_nan b = false -> le a b -> le b c -> le a c;
  le_antisym : forall a b, is_nan a = false -> is_nan b = false -> le a b -> le b a -> feq a b;
  feq_le : forall a b, feq a b -> le a b;
  sel_cases : forall a b, sel a b = a \/ sel a b = b;
  sel_l : forall a b, le (sel a b) a;
  sel_r : forall a b, le (sel a b) b
}.

Ltac float_cases :=
  repeat match goal with
  | f : spec_float |- _ => destruct f as [[]|[]| |[] ? ?]
  end;
  unfold fle, feq, F32.ltb, SFltb, SFcompare in *; simpl in *;
  try done;
  repeat match goal with
  | |- context [Z.compare ?a ?b] => destruct (Z.compare_spec a b); subst; simpl in *; try done
  | H : context [Z.compare ?a ?b] |- _ => destruct (Z.compare_spec a b); subst; simpl in *; try done
  end;
  repeat match goal with
  | |- context [Pos.compare_cont Eq ?a ?b] =>
      change (Pos.compare_cont Eq a b) with (Pos.compare a b);
      destruct (Pos.compare_spec a b); subst; simpl in *; try done
  | H : context [Pos.compare_cont Eq ?a ?b] |- _ =>
      change (Pos.compare_cont Eq a b) with (Pos.compare a b) in H;
      destruct (Pos.compare_spec a b); subst; simpl in *; try done
  end;
  try lia.

Lemma fle_refl a : fle a a.
Proof. float_cases. Qed.

Lemma fle_trans a b c :
  is_nan b = false -> fle a b -> fle b c -> fle a c.
Proof. intros Hb H1 H2. float_cases. Qed.

Lemma fle_antisym a b :
  is_nan a = false -> is_nan b = false -> fle a b -> fle b a -> feq a b.
Proof. intros Ha Hb H1 H2. float_cases. Qed.

Lemma feq_fle a b : feq a b -> fle a b /\ fle b a.
Proof. intros H. split; float_cases. Qed.

Lemma feq_not_nan a b : feq a b -> is_nan a = false /\ is_nan b = false.
Proof. intros H. split; float_cases. Qed.

Lemma feq_refl a : is_nan a = false -> feq a a.
Proof. intros H. float_cases. Qed.

Lemma feq_sym a b : feq a b -> feq b a.
Proof. intros H. float_cases. Qed.

Lemma feq_trans a b c : feq a b -> feq b c -> feq a c.
Proof. intros H1 H2. float_cases. Qed.

(** ** Selecting the smaller and the larger of two floats *)

Lemma ltb_asym a b : F32.ltb a b = true -> F32.ltb b a = false.
Proof. intros H. float_cases. Qed.

Lemma std_min_cases a b : std_min a b = a \/ std_min a b = b.
Proof. unfold std_min. destruct (F32.ltb b a); auto. Qed.

Lemma std_max_cases a b : std_max a b = a \/ std_max a b = b.
Proof. unfold std_max. destruct (F32.ltb a b); auto. Qed.

Lemma std_min_le_l a b : fle (std_min a b) a.
Proof.
  unfold std_min. destruct (F32.ltb b a) eqn:E.
  - now apply ltb_asym.
  - apply fle_refl.
Qed.

Lemma std_min_le_r a b : fle (std_min a b) b.
Proof.
  unfold std_min. destruct (F32.ltb b a) eqn:E.
  - apply fle_refl.
  - exact E.
Qed.

Lemma std_max_ge_l a b : fle a (std_max a b).
Proof.
  unfold std_max. destruct (F32.ltb a b) eqn:E.
  - now apply ltb_asym.
  - apply fle_refl.
Qed.

Lemma std_max_ge_r a b : fle b (std_max a b).
Proof.
  unfold std_max. destruct (F32.ltb a b) eqn:E.
  - apply fle_refl.
  - exact E.
Qed.

Lemma std_min_absorb a b : fle a b -> std_min a b = a.
Proof. unfold fle, std_min. now intros ->. Qed.

(** A NaN sample leaves the range as it is. *)
Lemma addValue_nan r : addValue r S754_nan = r.
Proof.
  destruct r as [lo hi]. unfold addValue, std_min, std_max, F32.ltb, SFltb. simpl.
  destruct lo, hi; reflexivity.
Qed.

(** ** Extrema of a list, for [<=] and for [>=] *)

#[export] Instance min_selector : Selector fle std_min.
Proof.
  split.
  - apply fle_refl.
  - apply fle_trans.
  - apply fle_antisym.
  - intros a b H. now destruct (feq_fle _ _ H).
  - apply std_min_cases.
  - apply std_min_le_l.
  - apply std_min_le_r.
Qed.

#[export] Instance max_selector : Selector fge std_max.
Proof.
  split.
  - apply fle_refl.
  - intros a b c Hb H1 H2. now apply fle_trans with b.
  - intros a b Ha Hb H1 H2. now apply fle_antisym.
  - intros a b H. now destruct (feq_fle _ _ H).
  - apply std_max_cases.
  - apply std_max_ge_l.
  - apply std_max_ge_r.
Qed.

Section Extremum.
Context {le : float -> float -> Prop} {sel : float -> float -> float}.
Context `{!Selector le sel}.

Lemma sel_not_nan a b : is_nan a = false -> is_nan b = false -> is_nan (sel a b) = false.
Proof. intros. destruct (sel_cases a b) as [-> | ->]; assumption. Qed.

Lemma extremum_unique m m' l :
  no_nan l -> extremum le m l -> extremum le m' l -> feq m m'.
Proof.
  intros Hl (Hm & Hlo & Hin) (Hm' & Hlo' & Hin'). unfold no_nan in Hl.
  rewrite Forall_forall in Hl, Hlo, Hlo'. rewrite Exists_exists in Hin, Hin'.
  destruct Hin as (x & Hx & Hmx), Hin' as (y & Hy & Hmy).
  apply le_antisym; trivial.
  - apply le_trans with y; auto. apply feq_le. now apply feq_sym.
  - apply le_trans with x; auto. apply feq_le. now apply feq_sym.
Qed.

Lemma extremum_perm m l l' : l ≡ₚ l' -> extremum le m l -> extremum le m l'.
Proof.
  intros P (Hm & Hlo & Hin). repeat split; trivial.
  - now rewrite <- P.
  - now rewrite <- P.
Qed.

(** An element that some other element of the list is below can be
    left out. *)
Lemma extremum_drop m y l :
  extremum le m (y :: l) -> Exists (fun x => is_nan x = false /\ le x y) l ->
  extremum le m l.
Proof.
  intros (Hm & Hlo & Hin) Hd. inversion Hlo as [|? ? Hy Hl]; subst.
  repeat split; trivial.
  inversion Hin as [? ? E|? ? E]; subst; trivial.
  rewrite Exists_exists in *. destruct Hd as (x & Hx & Hnx & Hxy).
  exists x. split; trivial. rewrite Forall_forall in Hl.
  apply le_antisym; auto.
  apply le_trans with y; trivial.
  - now destruct (feq_not_nan _ _ E).
  - apply feq_le. now apply feq_sym.
Qed.

(** An element that is itself the extremum of a list can be replaced
    by that list. *)
Lemma extremum_flatten m x l l' :
  extremum le m (x :: l) -> extremum le x l' -> extremum le m (l' ++ l).
Proof.
  intros (Hm & Hlo & Hin) (Hx & Hlo' & Hin'). inversion Hlo as [|? ? Hmx Hl]; subst.
  repeat split; trivial.
  - apply Forall_app. split; trivial.
    eapply Forall_impl; [eassumption|]. intros y Hy. now apply le_trans with x.
  - apply Exists_app. inversion Hin as [? ? E|? ? E]; subst; [left|now right].
    eapply Exists_impl; [eassumption|]. intros y Hy. simpl in Hy.
    now apply feq_trans with x.
Qed.

(** The end of a range that [sel] maintains is an extremum of the samples
    and the initial value. *)
Lemma fold_sel_extremum xs : forall a,
  is_nan a = false -> no_nan xs ->
  extremum le (fold_left sel xs a) (a :: xs).
Proof.
  induction xs as [|x xs IH]; intros a Ha Hxs; simpl.
  - repeat split; trivial.
    + constructor; [apply le_refl | constructor].
    + constructor. now apply feq_refl.
  - inversion Hxs; subst.
    assert (Hs : extremum le (sel a x) [a; x]).
    { repeat split.
      - now apply sel_not_nan.
      - repeat constructor; [apply sel_l | apply sel_r].
      - destruct (sel_cases a x) as [Q | Q]; rewrite Q.
        + constructor. now apply feq_refl.
        + constructor 2. constructor. now apply feq_refl. }
    apply (extremum_flatten _ _ _ _ (IH (sel a x) (sel_not_nan _ _ Ha H1) H2)) in Hs.
    exact Hs.
Qed.

(** One step of the merge loop, on the end of the ranges that [sel]
    maintains: [o] summarises [lo], [l] and [h] are the two ends of a range
    that summarises [ll], and [m] is what the step leaves. *)
Lemma extremum_merge m o l h lo ll :
  extremum le m [o; l; h] ->
  extremum le o lo -> extremum le l ll ->
  Exists (fun x => is_nan x = false /\ le x h) ll ->
  extremum le m (lo ++ ll).
Proof.
  intros Hm Ho Hl Hh.
  assert (Hm2 : extremum le m [o; l]).
  { apply extremum_drop with h.
    - eapply extremum_perm; [|exact Hm].
      symmetry. apply (Permutation_cons_append [o; l] h).
    - constructor 2. constructor. destruct Hl as (Hnl & Hlo & _). split; trivial.
      rewrite Exists_exists in Hh. destruct Hh as (x & Hx & Hnx & Hxh).
      apply le_trans with x; trivial.
      rewrite Forall_forall in Hlo. auto. }
  apply (fun H => extremum_flatten _ _ _ _ H Ho) in Hm2.
  assert (Hm3 : extremum le m (l :: lo)).
  { eapply extremum_perm; [|exact Hm2]. symmetry. apply Permutation_cons_append. }
  apply (fun H => extremum_flatten _ _ _ _ H Hl) in Hm3.
  eapply extremum_perm; [|exact Hm3]. apply Permutation_app_comm.
Qed.

Lemma extremum_dedup m a l :
  is_nan a = false -> extremum le m (a :: a :: l) -> extremum le m (a :: l).
Proof.
  intros Ha H. apply extremum_drop with a; trivial.
  constructor. split; [trivial | apply le_refl].
Qed.

Lemma extremum_bound m l x : extremum le m l -> x ∈ l -> le m x.
Proof. intros (_ & Hlo & _) Hx. rewrite Forall_forall in Hlo. auto. Qed.

(** The extremum is, numerically, an element of the list. *)
Lemma extremum_attained m l :
  extremum le m l -> exists y, y ∈ l /\ feq m y.
Proof. intros (_ & _ & Hin). now rewrite Exists_exists in Hin. Qed.
End Extremum.

(** ** Ranges as summaries of sample lists *)

Lemma accumulate_ends xs : forall r,
  accumulate r xs = mkRange (fold_left std_min xs (m_min r)) (fold_left std_max xs (m_max r)).
Proof.
  unfold accumulate. induction xs as [|x xs IH]; intros [lo hi]; simpl.
  - reflexivity.
  - now rewrite IH.
Qed.

Lemma merge_ends B A :
  merge B A = mkRange (fold_left std_min [m_min A; m_max A] (m_min B))
                      (fold_left std_max [m_min A; m_max A] (m_max B)).
Proof. reflexivity. Qed.

Lemma summarises_unique r r' lo lo' hi hi' :
  no_nan lo -> no_nan hi -> lo ≡ₚ lo' -> hi ≡ₚ hi' ->
  summarises r lo hi -> summarises r' lo' hi' -> range_eq r r'.
Proof.
  intros Hlo Hhi Plo Phi [H1 H2] [H1' H2']. split.
  - apply (extremum_unique (le := fle) _ _ lo); trivial.
    eapply extremum_perm; [symmetry|]; eassumption.
  - apply (extremum_unique (le := fge) _ _ hi); trivial.
    eapply extremum_perm; [symmetry|]; eassumption.
Qed.

Lemma range_ok_mergeable A : range_ok A -> mergeable A [m_min A] [m_max A].
Proof.
  intros (Hlo & Hhi & Hle). repeat split; trivial.
  - constructor; [apply fle_refl | constructor].
  - constructor. now apply feq_refl.
  - constructor; [apply fle_refl | constructor].
  - constructor. now apply feq_refl.
  - constructor. now split.
  - constructor. now split.
Qed.

(** Folding a mergeable range into a range gives the summary of the
    joined lists. *)
Lemma merge_mergeable B A loB hiB loA hiA :
  no_nan loA -> no_nan hiA ->
  summarises B loB hiB -> mergeable A loA hiA ->
  mergeable (merge B A) (loB ++ loA) (hiB ++ hiA).
Proof.
  intros HnA HnA' [HB1 HB2] ([HA1 HA2] & HA3 & HA4).
  assert (Hnm : is_nan (m_min A) = false) by apply HA1.
  assert (HnM : is_nan (m_max A) = false) by apply HA2.
  assert (Hbm : is_nan (m_min B) = false) by apply HB1.
  assert (HbM : is_nan (m_max B) = false) by apply HB2.
  assert (S1 : extremum fle (m_min (merge B A)) (loB ++ loA)).
  { rewrite merge_ends. cbn [m_min].
    eapply (extremum_merge (le := fle)); [| exact HB1 | exact HA1 | exact HA3].
    apply (fold_sel_extremum (sel := std_min) [m_min A; m_max A] (m_min B)); trivial.
    now repeat constructor. }
  assert (S2 : extremum fge (m_max (merge B A)) (hiB ++ hiA)).
  { rewrite merge_ends. cbn [m_max].
    eapply (extremum_merge (le := fge)); [| exact HB2 | exact HA2 | exact HA4].
    eapply extremum_perm; [apply perm_skip, perm_swap|].
    apply (fold_sel_extremum (sel := std_max) [m_min A; m_max A] (m_max B)); trivial.
    now repeat constructor. }
  repeat split; try apply S1; try apply S2.
  - apply Exists_app. right. rewrite Exists_exists in *.
    destruct HA3 as (x & Hx & Hnx & Hxr). exists x. repeat split; trivial.
    destruct (extremum_attained (le := fge) _ _ HA2) as (y & Hy & Ey).
    apply fle_trans with (m_max A); trivial.
    apply fle_trans with y.
    + now destruct (feq_not_nan _ _ Ey).
    + now destruct (feq_fle _ _ Ey).
    + apply (extremum_bound (le := fge) _ _ _ S2). apply elem_of_app. now right.
  - apply Exists_app. right. rewrite Exists_exists in *.
    destruct HA4 as (x & Hx & Hnx & Hxr). exists x. repeat split; trivial.
    destruct (extremum_attained (le := fle) _ _ HA1) as (y & Hy & Ey).
    unfold fge in *. apply fle_trans with (m_min A); trivial.
    apply fle_trans with y.
    + now destruct (feq_not_nan _ _ Ey).
    + apply (extremum_bound (le := fle) _ _ _ S1). apply elem_of_app. now right.
    + now destruct (feq_fle _ _ Ey).
Qed.

Lemma accumulate_summarises r xs :
  is_nan (m_min r) = false -> is_nan (m_max r) = false -> no_nan xs ->
  summarises (accumulate r xs) (m_min r :: xs) (m_max r :: xs).
Proof.
  intros Hlo Hhi Hxs. rewrite accumulate_ends. split; simpl.
  - now apply (fold_sel_extremum (le := fle)).
  - now apply (fold_sel_extremum (le := fge)).
Qed.

(** The range of a thread that has seen a sample is mergeable. *)
Lemma accumulate_mergeable r x xs :
  is_nan (m_min r) = false -> is_nan (m_max r) = false -> no_nan (x :: xs) ->
  mergeable (accumulate r (x :: xs)) (m_min r :: x :: xs) (m_max r :: x :: xs).
Proof.
  intros Hlo Hhi Hxs. pose proof (accumulate_summarises r _ Hlo Hhi Hxs) as [H1 H2].
  inversion Hxs; subst. repeat split; try apply H1; try apply H2.
  - constructor 2. constructor. split; trivial.
    apply (extremum_bound (le := fge) _ _ _ H2). set_solver.
  - constructor 2. constructor. split; trivial.
    apply (extremum_bound (le := fle) _ _ _ H1). set_solver.
Qed.

(** The merge loop over the ranges of threads that have each seen a
    sample summarises all their samples. *)
Lemma merge_parts_summarises parts : forall out done,
  Forall (fun p => p <> [] /\ no_nan p) parts ->
  summarises out (F32.numeric_limits_max :: done) (F32.numeric_limits_min :: done) ->
  summarises (fold_left merge (accumulate ValueRange <$> parts) out)
             (F32.numeric_limits_max :: done ++ concat parts)
             (F32.numeric_limits_min :: done ++ concat parts).
Proof.
  induction parts as [|p parts IH]; intros out done Hp Hout; simpl.
  - now rewrite app_nil_r.
  - inversion Hp as [|? ? [Hne Hnn] Hps]; subst.
    destruct p as [|x xs]; [congruence|].
    rewrite (app_assoc done). apply IH; trivial.
    assert (M : mergeable (accumulate ValueRange (x :: xs))
                  (F32.numeric_limits_max :: x :: xs) (F32.numeric_limits_min :: x :: xs))
      by now apply (accumulate_mergeable ValueRange).
    assert (N1 : no_nan (F32.numeric_limits_max :: x :: xs)) by now constructor.
    assert (N2 : no_nan (F32.numeric_limits_min :: x :: xs)) by now constructor.
    apply (merge_mergeable _ _ _ _ _ _ N1 N2 Hout) in M.
    destruct M as [[S1 S2] _]. split.
    + apply (extremum_dedup (le := fle)); [reflexivity|].
      eapply extremum_perm; [|exact S1]. simpl.
      now rewrite <- Permutation_middle.
    + apply (extremum_dedup (le := fge)); [reflexivity|].
      eapply extremum_perm; [|exact S2]. simpl.
      now rewrite <- Permutation_middle.
Qed.

(** ** ValueRange *)

(** C2. The first [addValue] on a default-constructed range does not give
    [min = max = x] for a negative sample: the maximum stays at
    [numeric_limits<float>::min()], the smallest positive normal float. *)
Theorem addValue_first_negative_sample :
  addValue ValueRange (F32.of_Z (-1)) = mkRange (F32.of_Z (-1)) F32.numeric_limits_min
  /\ getMax (addValue ValueRange (F32.of_Z (-1))) <> F32.of_Z (-1)
  /\ F32.ltb (F32.of_Z 0) F32.numeric_limits_min = true.
Proof. repeat split; vm_compute; congruence. Qed.

(** ** The bounding-box resolver *)

(** C4. The resolver returns the empty box when a lookup fails or a stored
    bound carries the sentinel on some axis, and the stored box otherwise;
    an exception of the lookups does not leave it, it becomes the empty
    box. *)
Theorem getIndexSpaceBoundingBox_resolves (grid : FloatGrid) :
  getIndexSpaceBoundingBox grid = resolver_spec grid
  /\ (forall e, stored_bbox grid = Throw e ->
      getIndexSpaceBoundingBox grid = CoordBBox_default)
  /\ CoordBBox_empty CoordBBox_default = true.
Proof.
  split; [|split; [|reflexivity]].
  - unfold getIndexSpaceBoundingBox, stored_bbox, resolver_spec, stored_bound, metaValue,
      on_any_axis.
    destruct (metaMap grid !! "file_bbox_min") as [[lo|?]|]; simpl; try reflexivity.
    destruct ((cx lo =? Int32.max) || (cy lo =? Int32.max) || (cz lo =? Int32.max)); simpl.
    + destruct (metaMap grid !! "file_bbox_max") as [[hi|?]|]; reflexivity.
    + destruct (metaMap grid !! "file_bbox_max") as [[hi|?]|]; simpl; try reflexivity.
      destruct ((cx hi =? Int32.min) || (cy hi =? Int32.min) || (cz hi =? Int32.min));
        reflexivity.
  - intros e H. unfold getIndexSpaceBoundingBox. now rewrite H.
Qed.

Lemma getIndexSpaceBoundingBox_resolves_witness :
  getIndexSpaceBoundingBox bare_grid = CoordBBox_default.
Proof.
  apply (proj1 (proj2 (getIndexSpaceBoundingBox_resolves bare_grid)) LookupError).
  reflexivity.
Defined.

(** C8, as stated, fails: folding the default-constructed range into
    [5, 7] by its two ends drags the minimum down to
    [numeric_limits<float>::min()] and the maximum up to
    [numeric_limits<float>::max()], while the union of the two is [5, 7]. *)
Lemma merge_default_range_not_union :
  merge (mkRange (F32.of_Z 5) (F32.of_Z 7)) ValueRange
  = mkRange F32.numeric_limits_min F32.numeric_limits_max
  /\ ~ range_eq (merge (mkRange (F32.of_Z 5) (F32.of_Z 7)) ValueRange)
                (mkRange (std_min (F32.of_Z 5) (m_min ValueRange))
                         (std_max (F32.of_Z 7) (m_max ValueRange))).
Proof.
  split; [vm_compute; reflexivity|]. intros [H _]. vm_compute in H. discriminate.
Qed.

Lemma fold_left_merge_snd (ranges : PerThreadRange) : forall out,
  fold_left (fun out r => merge out (snd r)) ranges out = fold_left merge (ranges.*2) out.
Proof. induction ranges as [|r rs IH]; intros out; simpl; [reflexivity | apply IH]. Qed.

(** ** Normalisation *)

Lemma sub_self_is_zero s m e :
  F32.sub (S754_finite s m e) (S754_finite s m e) = S754_zero false.
Proof.
  unfold F32.sub, SFsub. cbv zeta. now rewrite Z.sub_diag.
Qed.

(** C3. A constant field is not given a defined value: with
    [range.max == range.min == x] the remap computes 0/0, and the fill of
    the constant field 5.0 on a 2x2x2 lattice leaves a NaN in all 32
    slots. *)
Theorem constant_field_fill_is_nan :
  (forall s m e, unlerp (S754_finite s m e) (S754_finite s m e) (S754_finite s m e) = S754_nan)
  /\ observe (fillTextureBuffer two_threads two_threads
                (volume_of constant_grid (mkCoord 2 2 2)) (buffer_of 32))
     = Some (mkSummary 8 2 2 2 20 (F32.of_Z 5) (F32.of_Z 5)
                       (F64.of_Z 1) (F64.of_Z 1) (F64.of_Z 1),
             Some (replicate 32 S754_nan)).
Proof.
  split.
  - intros s m e. unfold unlerp. now rewrite sub_self_is_zero.
  - vm_compute. reflexivity.
Qed.

(** C7. On a field without a sample above [numeric_limits<float>::min()]
    no normalised sample is 1.0: the samples -3.0 and -1.0 of a 2x1x1
    lattice are reduced to the range [-3, 2^-126], which is not degenerate,
    and remapped to 0 and 2/3. *)
Theorem negative_field_never_reaches_one :
  observe (fillTextureBuffer two_threads two_threads
             (volume_of negative_grid (mkCoord 2 1 1)) (buffer_of 8))
  = Some (mkSummary 2 2 1 1 20 (F32.of_Z (-3)) F32.numeric_limits_min
                    (F64.of_Z 1) (F64.of_Z 1) (F64.of_Z 1),
          Some (replicate 4 (S754_zero false)
                ++ replicate 4 (S754_finite false 11184811 (-24))))
  /\ F32.ltb (F32.of_Z (-3)) F32.numeric_limits_min = true
  /\ Forall (fun v => SFeqb v (F32.of_Z 1) = false)
            (replicate 4 (S754_zero false)
             ++ replicate 4 (S754_finite false 11184811 (-24))).
Proof.
  split; [vm_compute; reflexivity|]. split; [reflexivity|].
  repeat constructor.
Qed.

(** ** The facade *)

(** C1, as stated, fails: the fill of a volume whose grid has no stored
    bounds resolves the empty box and still replaces the range of the
    summary, here [0, 1], by the ends of the default-constructed range. *)
Lemma empty_box_fill_overwrites_summary :
  CoordBBox_empty (getIndexSpaceBoundingBox bare_grid) = true
  /\ min_value (getSummary (volume_of bare_grid (mkCoord 2 1 1))) = F32.of_Z 0
  /\ max_value (getSummary (volume_of bare_grid (mkCoord 2 1 1))) = F32.of_Z 1
  /\ (fun r => (min_value (fst r), max_value (fst r)))
       <$> observe (fillTextureBuffer one_thread one_thread
                      (volume_of bare_grid (mkCoord 2 1 1)) (buffer_of 8))
     = Some (F32.numeric_limits_max, F32.numeric_limits_min).
Proof. repeat split; vm_compute; reflexivity. Qed.

(** C1. When the resolved box or the lattice is empty, the stage that
    finds it returns [false] and hands back the range and the buffer it was
    given, and the fill leaves the buffer as it was. *)
Theorem empty_domain_fill_leaves_buffer (sch1 sch2 : schedule) (self : oiVolume)
    (out_data : list float) :
  let grid := m_grid self in
  let extents := mkCoord (width (m_summary self)) (height (m_summary self))
                         (depth (m_summary self)) in
  let lattice := lattice extents in
  CoordBBox_empty (getIndexSpaceBoundingBox grid) = true \/ CoordBBox_empty lattice = true ->
  (CoordBBox_empty (getIndexSpaceBoundingBox grid) = true ->
   forall r, sampleGrid sch1 sch2 grid extents r out_data
             = Some (Some false, r,
                     BBoxd_extents (indexToWorld grid (getIndexSpaceBoundingBox grid)),
                     out_data))
  /\ (CoordBBox_empty lattice = true ->
      forall f r, sampleVolume sch1 sch2 extents f r out_data = Some (Some false, r, out_data))
  /\ voxels ∘ snd <$> fillTextureBuffer sch1 sch2 self (mkData (Some out_data))
     = Some (Some out_data).
Proof.
  intros grid extents lattice H.
  assert (V : CoordBBox_empty lattice = true ->
              forall f r, sampleVolume sch1 sch2 extents f r out_data
                          = Some (Some false, r, out_data)).
  { intros E f r. unfold sampleVolume. fold lattice. now rewrite E. }
  assert (G : CoordBBox_empty (getIndexSpaceBoundingBox grid) = true ->
              forall r, sampleGrid sch1 sch2 grid extents r out_data
                        = Some (Some false, r,
                                BBoxd_extents (indexToWorld grid (getIndexSpaceBoundingBox grid)),
                                out_data)).
  { intros E r. unfold sampleGrid. now rewrite E. }
  repeat split; trivial.
  unfold fillTextureBuffer. cbn [voxels]. fold grid extents.
  destruct (CoordBBox_empty (getIndexSpaceBoundingBox grid)) eqn:E.
  - now rewrite G.
  - destruct H as [H | H]; [discriminate|].
    unfold sampleGrid. rewrite E. now rewrite V.
Qed.

Lemma empty_domain_fill_leaves_buffer_witness :
  voxels ∘ snd <$> fillTextureBuffer one_thread one_thread
                     (volume_of bare_grid (mkCoord 2 1 1)) (buffer_of 8)
  = Some (Some (replicate 8 sentinel)).
Proof.
  apply (empty_domain_fill_leaves_buffer one_thread one_thread
           (volume_of bare_grid (mkCoord 2 1 1)) (replicate 8 sentinel)).
  left. vm_compute. reflexivity.
Defined.

(** C10. A fill changes, in the volume, nothing but the range and scale
    fields of the summary, and [setScaleFactor] nothing but the stored
    factor. *)
Theorem fill_and_setScaleFactor_frame (sch1 sch2 : schedule) (self self' : oiVolume)
    (data data' : oiVolumeData) (k : float) :
  (fillTextureBuffer sch1 sch2 self data = Some (self', data') ->
   voxel_count (getSummary self') = voxel_count (getSummary self)
   /\ width (getSummary self') = width (getSummary self)
   /\ height (getSummary self') = height (getSummary self)
   /\ depth (getSummary self') = depth (getSummary self)
   /\ format (getSummary self') = format (getSummary self)
   /\ m_grid self' = m_grid self
   /\ m_extents self' = m_extents self
   /\ m_scaleFactor self' = m_scaleFactor self)
  /\ getSummary (setScaleFactor self k) = getSummary self
  /\ m_grid (setScaleFactor self k) = m_grid self
  /\ m_extents (setScaleFactor self k) = m_extents self
  /\ m_scaleFactor (setScaleFactor self k) = k.
Proof.
  split; [|repeat split].
  unfold fillTextureBuffer. destruct (voxels data) as [out_data|].
  - destruct (sampleGrid _ _ _ _ _ _) as [[[[st r] sc] buf]|]; simpl; [|discriminate].
    intros [= <- <-]. repeat split.
  - intros [= <- <-]. repeat split.
Qed.

Lemma fill_and_setScaleFactor_frame_witness :
  (fun r => width (getSummary (fst r)))
    <$> fillTextureBuffer one_thread two_threads
          (volume_of step_grid (mkCoord 2 1 1)) (buffer_of 8)
  = Some 2.
Proof.
  destruct (fillTextureBuffer one_thread two_threads
              (volume_of step_grid (mkCoord 2 1 1)) (buffer_of 8))
    as [[self' data']|] eqn:E.
  - apply (fill_and_setScaleFactor_frame _ _ _ _ _ _ (F32.of_Z 1)) in E.
    destruct E as (_ & E & _). simpl. now rewrite E.
  - apply (f_equal (fun r => match r with Some _ => true | None => false end)) in E.
    vm_compute in E. discriminate.
Defined.

(** ** Scaling of the reported extents *)

Lemma digits2_pos_shift52 m :
  Zpos (digits2_pos (m * 4503599627370496)) = Zpos (digits2_pos m) + 52.
Proof. rewrite Pos.mul_comm. cbv [Pos.mul]. cbn [digits2_pos]. lia. Qed.

Lemma shr_shift52 m :
  SpecFloat.iter_pos shr_1 52 (Build_shr_record (Zpos (m * 4503599627370496)) false false)
  = Build_shr_record (Zpos m) false false.
Proof. rewrite Pos.mul_comm. cbv [Pos.mul]. reflexivity. Qed.

(** Multiplying a [double] of the format by 1.0 leaves it as it is. *)
Lemma F64_mul_one x : valid_binary F64.prec F64.emax x = true -> F64.mul x F64.one = x.
Proof.
  unfold F64.mul, F64.one, F64.prec, F64.emax.
  destruct x as [s|s| |s m e]; intros H;
    try (unfold SFmul; now rewrite ?xorb_false_r).
  unfold SFmul. rewrite xorb_false_r.
  change (2 ^ 52)%positive with 4503599627370496%positive.
  cbn [valid_binary] in H. unfold bounded, canonical_mantissa in H.
  apply andb_prop in H. destruct H as [H1 H2]. apply Z.eqb_eq in H1.
  unfold binary_round_aux, shr_fexp.
  change (Zdigits2 (Z.pos (m * 4503599627370496)))
    with (Zpos (digits2_pos (m * 4503599627370496))).
  rewrite digits2_pos_shift52.
  replace (Z.pos (digits2_pos m) + 52 + (e + -52)) with (Z.pos (digits2_pos m) + e) by lia.
  rewrite H1. replace (e - (e + -52)) with 52 by lia.
  cbn [shr shr_record_of_loc]. rewrite shr_shift52.
  cbn [shr_m loc_of_shr_record round_nearest_even].
  change (Zdigits2 (Z.pos m)) with (Zpos (digits2_pos m)).
  replace (e + -52 + 52) with e by lia.
  rewrite H1, Z.sub_diag. cbn [shr shr_m]. now rewrite H2.
Qed.

Lemma F64_mul_comm x y : F64.mul x y = F64.mul y x.
Proof.
  unfold F64.mul, SFmul.
  destruct x as [sx|sx| |sx mx ex], y as [sy|sy| |sy my ey];
    try reflexivity; rewrite ?(xorb_comm sx sy); try reflexivity.
  now rewrite (Pos.mul_comm mx my), (Z.add_comm ex ey).
Qed.

(** The scale [sampleGrid] hands back is the extent of the transformed
    box, whatever else it does. *)
Lemma sampleGrid_scale sch1 sch2 grid extents r out_data st r' scale buf :
  sampleGrid sch1 sch2 grid extents r out_data = Some (st, r', scale, buf) ->
  scale = BBoxd_extents (indexToWorld grid (getIndexSpaceBoundingBox grid)).
Proof.
  unfold sampleGrid. destruct (CoordBBox_empty _).
  - now intros [= _ _ <- _].
  - destruct (sampleVolume _ _ _ _ _ _) as [[[? ?] ?]|]; simpl; [|discriminate].
    now intros [= _ _ <- _].
Qed.

(** C9. After [setScaleFactor(k)] a fill reports, on each axis, the world
    extent of the transformed box times [k], which is the scale reported
    under the factor 1.0 times [k]. *)
Theorem scale_follows_factor (sch1 sch2 : schedule) (self self1 selfk : oiVolume)
    (k : float) (out_data : list float) (data1 datak : oiVolumeData) :
  let world :=
    BBoxd_extents (indexToWorld (m_grid self) (getIndexSpaceBoundingBox (m_grid self))) in
  valid_binary F64.prec F64.emax (vx world) = true ->
  valid_binary F64.prec F64.emax (vy world) = true ->
  valid_binary F64.prec F64.emax (vz world) = true ->
  fillTextureBuffer sch1 sch2 (setScaleFactor self (F32.of_Z 1)) (mkData (Some out_data))
  = Some (self1, data1) ->
  fillTextureBuffer sch1 sch2 (setScaleFactor self k) (mkData (Some out_data))
  = Some (selfk, datak) ->
  (x_scale (getSummary selfk) = F64.mul (vx world) (F64.of_float k)
   /\ y_scale (getSummary selfk) = F64.mul (vy world) (F64.of_float k)
   /\ z_scale (getSummary selfk) = F64.mul (vz world) (F64.of_float k))
  /\ (x_scale (getSummary selfk) = F64.mul (F64.of_float k) (x_scale (getSummary self1))
      /\ y_scale (getSummary selfk) = F64.mul (F64.of_float k) (y_scale (getSummary self1))
      /\ z_scale (getSummary selfk) = F64.mul (F64.of_float k) (z_scale (getSummary self1))).
Proof.
  intros world Vx Vy Vz. unfold fillTextureBuffer. cbn [voxels setScaleFactor m_summary m_grid
    m_scaleFactor m_extents].
  destruct (sampleGrid _ _ _ _ _ _) as [[[[st r] scale] buf]|] eqn:E; simpl; [|discriminate].
  apply sampleGrid_scale in E. fold world in E. subst scale.
  intros [= <- _] [= <- _]. cbn [getSummary m_summary x_scale y_scale z_scale].
  change (F64.of_float (F32.of_Z 1)) with F64.one.
  rewrite !F64_mul_one by assumption.
  repeat split; apply F64_mul_comm.
Qed.

Lemma scale_follows_factor_witness :
  (fun r => x_scale (getSummary (fst r)))
    <$> fillTextureBuffer one_thread two_threads
          (setScaleFactor (volume_of step_grid (mkCoord 2 1 1)) (F32.of_Z 2)) (buffer_of 8)
  = Some (F64.of_Z 2).
Proof.
  destruct (fillTextureBuffer one_thread two_threads
              (setScaleFactor (volume_of step_grid (mkCoord 2 1 1)) (F32.of_Z 1))
              (buffer_of 8)) as [[self1 data1]|] eqn:E1;
    [|apply (f_equal (fun r => match r with Some _ => true | None => false end)) in E1;
      vm_compute in E1; discriminate].
  destruct (fillTextureBuffer one_thread two_threads
              (setScaleFactor (volume_of step_grid (mkCoord 2 1 1)) (F32.of_Z 2))
              (buffer_of 8)) as [[selfk datak]|] eqn:Ek;
    [|apply (f_equal (fun r => match r with Some _ => true | None => false end)) in Ek;
      vm_compute in Ek; discriminate].
  destruct (scale_follows_factor one_thread two_threads
              (volume_of step_grid (mkCoord 2 1 1)) self1 selfk (F32.of_Z 2)
              (replicate 8 sentinel) data1 datak) as [[H _] _];
    [vm_compute; reflexivity | vm_compute; reflexivity | vm_compute; reflexivity
    | exact E1 | exact Ek |].
  cbn [fmap option_fmap option_map fst]. rewrite H. vm_compute. reflexivity.
Defined.

(** ** The cells of a box and of its parts *)

Lemma wrap32_id z : Int32.min <= z <= Int32.max -> Int32.wrap32 z = z.
Proof.
  unfold Int32.min, Int32.max, Int32.wrap32, Int32.modulus. intros H.
  rewrite Z.mod_small; lia.
Qed.

Lemma elem_of_cells b c : c ∈ cells b <-> in_box b c.
Proof.
  unfold cells, in_box. destruct c as [x y z]. simpl.
  rewrite list_elem_of_bind. split.
  - intros (z' & H & Hz). apply list_elem_of_bind in H. destruct H as (y' & H & Hy).
    apply list_elem_of_bind in H. destruct H as (x' & H & Hx).
    apply list_elem_of_singleton in H. injection H as -> -> ->.
    rewrite elem_of_seqZ in Hx, Hy, Hz. lia.
  - intros (Hx & Hy & Hz). exists z. split; [|rewrite elem_of_seqZ; lia].
    apply list_elem_of_bind. exists y. split; [|rewrite elem_of_seqZ; lia].
    apply list_elem_of_bind. exists x. split; [|rewrite elem_of_seqZ; lia].
    now apply list_elem_of_singleton.
Qed.

Lemma NoDup_cells b : NoDup (cells b).
Proof.
  unfold cells. apply NoDup_bind; [| |apply NoDup_seqZ].
  - intros z1 z2 c _ _ H1 H2.
    apply list_elem_of_bind in H1. destruct H1 as (y1 & H1 & _).
    apply list_elem_of_bind in H1. destruct H1 as (x1 & H1 & _).
    apply list_elem_of_bind in H2. destruct H2 as (y2 & H2 & _).
    apply list_elem_of_bind in H2. destruct H2 as (x2 & H2 & _).
    apply list_elem_of_singleton in H1, H2. congruence.
  - intros z _. apply NoDup_bind; [| |apply NoDup_seqZ].
    + intros y1 y2 c _ _ H1 H2.
      apply list_elem_of_bind in H1. destruct H1 as (x1 & H1 & _).
      apply list_elem_of_bind in H2. destruct H2 as (x2 & H2 & _).
      apply list_elem_of_singleton in H1, H2. congruence.
    + intros y _. apply NoDup_bind; [| |apply NoDup_seqZ].
      * intros x1 x2 c _ _ H1 H2.
        apply list_elem_of_singleton in H1, H2. congruence.
      * intros x _. apply NoDup_singleton.
Qed.

(** The midpoint of the splitting constructor, for small coordinates. *)
Lemma midpoint lo hi :
  0 <= lo -> lo < hi -> hi < 2 ^ 30 ->
  Z.shiftr (Int32.add lo hi) 1 = (lo + hi) / 2
  /\ Int32.add ((lo + hi) / 2) 1 = (lo + hi) / 2 + 1
  /\ lo <= (lo + hi) / 2 < hi.
Proof.
  intros H0 H1 H2. unfold Int32.add.
  assert (lo <= (lo + hi) / 2 < hi).
  { split; [apply Z.div_le_lower_bound | apply Z.div_lt_upper_bound]; lia. }
  rewrite !wrap32_id by (unfold Int32.min, Int32.max; lia).
  rewrite Z.shiftr_div_pow2 by lia. change (2 ^ 1) with 2. lia.
Qed.

(** The two halves of a splitting share no cell and cover the box, and
    have a cell each when the box has one. *)
Lemma split_box_cells n b b1 b2 :
  small_box b -> axis_get n (bmin b) < axis_get n (bmax b) ->
  split_box n b = (b1, b2) ->
  small_box b1 /\ small_box b2
  /\ (forall c, in_box b c <-> in_box b1 c \/ in_box b2 c)
  /\ (forall c, in_box b1 c -> in_box b2 c -> False)
  /\ (inhabited_box b -> inhabited_box b1 /\ inhabited_box b2).
Proof.
  unfold split_box, small_box, in_box, inhabited_box. intros Hs Hlt [= <- <-].
  destruct b as [[x0 y0 z0] [x1 y1 z1]]. simpl in *.
  destruct n; simpl in *.
  - destruct (midpoint x0 x1) as (-> & -> & ?); try lia.
    repeat split; try lia; intros [x y z]; simpl; lia.
  - destruct (midpoint y0 y1) as (-> & -> & ?); try lia.
    repeat split; try lia; intros [x y z]; simpl; lia.
  - destruct (midpoint z0 z1) as (-> & -> & ?); try lia.
    repeat split; try lia; intros [x y z]; simpl; lia.
Qed.

Lemma is_divisible_axis n b : is_divisible b = true -> axis_get n (bmin b) < axis_get n (bmax b).
Proof.
  unfold is_divisible. rewrite !andb_true_iff, !Z.ltb_lt. destruct n; simpl; lia.
Qed.

(** Whatever the schedule, the first pass visits each cell of the box
    once. *)
Lemma visited_cells sch : forall b,
  small_box b -> NoDup (visited sch b) /\ forall c, c ∈ visited sch b <-> in_box b c.
Proof.
  unfold visited.
  induction sch as [t|n swap lo IHlo hi IHhi]; intros b Hb; cbn [tasks].
  - rewrite bind_singleton. simpl. split; [apply NoDup_cells | apply elem_of_cells].
  - destruct (is_divisible b) eqn:D.
    2:{ rewrite bind_singleton. simpl. split; [apply NoDup_cells | apply elem_of_cells]. }
    destruct (split_box n b) as [b1 b2] eqn:S.
    destruct (split_box_cells n b b1 b2 Hb (is_divisible_axis n b D) S)
      as (Hb1 & Hb2 & Hcov & Hdis & _).
    destruct (IHlo b1 Hb1) as [N1 M1], (IHhi b2 Hb2) as [N2 M2].
    destruct swap; rewrite bind_app; (split; [apply NoDup_app; split_and!; trivial|]).
    + intros c H2 H1. apply M2 in H2. apply M1 in H1. eauto.
    + intros c. rewrite elem_of_app, M1, M2, Hcov. tauto.
    + intros c H1 H2. apply M2 in H2. apply M1 in H1. eauto.
    + intros c. rewrite elem_of_app, M1, M2, Hcov. tauto.
Qed.

(** ** Flat offsets *)

Lemma lattice_fits extents :
  fits_int extents ->
  lattice extents
  = mkBBox (mkCoord 0 0 0) (mkCoord (cx extents - 1) (cy extents - 1) (cz extents - 1))
  /\ small_box (lattice extents)
  /\ CoordBBox_empty (lattice extents) = false
  /\ CoordBBox_volume (lattice extents) = cx extents * cy extents * cz extents.
Proof.
  destruct extents as [w h d]. unfold fits_int, Int32.max. simpl. intros (Hw & Hh & Hd & HM).
  assert (Hwh : 1 <= w * h) by nia.
  assert (HwM : w <= w * h * d) by nia.
  assert (HhM : h <= w * h * d) by nia.
  assert (HdM : d <= w * h * d) by nia.
  assert (L : lattice (mkCoord w h d) = mkBBox (mkCoord 0 0 0) (mkCoord (w - 1) (h - 1) (d - 1))).
  { unfold lattice, Coord_sub, Int32.sub. simpl.
    rewrite !wrap32_id by (unfold Int32.min, Int32.max; lia). reflexivity. }
  rewrite L. split; [reflexivity|]. split; [|split].
  - unfold small_box. simpl. lia.
  - unfold CoordBBox_empty. simpl.
    rewrite !orb_false_iff, !Z.ltb_ge. lia.
  - unfold CoordBBox_volume, CoordBBox_dim, Coord_sub, Int32.sub, Int32.add. simpl.
    rewrite !wrap32_id by (unfold Int32.min, Int32.max; rewrite ?wrap32_id;
                           unfold Int32.min, Int32.max; lia).
    replace (w - 1 + 1 - 0) with w by lia.
    replace (h - 1 + 1 - 0) with h by lia.
    replace (d - 1 + 1 - 0) with d by lia.
    rewrite (Z.mod_small w), (Z.mod_small h), (Z.mod_small d) by lia.
    apply Z.mod_small. lia.
Qed.

Lemma in_lattice extents c :
  fits_int extents ->
  in_box (lattice extents) c
  <-> (0 <= cx c < cx extents) /\ (0 <= cy c < cy extents) /\ (0 <= cz c < cz extents).
Proof.
  intros H. destruct (lattice_fits _ H) as (-> & _). unfold in_box. simpl. lia.
Qed.

(** The index the code computes in [int] is the flat offset, and the four
    slots of the cell lie in the buffer. *)
Lemma linear_index_flat extents c :
  fits_int extents -> in_box (lattice extents) c ->
  linear_index (stride_of extents) c = flat_offset extents c
  /\ cell_slots (stride_of extents) c
     = [flat_offset extents c; flat_offset extents c + 1;
        flat_offset extents c + 2; flat_offset extents c + 3]
  /\ 0 <= flat_offset extents c
  /\ flat_offset extents c + 3 < cx extents * cy extents * cz extents * 4.
Proof.
  intros H Hc. apply (in_lattice _ _ H) in Hc.
  destruct extents as [w h d], c as [x y z]. unfold fits_int, Int32.max in H.
  simpl in *. destruct H as (Hw & Hh & Hd & HM), Hc as (Hx & Hy & Hz).
  assert (B1 : 0 <= y * w <= (h - 1) * w) by nia.
  assert (B2 : 0 <= z * (w * h) <= (d - 1) * (w * h)) by nia.
  assert (B3 : 1 <= w * h) by nia.
  assert (B4 : w * h * d = (d - 1) * (w * h) + (h - 1) * w + w) by ring.
  assert (B5 : w * h <= w * h * d) by nia.
  assert (L : linear_index (stride_of (mkCoord w h d)) (mkCoord x y z)
              = flat_offset (mkCoord w h d) (mkCoord x y z)).
  { unfold linear_index, stride_of, Vec3i_dot, flat_offset, Int32.mul, Int32.add. simpl.
    rewrite (wrap32_id (w * h)) by (unfold Int32.min, Int32.max; lia).
    rewrite (wrap32_id (x * 1)) by (unfold Int32.min, Int32.max; lia).
    rewrite (wrap32_id (y * w)) by (unfold Int32.min, Int32.max; lia).
    rewrite (wrap32_id (z * (w * h))) by (unfold Int32.min, Int32.max; lia).
    rewrite (wrap32_id (x * 1 + y * w)) by (unfold Int32.min, Int32.max; lia).
    rewrite (wrap32_id (x * 1 + y * w + z * (w * h))) by (unfold Int32.min, Int32.max; lia).
    rewrite wrap32_id by (unfold Int32.min, Int32.max; lia).
    ring. }
  assert (R : 0 <= flat_offset (mkCoord w h d) (mkCoord x y z)
              /\ flat_offset (mkCoord w h d) (mkCoord x y z) + 3 < w * h * d * 4).
  { unfold flat_offset. simpl.
    replace (z * w * h) with (z * (w * h)) by ring. lia. }
  split; [exact L|]. split; [|exact R].
  unfold cell_slots. rewrite L. unfold Int32.add. simpl.
  rewrite !wrap32_id by (unfold Int32.min, Int32.max; lia).
  now rewrite Z.add_0_r.
Qed.

(** Distinct cells have distinct slots. *)
Lemma flat_offset_inj extents c c' k k' :
  fits_int extents -> in_box (lattice extents) c -> in_box (lattice extents) c' ->
  0 <= k < 4 -> 0 <= k' < 4 ->
  flat_offset extents c + k = flat_offset extents c' + k' -> c = c' /\ k = k'.
Proof.
  intros H Hc Hc' Hk Hk' E.
  apply (in_lattice _ _ H) in Hc. apply (in_lattice _ _ H) in Hc'.
  destruct extents as [w h d], c as [x y z], c' as [x' y' z'].
  unfold fits_int in H. unfold flat_offset in E. simpl in *.
  destruct H as (Hw & Hh & Hd & _).
  assert (E1 : 4 * (x + w * (y + h * z)) + k = 4 * (x' + w * (y' + h * z')) + k') by lia.
  apply Z.div_mod_unique in E1; [|lia|lia]. destruct E1 as [E1 ->].
  assert (E2 : w * (y + h * z) + x = w * (y' + h * z') + x') by lia.
  apply Z.div_mod_unique in E2; [|lia|lia]. destruct E2 as [E2 ->].
  assert (E3 : h * z + y = h * z' + y') by lia.
  apply Z.div_mod_unique in E3; [|lia|lia]. destruct E3 as [-> ->].
  split; reflexivity.
Qed.

(** Every slot below the slot count is a slot of some cell. *)
Lemma flat_offset_surj extents i :
  fits_int extents -> 0 <= i < cx extents * cy extents * cz extents * 4 ->
  exists c k, in_box (lattice extents) c /\ 0 <= k < 4 /\ i = flat_offset extents c + k.
Proof.
  intros H Hi. pose proof (in_lattice extents) as L.
  destruct extents as [w h d]. unfold fits_int in H. simpl in *.
  destruct H as (Hw & Hh & Hd & HM).
  set (q := i / 4). set (x := q mod w). set (y := (q / w) mod h). set (z := q / w / h).
  exists (mkCoord x y z), (i mod 4).
  assert (Hq : 0 <= q < w * h * d).
  { unfold q. split; [apply Z.div_pos; lia | apply Z.div_lt_upper_bound; lia]. }
  assert (Hqw : 0 <= q / w < h * d).
  { split; [apply Z.div_pos; lia | apply Z.div_lt_upper_bound; nia]. }
  assert (Hz : 0 <= z < d).
  { unfold z. split; [apply Z.div_pos; lia | apply Z.div_lt_upper_bound; nia]. }
  assert (Hx : 0 <= x < w) by (apply Z.mod_pos_bound; lia).
  assert (Hy : 0 <= y < h) by (apply Z.mod_pos_bound; lia).
  split; [|split].
  - apply L; [unfold fits_int; simpl; lia|]. simpl. lia.
  - apply Z.mod_pos_bound. lia.
  - unfold flat_offset. simpl.
    pose proof (Z.div_mod i 4 ltac:(lia)) as D1. fold q in D1.
    pose proof (Z.div_mod q w ltac:(lia)) as D2. fold x in D2.
    pose proof (Z.div_mod (q / w) h ltac:(lia)) as D3. fold y z in D3.
    rewrite D1 at 1. rewrite D2 at 1. rewrite D3 at 1. ring.
Qed.

(** The first pass stores to each slot of the buffer once. *)
Lemma first_pass_slots_perm sch extents :
  fits_int extents ->
  first_pass_slots sch extents ≡ₚ seqZ 0 (cx extents * cy extents * cz extents * 4).
Proof.
  intros H. destruct (lattice_fits _ H) as (_ & Hsmall & _).
  destruct (visited_cells sch _ Hsmall) as [Nv Mv].
  unfold first_pass_slots. apply NoDup_Permutation.
  - apply NoDup_bind; trivial.
    + intros c c' i Hc Hc' Hi Hi'. apply Mv in Hc, Hc'.
      destruct (linear_index_flat _ _ H Hc) as (_ & S & _).
      destruct (linear_index_flat _ _ H Hc') as (_ & S' & _).
      rewrite S in Hi. rewrite S' in Hi'.
      assert (exists k, 0 <= k < 4 /\ i = flat_offset extents c + k) as (k & Hk & E).
      { set_unfold. destruct Hi as [->|[->|[->|[->|[]]]]];
          [exists 0|exists 1|exists 2|exists 3]; lia. }
      assert (exists k, 0 <= k < 4 /\ i = flat_offset extents c' + k) as (k' & Hk' & E').
      { set_unfold. destruct Hi' as [->|[->|[->|[->|[]]]]];
          [exists 0|exists 1|exists 2|exists 3]; lia. }
      apply (flat_offset_inj extents c c' k k'); trivial. lia.
    + intros c Hc. apply Mv in Hc.
      destruct (linear_index_flat _ _ H Hc) as (_ & -> & _).
      repeat (apply NoDup_cons; split; [set_unfold; lia|]). apply NoDup_nil_2.
  - apply NoDup_seqZ.
  - intros i. rewrite elem_of_seqZ, list_elem_of_bind. split.
    + intros (c & Hi & Hc). apply Mv in Hc.
      destruct (linear_index_flat _ _ H Hc) as (_ & S & R). rewrite S in Hi.
      set_unfold. lia.
    + intros Hi. destruct (flat_offset_surj extents i H ltac:(lia)) as (c & k & Hc & Hk & ->).
      exists c. split; [|now apply Mv].
      destruct (linear_index_flat _ _ H Hc) as (_ & -> & _).
      assert (k = 0 \/ k = 1 \/ k = 2 \/ k = 3) as [->|[->|[->| ->]]] by lia;
        set_unfold; lia.
Qed.

(** ** The two passes as sequences of stores *)

Lemma foldM_app {S A} (f : S -> A -> option S) l1 : forall s l2,
  foldM f s (l1 ++ l2) = s' ← foldM f s l1; foldM f s' l2.
Proof.
  induction l1 as [|a l1 IH]; intros s l2; simpl; [reflexivity|].
  destruct (f s a); simpl; [apply IH | reflexivity].
Qed.

Lemma foldM_bind {S A B} (g : S -> B -> option S) (h : A -> list B) l : forall s,
  foldM (fun s a => foldM g s (h a)) s l = foldM g s (l ≫= h).
Proof.
  induction l as [|a l IH]; intros s; [reflexivity|].
  rewrite bind_cons, foldM_app. simpl.
  destruct (foldM g s (h a)); simpl; [apply IH | reflexivity].
Qed.

(** Integer wrap-around is the last thing to unfold when two terms are
    compared. *)
Strategy 1000 [Int32.wrap32].

Lemma four_steps {S T} (g : S -> Z * float -> option S) (k : S -> T) s a0 a1 a2 a3 :
  (b0 ← g s a0; b1 ← g b0 a1; b2 ← g b1 a2; b3 ← g b2 a3; Some (k b3))
  = k <$> foldM g s [a0; a1; a2; a3].
Proof.
  cbn [foldM].
  destruct (g s a0) as [b0|]; [cbn [mbind option_bind]|reflexivity].
  destruct (g b0 a1) as [b1|]; [cbn [mbind option_bind]|reflexivity].
  destruct (g b1 a2) as [b2|]; [cbn [mbind option_bind]|reflexivity].
  destruct (g b2 a3) as [b3|]; reflexivity.
Qed.

(** A visit is its four stores and one update of the thread's range. *)
Lemma visit_stores f stride t st c :
  visit f stride t st c
  = (fun b => (b, update_local t (fun r => addValue r (f c)) (snd st)))
      <$> foldM store_step (fst st) (cell_stores f stride c).
Proof.
  exact (four_steps store_step
           (fun b => (b, update_local t (fun r => addValue r (f c)) (snd st))) (fst st)
           (Int32.add (linear_index stride c) 0, f c) (Int32.add (linear_index stride c) 1, f c)
           (Int32.add (linear_index stride c) 2, f c) (Int32.add (linear_index stride c) 3, f c)).
Qed.

Lemma visits_stores f stride t cs : forall buf rs,
  fst <$> foldM (visit f stride t) (buf, rs) cs
  = foldM store_step buf (cs ≫= cell_stores f stride).
Proof.
  induction cs as [|c cs IH]; intros buf rs; [reflexivity|].
  rewrite bind_cons, foldM_app. cbn [foldM]. rewrite visit_stores. cbn [fst snd].
  destruct (foldM store_step buf (cell_stores f stride c)); simpl; [apply IH | reflexivity].
Qed.

(** The first pass is the run of the stores of the visited cells, in the
    order of the visits. *)
Lemma first_pass_stores f stride ts : forall buf rs,
  fst <$> foldM (sample_task f stride) (buf, rs) ts
  = foldM store_step buf ((ts ≫= (fun t => cells (snd t))) ≫= cell_stores f stride).
Proof.
  induction ts as [|t ts IH]; intros buf rs; [reflexivity|].
  rewrite bind_cons, bind_app, foldM_app. cbn [foldM]. unfold sample_task at 1. cbn [fst snd].
  pose proof (visits_stores f stride (fst t) (cells (snd t)) buf (local (fst t) rs)) as V.
  destruct (foldM (visit f stride (fst t)) (buf, local (fst t) rs) (cells (snd t)))
    as [[b1 rs1]|]; simpl in V; rewrite <- V; simpl; [apply IH | reflexivity].
Qed.

(** The second pass is the run of the rewrites of its slots. *)
Lemma second_pass_rewrites r chs : forall buf,
  foldM (remap_chunk r) buf chs
  = foldM (remap_step r) buf (chs ≫= (fun ch => seqZ (fst ch) (snd ch - fst ch))).
Proof. intros buf. apply (foldM_bind (remap_step r)). Qed.

Lemma store_in_range buf i v :
  0 <= i < Z.of_nat (length buf) -> store buf i v = Some (<[Z.to_nat i := v]> buf).
Proof.
  intros H. unfold store.
  destruct (0 <=? i) eqn:E1; [|apply Z.leb_gt in E1; lia].
  destruct (i <? Z.of_nat (length buf)) eqn:E2; [|apply Z.ltb_ge in E2; lia].
  reflexivity.
Qed.

(** Stores inside the buffer do not fault; a slot holds what was stored to
    it, and the others what they held. *)
Lemma stores_run stores : forall buf,
  Forall (fun s => 0 <= fst s < Z.of_nat (length buf)) stores ->
  exists buf', foldM store_step buf stores = Some buf'
    /\ length buf' = length buf
    /\ (NoDup stores.*1 -> forall i v, (i, v) ∈ stores -> buf' !! Z.to_nat i = Some v)
    /\ (forall j, Z.of_nat j ∉ stores.*1 -> buf' !! j = buf !! j).
Proof.
  induction stores as [|[i v] ss IH]; intros buf HF.
  - exists buf. split_and!; trivial. intros _ i v H. inversion H.
  - inversion HF as [|? ? Hi Hss]; subst. simpl in Hi.
    cbn [foldM]. unfold store_step at 1. cbn [fst snd]. rewrite store_in_range by trivial.
    destruct (IH (<[Z.to_nat i := v]> buf)) as (buf' & R & L & Hin & Hout).
    { now rewrite length_insert. }
    rewrite length_insert in L.
    exists buf'. split_and!; trivial.
    + cbn [fmap list_fmap fst]. intros ND i' v' Hm. apply NoDup_cons in ND. destruct ND as [Hn ND].
      apply elem_of_cons in Hm. destruct Hm as [[= -> ->] | Hm]; [|now apply Hin].
      rewrite Hout by (rewrite Z2Nat.id; [exact Hn | lia]).
      apply list_lookup_insert_eq. lia.
    + cbn [fmap list_fmap fst]. intros j Hj. rewrite not_elem_of_cons in Hj. destruct Hj as [Hj1 Hj2].
      rewrite Hout by trivial. apply list_lookup_insert_ne. lia.
Qed.

(** Rewrites of distinct slots inside the buffer do not fault; each of
    these slots holds the remapped value, the others what they held. *)
Lemma rewrites_run r l : forall buf,
  Forall (fun i => 0 <= i < Z.of_nat (length buf)) l -> NoDup l ->
  exists buf', foldM (remap_step r) buf l = Some buf'
    /\ length buf' = length buf
    /\ (forall i, i ∈ l ->
        buf' !! Z.to_nat i = unlerp (getMin r) (getMax r) <$> buf !! Z.to_nat i)
    /\ (forall j, Z.of_nat j ∉ l -> buf' !! j = buf !! j).
Proof.
  induction l as [|i l IH]; intros buf HF ND.
  - exists buf. split_and!; trivial. intros i H. inversion H.
  - inversion HF as [|? ? Hi Hl]; subst. apply NoDup_cons in ND. destruct ND as [Hn ND].
    cbn [foldM]. unfold remap_step at 1. unfold load.
    destruct (0 <=? i) eqn:E; [|apply Z.leb_gt in E; lia].
    destruct (lookup_lt_is_Some_2 buf (Z.to_nat i) ltac:(lia)) as [x Hx].
    rewrite Hx. cbn [mbind option_bind]. rewrite store_in_range by trivial.
    destruct (IH (<[Z.to_nat i := unlerp (getMin r) (getMax r) x]> buf))
      as (buf' & R & L & Hin & Hout); trivial.
    { now rewrite length_insert. }
    rewrite length_insert in L.
    exists buf'. split_and!; trivial.
    + intros i' Hm. apply elem_of_cons in Hm. destruct Hm as [-> | Hm].
      * rewrite Hout by (rewrite Z2Nat.id; [exact Hn | lia]).
        rewrite Hx. apply list_lookup_insert_eq. lia.
      * rewrite Hin by trivial. f_equal. apply list_lookup_insert_ne.
        rewrite Forall_forall in Hl. specialize (Hl _ Hm).
        intros Q. apply Z2Nat.inj in Q; [congruence | lia | lia].
    + intros j Hj. rewrite not_elem_of_cons in Hj. destruct Hj as [Hj1 Hj2].
      rewrite Hout by trivial. apply list_lookup_insert_ne. lia.
Qed.

(** The chunks of a flat range hold each index of the range once. *)
Lemma chunks_perm sch : forall b e,
  b <= e -> (chunks sch b e ≫= (fun ch => seqZ (fst ch) (snd ch - fst ch))) ≡ₚ seqZ b (e - b).
Proof.
  induction sch as [t|n swap lo IHlo hi IHhi]; intros b e Hbe; cbn [chunks].
  - now rewrite bind_singleton.
  - destruct (1 <? e - b) eqn:D; [|now rewrite bind_singleton].
    apply Z.ltb_lt in D. set (half := (e - b) / 2).
    assert (Hm : 0 <= half <= e - b).
    { unfold half. pose proof (Z.div_pos (e - b) 2). pose proof (Z.mul_div_le (e - b) 2). lia. }
    replace (seqZ b (e - b)) with (seqZ b half ++ seqZ (b + half) (e - b - half))
      by (rewrite <- seqZ_app by lia; f_equal; lia).
    pose proof (IHlo b (b + half) ltac:(lia)) as L.
    pose proof (IHhi (b + half) e ltac:(lia)) as R.
    replace (b + half - b) with half in L by lia.
    replace (e - (b + half)) with (e - b - half) in R by lia.
    destruct swap; rewrite bind_app, L, R; [apply Permutation_app_comm|reflexivity].
Qed.

Lemma second_pass_slots_perm sch extents :
  fits_int extents ->
  second_pass_slots sch extents ≡ₚ seqZ 0 (cx extents * cy extents * cz extents * 4).
Proof.
  intros H. destruct (lattice_fits _ H) as (_ & _ & _ & V).
  unfold second_pass_slots. rewrite V.
  assert (0 <= cx extents * cy extents * cz extents * 4 <= Int32.max).
  { unfold fits_int in H. split; [nia | lia]. }
  rewrite wrap32_id by (unfold Int32.min, Int32.max in *; lia).
  rewrite Z.mod_small by (unfold Int32.max in *; lia).
  rewrite chunks_perm by lia. now rewrite Z.sub_0_r.
Qed.

Lemma cell_stores_slots f stride (l : list Vec3i) :
  (l ≫= cell_stores f stride).*1 = l ≫= cell_slots stride.
Proof.
  induction l as [|c l IH]; [reflexivity|].
  now rewrite !bind_cons, fmap_app, IH.
Qed.

Lemma elem_of_cell_stores f stride c i :
  i ∈ cell_slots stride c -> (i, f c) ∈ cell_stores f stride c.
Proof. intros H. unfold cell_stores. now apply (list_elem_of_fmap_2 (fun i => (i, f c))). Qed.

(** [sampleVolume] on a buffer that holds the lattice: it runs to its
    end, every slot of a cell holds the remapped sample of the cell, and the
    rest of the buffer is as it was. *)
Lemma sampleVolume_run sch1 sch2 extents f r0 buf :
  fits_int extents ->
  cx extents * cy extents * cz extents * 4 <= Z.of_nat (length buf) ->
  exists r buf',
    sampleVolume sch1 sch2 extents f r0 buf = Some (None, r, buf')
    /\ length buf' = length buf
    /\ (forall c k, in_box (lattice extents) c -> 0 <= k < 4 ->
        buf' !! Z.to_nat (flat_offset extents c + k)
        = Some (unlerp (getMin r) (getMax r) (f c)))
    /\ (forall j, cx extents * cy extents * cz extents * 4 <= Z.of_nat j ->
        buf' !! j = buf !! j).
Proof.
  intros H Hlen. set (n := cx extents * cy extents * cz extents * 4) in *.
  destruct (lattice_fits _ H) as (_ & Hsmall & Hne & Hvol).
  destruct (visited_cells sch1 _ Hsmall) as [Nv Mv].
  pose proof (first_pass_slots_perm sch1 extents H) as P1. fold n in P1.
  pose proof (second_pass_slots_perm sch2 extents H) as P2. fold n in P2.
  set (stores := visited sch1 (lattice extents) ≫= cell_stores f (stride_of extents)).
  assert (S1 : stores.*1 = first_pass_slots sch1 extents) by apply cell_stores_slots.
  (* first pass *)
  destruct (stores_run stores buf) as (buf1 & R1 & L1 & Hin1 & Hout1).
  { apply Forall_forall. intros [i v] Hs. simpl.
    assert (Hi : i ∈ stores.*1) by (apply (list_elem_of_fmap_2 fst) in Hs; exact Hs).
    rewrite S1, P1, elem_of_seqZ in Hi. lia. }
  assert (ND1 : NoDup stores.*1) by (rewrite S1, P1; apply NoDup_seqZ).
  pose proof (first_pass_stores f (stride_of extents) (tasks sch1 (lattice extents)) buf [])
    as F1.
  fold (visited sch1 (lattice extents)) in F1. fold stores in F1. rewrite R1 in F1.
  destruct (foldM (sample_task f (stride_of extents)) (buf, []) (tasks sch1 (lattice extents)))
    as [[b1 rs1]|] eqn:E1; [|discriminate]. simpl in F1. injection F1 as ->.
  (* second pass *)
  set (r := merge_ranges rs1).
  destruct (rewrites_run r (second_pass_slots sch2 extents) buf1) as (buf2 & R2 & L2 & Hin2 & Hout2).
  { apply Forall_forall. intros i Hi. rewrite P2, elem_of_seqZ in Hi. lia. }
  { rewrite P2. apply NoDup_seqZ. }
  exists r, buf2. split; [|split; [congruence|split]].
  - unfold sampleVolume. rewrite Hne, E1. cbn [mbind option_bind].
    rewrite second_pass_rewrites. fold r.
    unfold second_pass_slots in R2. rewrite R2. reflexivity.
  - intros c k Hc Hk.
    destruct (linear_index_flat _ _ H Hc) as (_ & Sc & R0 & R3). fold n in R3.
    assert (Hslot : flat_offset extents c + k ∈ cell_slots (stride_of extents) c).
    { rewrite Sc. assert (k = 0 \/ k = 1 \/ k = 2 \/ k = 3) as [->|[->|[->| ->]]] by lia;
        set_unfold; lia. }
    rewrite Hin2 by (rewrite P2, elem_of_seqZ; lia).
    rewrite (Hin1 ND1 _ (f c)); [reflexivity|].
    unfold stores. apply list_elem_of_bind. exists c. split; [|now apply Mv].
    now apply elem_of_cell_stores.
  - intros j Hj. rewrite Hout2, Hout1; trivial.
    + rewrite S1, P1, elem_of_seqZ. lia.
    + rewrite P2, elem_of_seqZ. lia.
Qed.

(** ** The sampler and the fill on a non-empty domain *)

(** C5. The sampler of [sampleGrid] is, at every cell index, the grid's
    world-space sampler at the centre of the cell,
    [world_min + (cell + 0.5) / lattice_extents * world_extents], where the
    world box is the transformed index box; on a non-empty box
    [sampleGrid] leaves in the slots of every lattice cell the remapped
    value of this sample. *)
Theorem sampleGrid_samples_cell_centres (sch1 sch2 : schedule) (grid : FloatGrid)
    (extents : Coord) (r0 : FloatRange) (buf : list float) :
  let bbox_world := indexToWorld grid (getIndexSpaceBoundingBox grid) in
  let world_min := wmin bbox_world in
  let world_extents := Vec3d_sub (wmax bbox_world) (wmin bbox_world) in
  let centre := fun cell : Vec3i =>
    Vec3d_add world_min
      (Vec3d_mul (Vec3d_div (Vec3d_add_scalar (asVec3d cell) F64.half) (asVec3d extents))
                 world_extents) in
  (forall cell, sampling_func grid bbox_world (asVec3d extents) cell = wsSample grid (centre cell))
  /\ (CoordBBox_empty (getIndexSpaceBoundingBox grid) = false ->
      fits_int extents ->
      cx extents * cy extents * cz extents * 4 <= Z.of_nat (length buf) ->
      exists r buf',
        sampleGrid sch1 sch2 grid extents r0 buf = Some (None, r, world_extents, buf')
        /\ forall ix iy iz k,
             0 <= ix < cx extents -> 0 <= iy < cy extents -> 0 <= iz < cz extents ->
             0 <= k < 4 ->
             buf' !! Z.to_nat ((ix * 1 + iy * cx extents + iz * cx extents * cy extents) * 4 + k)
             = Some (unlerp (getMin r) (getMax r) (wsSample grid (centre (mkCoord ix iy iz))))).
Proof.
  intros bbox_world world_min world_extents centre. split; [reflexivity|].
  intros Hne H Hlen.
  destruct (sampleVolume_run sch1 sch2 extents
              (sampling_func grid bbox_world (asVec3d extents)) r0 buf H Hlen)
    as (r & buf' & R & _ & Hin & _).
  exists r, buf'. split.
  - unfold sampleGrid. rewrite Hne. fold bbox_world. rewrite R. reflexivity.
  - intros ix iy iz k Hx Hy Hz Hk.
    apply (Hin (mkCoord ix iy iz) k); trivial.
    apply in_lattice; trivial. simpl. lia.
Qed.

Lemma sampleGrid_samples_cell_centres_witness :
  exists r buf',
    sampleGrid one_thread two_threads step_grid (mkCoord 2 1 1) ValueRange
               (replicate 8 sentinel)
    = Some (None, r,
            Vec3d_sub (wmax (indexToWorld step_grid (getIndexSpaceBoundingBox step_grid)))
                      (wmin (indexToWorld step_grid (getIndexSpaceBoundingBox step_grid))),
            buf')
    /\ buf' !! 7%nat = Some (unlerp (getMin r) (getMax r) (F32.of_Z 3)).
Proof.
  destruct (proj2 (sampleGrid_samples_cell_centres one_thread two_threads step_grid
                     (mkCoord 2 1 1) ValueRange (replicate 8 sentinel)))
    as (r & buf' & R & Hin).
  - vm_compute. reflexivity.
  - unfold fits_int, Int32.max. cbn [cx cy cz]. lia.
  - cbn [cx cy cz]. rewrite length_replicate. lia.
  - exists r, buf'. split; [exact R|].
    specialize (Hin 1 0 0 3). cbn [cx cy cz] in Hin.
    replace 7%nat with (Z.to_nat ((1 * 1 + 0 * 2 + 0 * 2 * 1) * 4 + 3)) by reflexivity.
    rewrite Hin by lia. apply f_equal, f_equal. vm_compute. reflexivity.
Defined.

Lemma store_negative buf i v : i < 0 -> store buf i v = None.
Proof.
  intros H. unfold store. destruct (0 <=? i) eqn:E; [apply Z.leb_le in E; lia|reflexivity].
Qed.

(** A run of stores with a negative slot among them faults. *)
Lemma stores_fault stores : forall buf,
  Exists (fun s => fst s < 0) stores -> foldM store_step buf stores = None.
Proof.
  induction stores as [|[i v] ss IH]; intros buf H; [inversion H|].
  cbn [foldM]. unfold store_step at 1. cbn [fst snd].
  destruct (store buf i v) as [buf1|] eqn:E; [|reflexivity].
  apply IH. inversion H as [? ? Hi|]; subst; trivial.
  simpl in Hi. now rewrite store_negative in E.
Qed.

(** C6, as stated, fails once the slot count leaves [int]: on the lattice
    2^30 x 1 x 1 the index of the cell (2^29, 0, 0) wraps to -2^31, and
    the first pass faults on its store, whatever the schedule and the
    buffer. *)
Lemma large_lattice_index_wraps :
  in_box (lattice (mkCoord (2 ^ 30) 1 1)) (mkCoord (2 ^ 29) 0 0)
  /\ flat_offset (mkCoord (2 ^ 30) 1 1) (mkCoord (2 ^ 29) 0 0) = 2 ^ 31
  /\ linear_index (stride_of (mkCoord (2 ^ 30) 1 1)) (mkCoord (2 ^ 29) 0 0) = - 2 ^ 31
  /\ forall sch1 sch2 f r buf,
       sampleVolume sch1 sch2 (mkCoord (2 ^ 30) 1 1) f r buf = None.
Proof.
  assert (B : in_box (lattice (mkCoord (2 ^ 30) 1 1)) (mkCoord (2 ^ 29) 0 0)).
  { unfold in_box. vm_compute. intuition discriminate. }
  split; [exact B|]. split; [vm_compute; reflexivity|]. split; [vm_compute; reflexivity|].
  intros sch1 sch2 f r buf.
  assert (Hs : small_box (lattice (mkCoord (2 ^ 30) 1 1))).
  { unfold small_box. vm_compute. intuition discriminate. }
  destruct (visited_cells sch1 _ Hs) as [_ Mv]. apply Mv in B.
  pose proof (first_pass_stores f (stride_of (mkCoord (2 ^ 30) 1 1))
                (tasks sch1 (lattice (mkCoord (2 ^ 30) 1 1))) buf []) as F1.
  fold (visited sch1 (lattice (mkCoord (2 ^ 30) 1 1))) in F1.
  rewrite stores_fault in F1.
  - unfold sampleVolume.
    replace (CoordBBox_empty (lattice (mkCoord (2 ^ 30) 1 1))) with false
      by (vm_compute; reflexivity).
    destruct (foldM _ _ (tasks sch1 _)) as [[b1 rs1]|]; [discriminate|reflexivity].
  - apply Exists_exists.
    exists (Int32.add (linear_index (stride_of (mkCoord (2 ^ 30) 1 1)) (mkCoord (2 ^ 29) 0 0)) 0,
            f (mkCoord (2 ^ 29) 0 0)).
    split; [|vm_compute; reflexivity].
    apply list_elem_of_bind. exists (mkCoord (2 ^ 29) 0 0). split; [|exact B].
    apply elem_of_cell_stores. unfold cell_slots. apply list_elem_of_fmap_2. constructor.
Qed.

(** C6. When the slot count fits an [int], a fill on a non-empty box
    visits each cell of the lattice once, stores to each of the
    [width*height*depth*4] slots once in each of its two passes, the slots
    of the cell [(x, y, z)] are the four from
    [(x*1 + y*width + z*width*height) * 4] on, and all four end up with
    the same value, the remapped sample of the cell. *)
Theorem fill_writes_every_slot_once (sch1 sch2 : schedule) (self : oiVolume)
    (buf : list float) :
  let grid := m_grid self in
  let extents := mkCoord (width (m_summary self)) (height (m_summary self))
                         (depth (m_summary self)) in
  let slots := cx extents * cy extents * cz extents * 4 in
  let bbox_world := indexToWorld grid (getIndexSpaceBoundingBox grid) in
  CoordBBox_empty (getIndexSpaceBoundingBox grid) = false ->
  fits_int extents ->
  Z.of_nat (length buf) = slots ->
  visited sch1 (lattice extents) ≡ₚ cells (lattice extents)
  /\ first_pass_slots sch1 extents ≡ₚ seqZ 0 slots
  /\ second_pass_slots sch2 extents ≡ₚ seqZ 0 slots
  /\ exists self' buf',
       fillTextureBuffer sch1 sch2 self (mkData (Some buf)) = Some (self', mkData (Some buf'))
       /\ length buf' = length buf
       /\ forall c, in_box (lattice extents) c ->
            cell_slots (stride_of extents) c
            = [flat_offset extents c; flat_offset extents c + 1;
               flat_offset extents c + 2; flat_offset extents c + 3]
            /\ forall k, 0 <= k < 4 ->
                 buf' !! Z.to_nat (flat_offset extents c + k)
                 = Some (unlerp (min_value (getSummary self')) (max_value (getSummary self'))
                           (sampling_func grid bbox_world (asVec3d extents) c)).
Proof.
  intros grid extents slots bbox_world Hne H Hlen.
  split.
  { destruct (lattice_fits _ H) as (_ & Hsmall & _).
    destruct (visited_cells sch1 _ Hsmall) as [Nv Mv].
    apply NoDup_Permutation; [exact Nv | apply NoDup_cells |].
    intros c. now rewrite Mv, elem_of_cells. }
  split; [now apply first_pass_slots_perm|]. split; [now apply second_pass_slots_perm|].
  destruct (sampleVolume_run sch1 sch2 extents
              (sampling_func grid bbox_world (asVec3d extents)) ValueRange buf H
              ltac:(fold slots; lia))
    as (r & buf' & R & L & Hin & _).
  eexists _, buf'. split; [|split; [exact L|]].
  - unfold fillTextureBuffer. cbn [voxels]. fold grid extents.
    unfold sampleGrid. rewrite Hne. fold bbox_world. rewrite R. reflexivity.
  - intros c Hc. split.
    + now destruct (linear_index_flat _ _ H Hc) as (_ & S & _).
    + intros k Hk. cbn [getSummary m_summary min_value max_value]. now apply Hin.
Qed.

Lemma fill_writes_every_slot_once_witness :
  first_pass_slots two_threads (mkCoord 2 1 1) ≡ₚ seqZ 0 8.
Proof.
  refine (proj1 (proj2 (fill_writes_every_slot_once two_threads one_thread
           (volume_of step_grid (mkCoord 2 1 1)) (replicate 8 sentinel) _ _ _))).
  - vm_compute. reflexivity.
  - unfold fits_int, Int32.max. cbn. lia.
  - cbn. reflexivity.
Defined.

(** ** The reduced range, whatever the schedule *)

Lemma visits_ranges f stride t cs : forall buf rs b' rs',
  foldM (visit f stride t) (buf, rs) cs = Some (b', rs') ->
  rs' = fold_left (fun rs c => update_local t (fun r => addValue r (f c)) rs) cs rs.
Proof.
  induction cs as [|c cs IH]; intros buf rs b' rs'; cbn [foldM fold_left].
  - now intros [= _ <-].
  - rewrite visit_stores. cbn [fst snd].
    destruct (foldM store_step buf (cell_stores f stride c)) as [b1|]; [|discriminate].
    cbn [fmap option_fmap option_map]. apply IH.
Qed.

Lemma first_pass_ranges f stride ts : forall buf rs b' rs',
  foldM (sample_task f stride) (buf, rs) ts = Some (b', rs') ->
  rs' = fold_left (ranges_task f) ts rs.
Proof.
  induction ts as [|t ts IH]; intros buf rs b' rs'; cbn [foldM fold_left].
  - now intros [= _ <-].
  - unfold sample_task at 1. cbn [fst snd].
    destruct (foldM (visit f stride (fst t)) (buf, local (fst t) rs) (cells (snd t)))
      as [[b1 rs1]|] eqn:E; [|discriminate].
    apply visits_ranges in E. intros H. apply IH in H. now rewrite H, E.
Qed.

Lemma to_ranges_local t g : to_ranges (samples_local t g) = local t (to_ranges g).
Proof.
  induction g as [|[t' xs] g IH]; [reflexivity|].
  unfold to_ranges in *. cbn [samples_local]. rewrite fmap_cons. cbn [local fst snd].
  destruct (Nat.eqb t t'); [now rewrite fmap_cons|]. now rewrite fmap_cons, IH.
Qed.

Lemma to_ranges_update t v g :
  to_ranges (samples_update t v g) = update_local t (fun r => addValue r v) (to_ranges g).
Proof.
  induction g as [|[t' xs] g IH]; [reflexivity|].
  unfold to_ranges in *. cbn [samples_update]. rewrite fmap_cons. cbn [update_local fst snd].
  destruct (Nat.eqb t t'); rewrite fmap_cons; cbn [fst snd].
  - unfold accumulate. now rewrite fold_left_app.
  - now rewrite IH.
Qed.

Lemma to_ranges_task f task g :
  to_ranges (samples_task f g task) = ranges_task f (to_ranges g) task.
Proof.
  unfold samples_task, ranges_task. rewrite <- to_ranges_local.
  generalize (samples_local (fst task) g). induction (cells (snd task)) as [|c cs IH];
    intros g'; cbn [fold_left]; [reflexivity|].
  now rewrite IH, to_ranges_update.
Qed.

Lemma to_ranges_pass f ts : forall g,
  to_ranges (fold_left (samples_task f) ts g) = fold_left (ranges_task f) ts (to_ranges g).
Proof.
  induction ts as [|t ts IH]; intros g; cbn [fold_left]; [reflexivity|].
  now rewrite IH, to_ranges_task.
Qed.

Lemma samples_local_keys t g u :
  u ∈ (samples_local t g).*1 -> u = t \/ u ∈ g.*1.
Proof.
  induction g as [|[t0 ys] g IH]; cbn [samples_local].
  - rewrite fmap_cons. intros H. apply elem_of_cons in H. destruct H as [->|H]; [now left|].
    inversion H.
  - destruct (Nat.eqb t t0); [now right|]. rewrite !fmap_cons. cbn [fst].
    intros H. apply elem_of_cons in H. destruct H as [->|H].
    + right. constructor.
    + destruct (IH H) as [->|H']; [now left|]. right. now constructor.
Qed.

Lemma samples_local_spec t g :
  NoDup g.*1 -> Forall (fun e => snd e <> []) g ->
  NoDup (samples_local t g).*1 /\ t ∈ (samples_local t g).*1
  /\ concat (samples_local t g).*2 = concat g.*2
  /\ Forall (fun e => fst e = t \/ snd e <> []) (samples_local t g).
Proof.
  induction g as [|[t' xs] g IH]; intros ND NE.
  - cbn. split_and!; [apply NoDup_singleton | constructor | reflexivity |].
    constructor; [now left | constructor].
  - cbn [samples_local]. destruct (Nat.eqb_spec t t') as [->|Hne].
    + split_and!; trivial; [rewrite fmap_cons; constructor|].
      eapply Forall_impl; [exact NE|]. intros e He. now right.
    + rewrite !fmap_cons in *. cbn [fst snd concat] in *.
      apply NoDup_cons in ND. destruct ND as [Hn ND]. inversion NE as [|? ? Hx NE']; subst.
      destruct (IH ND NE') as (I1 & I2 & I3 & I4).
      split_and!.
      * apply NoDup_cons. split; trivial. intros Hin.
        destruct (samples_local_keys _ _ _ Hin); congruence.
      * now constructor.
      * now rewrite I3.
      * constructor; [now right | trivial].
Qed.

Lemma samples_update_spec t v g :
  NoDup g.*1 -> t ∈ g.*1 -> Forall (fun e => fst e = t \/ snd e <> []) g ->
  (samples_update t v g).*1 = g.*1
  /\ concat (samples_update t v g).*2 ≡ₚ v :: concat g.*2
  /\ Forall (fun e => snd e <> []) (samples_update t v g).
Proof.
  induction g as [|[t' xs] g IH]; intros ND Hin NE; [inversion Hin|].
  cbn [samples_update]. rewrite !fmap_cons in *. cbn [fst snd concat] in *.
  apply NoDup_cons in ND. destruct ND as [Hn ND]. inversion NE as [|? ? Hx NE']; subst.
  destruct (Nat.eqb_spec t t') as [->|Hne]; rewrite !fmap_cons; cbn [fst snd concat].
  - split_and!; trivial.
    + rewrite <- app_assoc. cbn. now rewrite <- Permutation_middle.
    + constructor; [cbn; destruct xs; discriminate|].
      rewrite Forall_forall in *. intros e He. destruct (NE' e He) as [E|]; trivial.
      exfalso. apply Hn. rewrite <- E. now apply (list_elem_of_fmap_2 fst).
  - apply elem_of_cons in Hin. destruct Hin as [|Hin]; [congruence|].
    destruct (IH ND Hin NE') as (I1 & I2 & I3). split_and!.
    + now rewrite I1.
    + rewrite I2. now rewrite Permutation_middle.
    + constructor; trivial. simpl in Hx. destruct Hx; [congruence|trivial].
Qed.

Lemma samples_updates_spec (f : Vec3i -> float) (t : nat) (cs : list Vec3i) : forall g,
  NoDup g.*1 -> t ∈ g.*1 -> Forall (fun e => snd e <> []) g ->
  NoDup (fold_left (fun g c => samples_update t (f c) g) cs g).*1
  /\ Forall (fun e => snd e <> []) (fold_left (fun g c => samples_update t (f c) g) cs g)
  /\ concat (fold_left (fun g c => samples_update t (f c) g) cs g).*2
     ≡ₚ (f <$> cs) ++ concat g.*2.
Proof.
  induction cs as [|c cs IH]; intros g ND Hin NE; cbn [fold_left].
  - now split_and!.
  - assert (NE' : Forall (fun e => fst e = t \/ snd e <> []) g).
    { eapply Forall_impl; [exact NE|]. intros e He. now right. }
    destruct (samples_update_spec t (f c) g ND Hin NE') as (U1 & U2 & U3).
    destruct (IH (samples_update t (f c) g)) as (I1 & I2 & I3); trivial;
      try (now rewrite U1).
    split_and!; trivial. rewrite I3, U2, fmap_cons. now rewrite <- Permutation_middle.
Qed.

Lemma samples_task_spec f task g :
  cells (snd task) <> [] -> NoDup g.*1 -> Forall (fun e => snd e <> []) g ->
  NoDup (samples_task f g task).*1
  /\ Forall (fun e => snd e <> []) (samples_task f g task)
  /\ concat (samples_task f g task).*2 ≡ₚ (f <$> cells (snd task)) ++ concat g.*2.
Proof.
  intros Hc ND NE. unfold samples_task.
  destruct (samples_local_spec (fst task) g ND NE) as (L1 & L2 & L3 & L4).
  destruct (cells (snd task)) as [|c cs]; [congruence|]. cbn [fold_left].
  destruct (samples_update_spec (fst task) (f c) _ L1 L2 L4) as (U1 & U2 & U3).
  destruct (samples_updates_spec f (fst task) cs
              (samples_update (fst task) (f c) (samples_local (fst task) g)))
    as (I1 & I2 & I3); trivial; try (now rewrite U1).
  split_and!; trivial.
  rewrite I3, U2, L3, fmap_cons. now rewrite <- Permutation_middle.
Qed.

Lemma samples_pass_spec f ts : forall g,
  Forall (fun task => cells (snd task) <> []) ts ->
  NoDup g.*1 -> Forall (fun e => snd e <> []) g ->
  Forall (fun e => snd e <> []) (fold_left (samples_task f) ts g)
  /\ concat (fold_left (samples_task f) ts g).*2
     ≡ₚ (f <$> (ts ≫= (fun t => cells (snd t)))) ++ concat g.*2.
Proof.
  induction ts as [|t ts IH]; intros g Hts ND NE; cbn [fold_left].
  - now split.
  - inversion Hts as [|? ? Ht Hts']; subst.
    destruct (samples_task_spec f t g Ht ND NE) as (T1 & T2 & T3).
    destruct (IH _ Hts' T1 T2) as (I1 & I2). split; trivial.
    rewrite I2, T3, bind_cons, fmap_app, !app_assoc.
    apply Permutation_app_tail, Permutation_app_comm.
Qed.

Lemma inhabited_cells b : inhabited_box b -> cells b <> [].
Proof.
  intros H E. assert (Hin : bmin b ∈ cells b).
  { apply elem_of_cells. unfold inhabited_box, in_box in *. lia. }
  rewrite E in Hin. inversion Hin.
Qed.

Lemma tasks_inhabited sch : forall b,
  small_box b -> inhabited_box b -> Forall (fun task => cells (snd task) <> []) (tasks sch b).
Proof.
  induction sch as [t|n swap lo IHlo hi IHhi]; intros b Hs Hi; cbn [tasks].
  - repeat constructor. now apply inhabited_cells.
  - destruct (is_divisible b) eqn:D; [|repeat constructor; now apply inhabited_cells].
    destruct (split_box n b) as [b1 b2] eqn:S.
    destruct (split_box_cells n b b1 b2 Hs (is_divisible_axis n b D) S)
      as (Hs1 & Hs2 & _ & _ & Hi').
    destruct (Hi' Hi) as [Hi1 Hi2].
    destruct swap; apply Forall_app; split; auto.
Qed.

Lemma elem_of_concat_2 {A} (x : A) (l : list A) (ls : list (list A)) :
  x ∈ l -> l ∈ ls -> x ∈ concat ls.
Proof.
  intros Hx Hl. induction Hl as [l ls|l l' ls Hl IH]; cbn [concat]; apply elem_of_app; auto.
Qed.

(** The range [sampleVolume] reduces to is, numerically, the range of the
    sequential reduction over the cells in loop order, whatever the
    schedule. *)
Lemma sampleVolume_range sch1 sch2 extents f r0 buf st r buf' :
  fits_int extents -> (forall c, is_nan (f c) = false) ->
  sampleVolume sch1 sch2 extents f r0 buf = Some (st, r, buf') ->
  range_eq r (accumulate ValueRange (f <$> cells (lattice extents))).
Proof.
  intros H Hf. destruct (lattice_fits _ H) as (L & Hsmall & Hne & _).
  assert (Hi : inhabited_box (lattice extents)).
  { rewrite L. unfold inhabited_box, fits_int in *. simpl. lia. }
  unfold sampleVolume. rewrite Hne.
  destruct (foldM (sample_task f (stride_of extents)) (buf, []) (tasks sch1 (lattice extents)))
    as [[b1 rs1]|] eqn:E1; [|discriminate].
  cbn [mbind option_bind].
  destruct (foldM (remap_chunk (merge_ranges rs1)) b1 _) as [b2|]; [|discriminate].
  cbn [mbind option_bind]. intros [= _ <- _].
  apply first_pass_ranges in E1.
  change (@nil (nat * FloatRange)) with (to_ranges []) in E1.
  rewrite <- to_ranges_pass in E1.
  destruct (samples_pass_spec f (tasks sch1 (lattice extents)) []
              (tasks_inhabited sch1 _ Hsmall Hi) (NoDup_nil_2) (Forall_nil_2 _))
    as (NE & P).
  set (g := fold_left (samples_task f) (tasks sch1 (lattice extents)) []) in *.
  rewrite app_nil_r in P. fold (visited sch1 (lattice extents)) in P.
  assert (Pv : visited sch1 (lattice extents) ≡ₚ cells (lattice extents)).
  { destruct (visited_cells sch1 _ Hsmall) as [Nv Mv].
    apply NoDup_Permutation; [exact Nv | apply NoDup_cells |].
    intros c. now rewrite Mv, elem_of_cells. }
  rewrite Pv in P.
  assert (Hnn : no_nan (f <$> cells (lattice extents))).
  { apply Forall_fmap, Forall_forall. intros c _. apply Hf. }
  assert (Hparts : Forall (fun p => p <> [] /\ no_nan p) g.*2).
  { apply Forall_fmap, Forall_forall. intros [t xs] He. cbn. split.
    - rewrite Forall_forall in NE. apply (NE _ He).
    - apply Forall_forall. intros x Hx. unfold no_nan in Hnn. rewrite <- P in Hnn.
      rewrite Forall_forall in Hnn. apply Hnn. apply (elem_of_concat_2 _ xs); trivial.
      now apply (list_elem_of_fmap_2 snd) in He. }
  subst rs1. unfold merge_ranges. rewrite fold_left_merge_snd.
  replace ((to_ranges g).*2) with (accumulate ValueRange <$> g.*2)
    by (unfold to_ranges; now rewrite <- !list_fmap_compose).
  pose proof (merge_parts_summarises g.*2 ValueRange [] Hparts
                (accumulate_summarises ValueRange [] eq_refl eq_refl ltac:(constructor)))
    as Hm.
  pose proof (accumulate_summarises ValueRange _ eq_refl eq_refl Hnn) as Hs.
  cbn [app] in Hm. cbn [m_min m_max ValueRange] in Hs.
  eapply summarises_unique; [| | | | exact Hm | exact Hs].
  - constructor; [reflexivity|]. unfold no_nan. now rewrite P.
  - constructor; [reflexivity|]. unfold no_nan. now rewrite P.
  - now rewrite P.
  - now rewrite P.
Qed.

(** ** Constant fields *)

Lemma feq_finite a s m e : feq a (S754_finite s m e) -> a = S754_finite s m e.
Proof.
  unfold feq. destruct a as [[]|[]| |[] m' e'], s; simpl; try discriminate;
    destruct (Z.compare_spec e' e); try discriminate; subst;
    change (Pos.compare_cont Eq m' m) with (Pos.compare m' m);
    destruct (Pos.compare_spec m' m); try discriminate; now subst.
Qed.

(** X18. Whatever the schedule and the lattice, a field that is constant
    at a finite value from [numeric_limits<float>::min()] up is remapped to
    NaN in every slot. *)
Lemma constant_field_remaps_to_nan sch1 sch2 extents f r0 buf s m e :
  fits_int extents ->
  cx extents * cy extents * cz extents * 4 <= Z.of_nat (length buf) ->
  (forall c, f c = S754_finite s m e) ->
  fle F32.numeric_limits_min (S754_finite s m e) ->
  fle (S754_finite s m e) F32.numeric_limits_max ->
  exists r buf',
    sampleVolume sch1 sch2 extents f r0 buf = Some (None, r, buf')
    /\ r = mkRange (S754_finite s m e) (S754_finite s m e)
    /\ forall c k, in_box (lattice extents) c -> 0 <= k < 4 ->
         buf' !! Z.to_nat (flat_offset extents c + k) = Some S754_nan.
Proof.
  intros H Hlen Hf Hlo Hhi. set (v := S754_finite s m e) in *.
  destruct (sampleVolume_run sch1 sch2 extents f r0 buf H Hlen) as (r & buf' & R & _ & Hin & _).
  assert (Hnan : forall c, is_nan (f c) = false) by (intros c; now rewrite Hf).
  pose proof (sampleVolume_range _ _ _ _ _ _ _ _ _ H Hnan R) as [E1 E2].
  destruct (lattice_fits _ H) as (L & _).
  assert (Hc : mkCoord 0 0 0 ∈ cells (lattice extents)).
  { apply elem_of_cells. rewrite L. unfold in_box, fits_int in *. simpl. lia. }
  assert (Hall : Forall (fun x => x = v) (f <$> cells (lattice extents))).
  { apply Forall_fmap, Forall_forall. intros c _. apply Hf. }
  assert (Hv : v ∈ f <$> cells (lattice extents)).
  { rewrite <- (Hf (mkCoord 0 0 0)). now apply list_elem_of_fmap_2. }
  assert (Hnn : no_nan (f <$> cells (lattice extents))).
  { eapply Forall_impl; [exact Hall|]. now intros x ->. }
  assert (S : summarises (mkRange v v)
                (F32.numeric_limits_max :: (f <$> cells (lattice extents)))
                (F32.numeric_limits_min :: (f <$> cells (lattice extents)))).
  { split; (split; [reflexivity|split]).
    - constructor; [exact Hhi|]. eapply Forall_impl; [exact Hall|].
      intros x ->. apply fle_refl.
    - constructor 2. apply Exists_exists. exists v. split; [exact Hv | now apply feq_refl].
    - constructor; [exact Hlo|]. eapply Forall_impl; [exact Hall|].
      intros x ->. apply fle_refl.
    - constructor 2. apply Exists_exists. exists v. split; [exact Hv | now apply feq_refl]. }
  pose proof (accumulate_summarises ValueRange _ eq_refl eq_refl Hnn) as A.
  cbn [m_min m_max ValueRange] in A.
  assert (Q : range_eq (accumulate ValueRange (f <$> cells (lattice extents))) (mkRange v v)).
  { eapply summarises_unique; [| | reflexivity | reflexivity | exact A | exact S];
      now constructor. }
  destruct Q as [Q1 Q2]. cbn [m_min m_max] in Q1, Q2.
  pose proof (feq_finite _ _ _ _ (feq_trans _ _ _ E1 Q1)) as M1.
  pose proof (feq_finite _ _ _ _ (feq_trans _ _ _ E2 Q2)) as M2.
  assert (Hr : r = mkRange v v) by (destruct r; simpl in *; now subst).
  exists r, buf'. split; [exact R|]. split; [exact Hr|].
  intros c k Hb Hk. rewrite (Hin c k Hb Hk), Hr, Hf. cbn [getMin getMax m_min m_max].
  unfold unlerp, v. now rewrite sub_self_is_zero.
Qed.

Lemma constant_field_remaps_to_nan_witness :
  exists r buf',
    sampleVolume one_thread two_threads (mkCoord 2 1 1) (fun _ => F32.of_Z 5) unit_range
                 (replicate 8 sentinel) = Some (None, r, buf')
    /\ r = mkRange (F32.of_Z 5) (F32.of_Z 5).
Proof.
  destruct (constant_field_remaps_to_nan one_thread two_threads (mkCoord 2 1 1)
              (fun _ => F32.of_Z 5) unit_range (replicate 8 sentinel) false 10485760 (-21))
    as (r & buf' & R & Hr & _).
  - unfold fits_int. vm_compute. repeat split; discriminate.
  - vm_compute. discriminate.
  - intros c. vm_compute. reflexivity.
  - vm_compute. reflexivity.
  - vm_compute. reflexivity.
  - exists r, buf'. split; [exact R|]. rewrite Hr. vm_compute. reflexivity.
Defined.

(** ** Merging ranges *)

(** Numerically equal and not both zero: equal. *)
Lemma feq_cases a b :
  feq a b -> a = b \/ exists s s', a = S754_zero s /\ b = S754_zero s'.
Proof.
  intros H. destruct b as [sb|sb| |sb mb eb]; [| | |left; now apply feq_finite];
    unfold feq in H; destruct a as [sa|[]| |[] ? ?]; try destruct sb; simpl in H;
    try discriminate; eauto.
Qed.

(** A range that has taken a sample that is no NaN has its ends in
    order, whatever else it has taken. *)
Lemma accumulate_range_ok xs : forall r,
  is_nan (m_min r) = false -> is_nan (m_max r) = false ->
  range_ok r \/ Exists (fun x => is_nan x = false) xs ->
  range_ok (accumulate r xs).
Proof.
  unfold accumulate. induction xs as [|x xs IH]; intros r Hlo Hhi H; simpl.
  - destruct H as [H|H]; [exact H | inversion H].
  - destruct (is_nan x) eqn:Nx.
    + destruct x; try discriminate. rewrite addValue_nan. apply IH; trivial.
      destruct H as [H|H]; [now left|]. right.
      inversion H as [? ? Hx|]; subst; [discriminate | trivial].
    + apply IH; [now apply (sel_not_nan (sel := std_min)) | now apply (sel_not_nan (sel := std_max)) |].
      left. repeat split.
      * now apply (sel_not_nan (sel := std_min)).
      * now apply (sel_not_nan (sel := std_max)).
      * cbn [addValue m_min m_max]. apply fle_trans with x; trivial.
        -- apply std_min_le_r.
        -- apply std_max_ge_r.
Qed.

(** C8. Folding a range [A] whose ends are in order and are no NaN into
    any range [B] by its two ends gives the union range: the minimum is
    the smaller of the minima, the maximum the larger of the maxima up to
    the sign of a zero; this holds of the default-constructed [B] the merge
    loop starts from. The merge is commutative when the ends of [B] are in
    order too, and associative when those of [B] are in order and those of
    the range merged into are no NaN, up to numeric equality of the ends. A
    partition that has seen a sample that is no NaN has such a range;
    merging the ranges of partitions without NaN that have each seen a
    sample, in any order of the samples, gives the range of the sequential
    reduction, and so does the merge loop of [sampleVolume] under every
    schedule. *)
Theorem merge_union_assoc_comm (A B C : FloatRange) :
  range_ok A ->
  m_min (merge B A) = std_min (m_min B) (m_min A)
  /\ same_number (m_max (merge B A)) (std_max (m_max B) (m_max A))
  /\ (is_nan (m_min B) = false -> is_nan (m_max B) = false ->
      range_eq (merge B A)
               (mkRange (std_min (m_min B) (m_min A)) (std_max (m_max B) (m_max A))))
  /\ (range_ok B -> range_eq (merge B A) (merge A B))
  /\ (range_ok B -> is_nan (m_min C) = false -> is_nan (m_max C) = false ->
      range_eq (merge (merge C B) A) (merge C (merge B A)))
  /\ (forall samples : list float,
       Exists (fun x => is_nan x = false) samples ->
       range_ok (accumulate ValueRange samples))
  /\ (forall (parts : list (list float)) (threads : list nat) (samples : list float),
       Forall (fun p => p <> [] /\ no_nan p) parts ->
       length threads = length parts ->
       samples ≡ₚ concat parts ->
       range_eq (merge_ranges (zip threads (accumulate ValueRange <$> parts)))
                (accumulate ValueRange samples))
  /\ (forall sch1 sch2 extents f r0 buf st r buf',
        fits_int extents -> (forall c, is_nan (f c) = false) ->
        sampleVolume sch1 sch2 extents f r0 buf = Some (st, r, buf') ->
        range_eq r (accumulate ValueRange (f <$> cells (lattice extents)))).
Proof.
  intros HA.
  pose proof (range_ok_mergeable _ HA) as MA.
  destruct HA as (HA1 & HA2 & HA3).
  assert (N : forall a b : float, is_nan a = false -> is_nan b = false -> no_nan [a; b])
    by (intros; now repeat constructor).
  assert (N1 : forall a : float, is_nan a = false -> no_nan [a])
    by (intros; now repeat constructor).
  assert (S1 : forall X : FloatRange, is_nan (m_min X) = false -> is_nan (m_max X) = false ->
                 summarises X [m_min X] [m_max X]).
  { intros X H1 H2. repeat split; trivial; constructor;
      try apply fle_refl; try constructor; now apply feq_refl. }
  assert (U : forall X : FloatRange, is_nan (m_min X) = false -> is_nan (m_max X) = false ->
                range_eq (merge X A)
                  (mkRange (std_min (m_min X) (m_min A)) (std_max (m_max X) (m_max A)))).
  { intros X H1 H2.
    pose proof (merge_mergeable X A _ _ _ _ (N1 _ HA1) (N1 _ HA2) (S1 X H1 H2) MA) as MXA.
    simpl in MXA. split.
    - eapply (extremum_unique (le := fle)); [apply (N _ _ H1 HA1) | apply MXA |].
      apply (fold_sel_extremum (sel := std_min) [m_min A] (m_min X)); auto.
    - eapply (extremum_unique (le := fge)); [apply (N _ _ H2 HA2) | apply MXA |].
      apply (fold_sel_extremum (sel := std_max) [m_max A] (m_max X)); auto. }
  refine (conj _ (conj _ (conj (U B) (conj _ (conj _ (conj _ (conj _ _))))))).
  - rewrite merge_ends. cbn [m_min fold_left].
    destruct (is_nan (m_min B)) eqn:NB.
    + destruct (m_min B); try discriminate.
      assert (K : forall a, std_min S754_nan a = S754_nan)
        by (intros [[]|[]| |[] ? ?]; reflexivity).
      now rewrite !K.
    + apply std_min_absorb.
      apply fle_trans with (m_min A); trivial. apply std_min_le_r.
  - destruct (is_nan (m_max B)) eqn:NB.
    + rewrite merge_ends. cbn [m_max fold_left].
      destruct (m_max B); try discriminate.
      assert (K : forall a, std_max S754_nan a = S754_nan)
        by (intros [[]|[]| |[] ? ?]; reflexivity).
      left. now rewrite !K.
    + destruct (is_nan (m_min B)) eqn:NB'.
      * (* the maximum does not depend on the minimum *)
        pose proof (U (mkRange (m_max B) (m_max B)) NB NB) as [_ E].
        cbn [m_max] in E. rewrite merge_ends in E |- *. cbn [m_max fold_left] in E |- *.
        now apply feq_cases.
      * destruct (U B NB' NB) as [_ E]. cbn [m_max] in E. now apply feq_cases.
  - intros HB. pose proof (range_ok_mergeable _ HB) as MB.
    destruct HB as (HB1 & HB2 & HB3).
    pose proof (merge_mergeable B A _ _ _ _ (N1 _ HA1) (N1 _ HA2) (proj1 MB) MA) as MBA.
    pose proof (merge_mergeable A B _ _ _ _ (N1 _ HB1) (N1 _ HB2) (proj1 MA) MB) as MAB.
    simpl in MBA, MAB. split.
    + eapply (extremum_unique (le := fle)); [apply (N _ _ HB1 HA1) | apply MBA |].
      eapply extremum_perm; [apply perm_swap | apply MAB].
    + eapply (extremum_unique (le := fge)); [apply (N _ _ HB2 HA2) | apply MBA |].
      eapply extremum_perm; [apply perm_swap | apply MAB].
  - intros HB HC1 HC2. pose proof (range_ok_mergeable _ HB) as MB.
    destruct HB as (HB1 & HB2 & HB3).
    pose proof (S1 C HC1 HC2) as SC.
    pose proof (merge_mergeable B A _ _ _ _ (N1 _ HA1) (N1 _ HA2) (proj1 MB) MA) as MBA.
    pose proof (merge_mergeable C B _ _ _ _ (N1 _ HB1) (N1 _ HB2) SC MB) as MCB.
    pose proof (merge_mergeable (merge C B) A _ _ _ _ (N1 _ HA1) (N1 _ HA2) (proj1 MCB) MA)
      as L.
    pose proof (merge_mergeable C (merge B A) _ _ _ _ (N _ _ HB1 HA1) (N _ _ HB2 HA2)
                  SC MBA) as R.
    simpl in L, R. split.
    + eapply (extremum_unique (le := fle)); [| apply L | apply R].
      now repeat constructor.
    + eapply (extremum_unique (le := fge)); [| apply L | apply R].
      now repeat constructor.
  - intros samples Hs. apply accumulate_range_ok; [reflexivity | reflexivity | now right].
  - intros parts threads samples Hparts Hlen Hperm.
    unfold merge_ranges. rewrite fold_left_merge_snd.
    rewrite snd_zip by (rewrite length_fmap; lia).
    assert (Hnn : no_nan (concat parts)).
    { clear -Hparts. induction Hparts as [|p ps [_ Hp] _ IH]; simpl; [constructor|].
      now apply Forall_app. }
    assert (Hns : no_nan samples) by (unfold no_nan; now rewrite Hperm).
    pose proof (merge_parts_summarises parts ValueRange [] Hparts
                  (accumulate_summarises ValueRange [] eq_refl eq_refl ltac:(constructor)))
      as Hm.
    pose proof (accumulate_summarises ValueRange samples eq_refl eq_refl Hns) as Hs.
    simpl in Hm, Hs.
    eapply summarises_unique; [| | | | exact Hm | exact Hs].
    + now constructor.
    + now constructor.
    + now rewrite Hperm.
    + now rewrite Hperm.
  - intros sch1 sch2 extents f r0 buf st r buf'. apply sampleVolume_range.
Qed.

Lemma merge_union_assoc_comm_witness :
  range_eq (merge ValueRange (mkRange (F32.of_Z 1) (F32.of_Z 2)))
           (mkRange (std_min (m_min ValueRange) (F32.of_Z 1))
                    (std_max (m_max ValueRange) (F32.of_Z 2)))
  /\ range_eq (merge (mkRange (F32.of_Z 0) (F32.of_Z 3)) (mkRange (F32.of_Z 1) (F32.of_Z 2)))
              (merge (mkRange (F32.of_Z 1) (F32.of_Z 2)) (mkRange (F32.of_Z 0) (F32.of_Z 3))).
Proof.
  split.
  - apply (merge_union_assoc_comm (mkRange (F32.of_Z 1) (F32.of_Z 2)) ValueRange ValueRange);
      [repeat split; vm_compute; reflexivity | reflexivity | reflexivity].
  - apply (merge_union_assoc_comm (mkRange (F32.of_Z 1) (F32.of_Z 2))
             (mkRange (F32.of_Z 0) (F32.of_Z 3)) ValueRange);
      repeat split; vm_compute; reflexivity.
Defined.

(** ** ValueRange, further *)

Lemma ltb_irrefl a : F32.ltb a a = false.
Proof. apply fle_refl. Qed.

(** X1. On a range whose ends are in order, [addValue] of a value that
    is no NaN keeps the ends in order, brackets the value, only ever lowers
    the minimum and raises the maximum, and adding the same value again
    changes nothing. *)
Theorem addValue_widens (r : FloatRange) (v : float) :
  range_ok r -> is_nan v = false ->
  range_ok (addValue r v)
  /\ fle (getMin (addValue r v)) v /\ fle v (getMax (addValue r v))
  /\ fle (getMin (addValue r v)) (getMin r) /\ fle (getMax r) (getMax (addValue r v))
  /\ addValue (addValue r v) v = addValue r v.
Proof.
  intros (Hlo & Hhi & Hle) Hv. destruct r as [lo hi]. cbn [m_min m_max] in *.
  unfold addValue, getMin, getMax. cbn [m_min m_max].
  pose proof (std_min_le_l lo v) as L1. pose proof (std_min_le_r lo v) as L2.
  pose proof (std_max_ge_l hi v) as U1. pose proof (std_max_ge_r hi v) as U2.
  split_and!; trivial.
  - split_and!; cbn [m_min m_max].
    + now apply (sel_not_nan (sel := std_min)).
    + now apply (sel_not_nan (sel := std_max)).
    + apply fle_trans with lo; trivial. apply fle_trans with hi; trivial.
  - f_equal.
    + unfold std_min. destruct (F32.ltb v lo) eqn:E; [now rewrite ltb_irrefl | now rewrite E].
    + unfold std_max. destruct (F32.ltb hi v) eqn:E; [now rewrite ltb_irrefl | now rewrite E].
Qed.

Lemma addValue_widens_witness :
  fle (getMin (addValue (mkRange (F32.of_Z 1) (F32.of_Z 2)) (F32.of_Z 5))) (F32.of_Z 5).
Proof.
  apply (addValue_widens (mkRange (F32.of_Z 1) (F32.of_Z 2)) (F32.of_Z 5));
    repeat split; vm_compute; reflexivity.
Defined.

Lemma ltb_nan_r a : F32.ltb a S754_nan = false.
Proof. now destruct a. Qed.

Lemma ltb_nan_l a : F32.ltb S754_nan a = false.
Proof. reflexivity. Qed.

(** X2. [addValue] drops a NaN sample: a range comes out the same with the
    NaN samples left out. An end that is itself a NaN stays one whatever is
    added. *)
Theorem accumulate_skips_nan (r : FloatRange) (xs : list float) (hi lo : float) :
  accumulate r xs = accumulate r (filter (fun x => is_nan x = false) xs)
  /\ getMin (accumulate (mkRange S754_nan hi) xs) = S754_nan
  /\ getMax (accumulate (mkRange lo S754_nan) xs) = S754_nan.
Proof.
  split_and!.
  - revert r. induction xs as [|x xs IH]; intros r; [reflexivity|].
    destruct x; rewrite ?filter_cons_True by reflexivity; cbn [accumulate fold_left];
      try apply IH.
    rewrite filter_cons_False by discriminate. rewrite addValue_nan. apply IH.
  - revert hi. induction xs as [|x xs IH]; intros hi; [reflexivity|].
    cbn [accumulate fold_left]. unfold addValue at 2. cbn [m_min m_max].
    unfold std_min at 1. rewrite ltb_nan_r. apply IH.
  - revert lo. induction xs as [|x xs IH]; intros lo; [reflexivity|].
    cbn [accumulate fold_left]. unfold addValue at 2. cbn [m_min m_max].
    unfold std_max at 1. rewrite ltb_nan_l. apply IH.
Qed.

(** X3. Where the default-constructed range is exact and where it is not.
    After samples without NaN, its minimum is the least sample as soon as
    one sample is at most [numeric_limits<float>::max()], and its maximum
    is the greatest sample as soon as one is at least
    [numeric_limits<float>::min()]; when every sample is below that value
    the maximum stays there, and when every sample is above the largest
    finite value the minimum stays there. *)
Theorem accumulate_default_exact (xs : list float) :
  no_nan xs ->
  (Exists (fun x => fle x F32.numeric_limits_max) xs ->
   extremum fle (getMin (accumulate ValueRange xs)) xs)
  /\ (Exists (fun x => fle F32.numeric_limits_min x) xs ->
      extremum fge (getMax (accumulate ValueRange xs)) xs)
  /\ (Forall (fun x => F32.ltb x F32.numeric_limits_min = true) xs ->
      getMax (accumulate ValueRange xs) = F32.numeric_limits_min)
  /\ (Forall (fun x => F32.ltb F32.numeric_limits_max x = true) xs ->
      getMin (accumulate ValueRange xs) = F32.numeric_limits_max).
Proof.
  intros Hn. pose proof (accumulate_summarises ValueRange xs eq_refl eq_refl Hn) as [S1 S2].
  cbn [ValueRange m_min m_max] in S1, S2.
  split_and!.
  - intros He. apply (extremum_drop (le := fle) _ F32.numeric_limits_max); trivial.
    unfold no_nan in Hn. rewrite Forall_forall in Hn. rewrite Exists_exists in *.
    destruct He as (x & Hx & Hle). exists x. split; [trivial|]. split; [|trivial].
    now apply Hn.
  - intros He. apply (extremum_drop (le := fge) _ F32.numeric_limits_min); trivial.
    unfold no_nan in Hn. rewrite Forall_forall in Hn. rewrite Exists_exists in *.
    destruct He as (x & Hx & Hle). exists x. split; [trivial|]. split; [|trivial].
    now apply Hn.
  - intros Ha. rewrite accumulate_ends. cbn [getMax m_max ValueRange]. clear -Ha.
    induction Ha as [|x xs Hx _ IH]; [reflexivity|].
    cbn [fold_left]. unfold std_max at 2. now rewrite (ltb_asym _ _ Hx).
  - intros Ha. rewrite accumulate_ends. cbn [getMin m_min ValueRange]. clear -Ha.
    induction Ha as [|x xs Hx _ IH]; [reflexivity|].
    cbn [fold_left]. unfold std_min at 2. now rewrite (ltb_asym _ _ Hx).
Qed.

Lemma accumulate_default_exact_witness :
  getMax (accumulate ValueRange [F32.of_Z (-3); F32.of_Z (-1)]) = F32.numeric_limits_min.
Proof.
  apply (accumulate_default_exact [F32.of_Z (-3); F32.of_Z (-1)]).
  - repeat constructor.
  - repeat constructor.
Defined.

(** ** [unlerp] at the ends of the range *)

(** A finite non-zero float divided by itself is 1, without rounding. *)
Lemma div_self_is_one s m e :
  F32.div (S754_finite s m e) (S754_finite s m e) = F32.of_Z 1.
Proof.
  unfold F32.div, SFdiv, SFdiv_core_binary. cbn [Zdigits2].
  replace (Z.pos (digits2_pos m) + e - (Z.pos (digits2_pos m) + e)) with 0 by lia.
  replace (e - e) with 0 by lia.
  change (0 - Z.min (fexp F32.prec F32.emax 0) 0) with 24.
  change (Z.min (fexp F32.prec F32.emax 0) 0) with (-24).
  cbv beta iota zeta.
  assert (Q : Z.shiftl (Z.pos m) 24 / Z.pos m = 2 ^ 24).
  { rewrite Z.shiftl_mul_pow2, Z.mul_comm by lia. now apply Z.div_mul. }
  assert (R : Z.shiftl (Z.pos m) 24 mod Z.pos m = 0).
  { rewrite Z.shiftl_mul_pow2, Z.mul_comm by lia. now apply Z.mod_mul. }
  unfold Z.div in Q. unfold Z.modulo in R.
  destruct (Z.div_eucl (Z.shiftl (Z.pos m) 24) (Z.pos m)) as [q r].
  cbn [fst snd] in Q, R. subst q r.
  assert (L : new_location (Z.pos m) 0 = loc_Exact).
  { unfold new_location. now destruct (Z.even (Z.pos m)). }
  rewrite L, xorb_nilpotent. reflexivity.
Qed.

(** X4. When [b - a] is a finite non-zero float, [unlerp] sends [b] to
    exactly 1 and [a] to a zero, which has the sign of [b - a]. *)
Theorem unlerp_endpoints (a b : float) (s : bool) (m : positive) (e : Z) :
  F32.sub b a = S754_finite s m e ->
  unlerp a b b = F32.of_Z 1 /\ unlerp a b a = S754_zero s.
Proof.
  intros H. unfold unlerp. rewrite H. split; [apply div_self_is_one|].
  destruct a as [sa|sa| |sa ma ea].
  - now destruct sa.
  - destruct b as [[]|[]| |]; destruct sa; discriminate.
  - destruct b; discriminate.
  - now rewrite sub_self_is_zero.
Qed.

Lemma unlerp_endpoints_witness :
  unlerp (F32.of_Z (-3)) (F32.of_Z 5) (F32.of_Z 5) = F32.of_Z 1.
Proof.
  apply (unlerp_endpoints (F32.of_Z (-3)) (F32.of_Z 5) false (2 ^ 23) (-20)).
  vm_compute. reflexivity.
Defined.

(** X5. When [b - a] is no finite non-zero float, [unlerp] has no finite
    non-zero value: a zero width gives a NaN or an infinity for every [x],
    an infinite width a NaN or a zero, a NaN width a NaN. *)
Theorem unlerp_degenerate_width (a b x : float) (s : bool) :
  (F32.sub b a = S754_zero s ->
   unlerp a b x = S754_nan \/ exists sg, unlerp a b x = S754_infinity sg)
  /\ (F32.sub b a = S754_infinity s ->
      unlerp a b x = S754_nan \/ exists sg, unlerp a b x = S754_zero sg)
  /\ (F32.sub b a = S754_nan -> unlerp a b x = S754_nan).
Proof.
  unfold unlerp. split_and!; intros ->; destruct (F32.sub x a); simpl; eauto.
Qed.

(** ** Stored bounds *)

(** X6. Bounds stored under the two keys, with no sentinel on an axis,
    are what the resolver returns, whatever else the metadata holds; with
    either key removed, or holding an entry of another type, it returns the
    default box. *)
Theorem stored_bounds_round_trip (meta : gmap string Metadata)
    (transform : CoordBBox -> BBoxd) (sampler : Vec3d -> float) (lo hi : Vec3i)
    (typeName : string) :
  (cx lo <> Int32.max /\ cy lo <> Int32.max /\ cz lo <> Int32.max ->
   cx hi <> Int32.min /\ cy hi <> Int32.min /\ cz hi <> Int32.min ->
   getIndexSpaceBoundingBox
     (mkGrid (<["file_bbox_min" := MetaVec3i lo]> (<["file_bbox_max" := MetaVec3i hi]> meta))
             transform sampler)
   = mkBBox lo hi)
  /\ getIndexSpaceBoundingBox (mkGrid (delete "file_bbox_min" meta) transform sampler)
     = CoordBBox_default
  /\ getIndexSpaceBoundingBox (mkGrid (delete "file_bbox_max" meta) transform sampler)
     = CoordBBox_default
  /\ getIndexSpaceBoundingBox
       (mkGrid (<["file_bbox_min" := MetaOther typeName]> meta) transform sampler)
     = CoordBBox_default
  /\ getIndexSpaceBoundingBox
       (mkGrid (<["file_bbox_max" := MetaOther typeName]> meta) transform sampler)
     = CoordBBox_default.
Proof.
  unfold getIndexSpaceBoundingBox, stored_bbox, metaValue. cbn [metaMap].
  split_and!.
  - intros (X1 & X2 & X3) (Y1 & Y2 & Y3).
    rewrite lookup_insert_eq. cbn [bind try_catch].
    rewrite lookup_insert_ne by discriminate. rewrite lookup_insert_eq. cbn [bind try_catch].
    apply Z.eqb_neq in X1, X2, X3, Y1, Y2, Y3. now rewrite X1, X2, X3, Y1, Y2, Y3.
  - now rewrite lookup_delete_eq.
  - rewrite lookup_delete_eq.
    destruct (delete "file_bbox_max" meta !! "file_bbox_min") as [[v|?]|]; cbn [bind try_catch];
      try reflexivity.
    now destruct (_ || _).
  - now rewrite lookup_insert_eq.
  - rewrite lookup_insert_eq.
    destruct (<["file_bbox_max" := MetaOther typeName]> meta !! "file_bbox_min") as [[v|?]|];
      cbn [bind try_catch]; try reflexivity.
    now destruct (_ || _).
Qed.

(** ** What a run of [sampleVolume] leaves behind *)

Lemma store_length buf i v buf' : store buf i v = Some buf' -> length buf' = length buf.
Proof.
  unfold store. destruct (_ && _); [|discriminate]. intros [= <-]. apply length_insert.
Qed.

Lemma stores_length stores : forall buf buf',
  foldM store_step buf stores = Some buf' -> length buf' = length buf.
Proof.
  induction stores as [|[i v] ss IH]; intros buf buf'; cbn [foldM].
  - now intros [= <-].
  - unfold store_step at 1. cbn [fst snd].
    destruct (store buf i v) as [b|] eqn:E; [|discriminate].
    intros H. rewrite (IH _ _ H). eapply store_length, E.
Qed.

Lemma rewrites_length r l : forall buf buf',
  foldM (remap_step r) buf l = Some buf' -> length buf' = length buf.
Proof.
  induction l as [|i l IH]; intros buf buf'; cbn [foldM].
  - now intros [= <-].
  - unfold remap_step at 1. destruct (load buf i) as [x|]; [|discriminate].
    cbn [mbind option_bind].
    destruct (store buf i _) as [b|] eqn:E; [|discriminate].
    intros H. rewrite (IH _ _ H). eapply store_length, E.
Qed.

(** A run of stores with a slot past the end of the buffer faults. *)
Lemma stores_fault_oob stores : forall buf,
  Exists (fun s => Z.of_nat (length buf) <= fst s) stores -> foldM store_step buf stores = None.
Proof.
  induction stores as [|[i v] ss IH]; intros buf H; [inversion H|].
  cbn [foldM]. unfold store_step at 1. cbn [fst snd].
  destruct (store buf i v) as [buf1|] eqn:E; [|reflexivity].
  apply IH. rewrite (store_length _ _ _ _ E).
  inversion H as [? ? Hi|]; subst; trivial.
  cbn [fst] in Hi. unfold store in E.
  destruct (i <? Z.of_nat (length buf)) eqn:E2; [apply Z.ltb_lt in E2; lia|].
  now rewrite andb_false_r in E.
Qed.

(** The parts of a run on a lattice with a cell. *)
Lemma sampleVolume_inv sch1 sch2 extents f r0 buf st r buf' :
  CoordBBox_empty (lattice extents) = false ->
  sampleVolume sch1 sch2 extents f r0 buf = Some (st, r, buf') ->
  exists b1,
    foldM store_step buf (visited sch1 (lattice extents) ≫= cell_stores f (stride_of extents))
    = Some b1
    /\ st = None
    /\ r = merge_ranges (fold_left (ranges_task f) (tasks sch1 (lattice extents)) [])
    /\ foldM (remap_step r) b1 (second_pass_slots sch2 extents) = Some buf'.
Proof.
  intros Hne. unfold sampleVolume. rewrite Hne.
  destruct (foldM (sample_task f (stride_of extents)) (buf, []) (tasks sch1 (lattice extents)))
    as [[b1 rs1]|] eqn:E1; [|discriminate].
  cbn [mbind option_bind].
  destruct (foldM (remap_chunk (merge_ranges rs1)) b1 _) as [b2|] eqn:E2; [|discriminate].
  cbn [mbind option_bind]. intros [= <- <- <-].
  exists b1. split_and!; trivial.
  - unfold visited. rewrite <- (first_pass_stores f (stride_of extents) _ buf []), E1.
    reflexivity.
  - now rewrite (first_pass_ranges _ _ _ _ _ _ _ E1).
  - rewrite second_pass_rewrites in E2. exact E2.
Qed.

(** A run that ends has had room for every slot. *)
Lemma sampleVolume_some_fits sch1 sch2 extents f r0 buf :
  fits_int extents ->
  is_Some (sampleVolume sch1 sch2 extents f r0 buf) ->
  cx extents * cy extents * cz extents * 4 <= Z.of_nat (length buf).
Proof.
  intros H [[[st r] buf'] R].
  destruct (lattice_fits _ H) as (_ & _ & Hne & _).
  destruct (sampleVolume_inv _ _ _ _ _ _ _ _ _ Hne R) as (b1 & S1 & _).
  destruct (Z.le_gt_cases (cx extents * cy extents * cz extents * 4) (Z.of_nat (length buf)))
    as [|Hlt]; [trivial|exfalso].
  rewrite stores_fault_oob in S1; [discriminate|].
  pose proof (first_pass_slots_perm sch1 extents H) as P.
  assert (Hin : Z.of_nat (length buf) ∈ first_pass_slots sch1 extents).
  { rewrite P. apply elem_of_seqZ. lia. }
  unfold first_pass_slots in Hin. rewrite <- (cell_stores_slots f) in Hin.
  apply list_elem_of_fmap in Hin. destruct Hin as ([i v] & Hi & Hm). cbn [fst] in Hi.
  apply Exists_exists. exists (i, v). split; [exact Hm|]. cbn [fst]. lia.
Qed.

(** X7. When the slot count fits an [int], [sampleVolume] runs to its end
    exactly when the buffer has at least [width*height*depth*4] slots; on a
    shorter one it stores outside of it, whatever the schedule. *)
Theorem sampleVolume_needs_whole_buffer (sch1 sch2 : schedule) (extents : Coord)
    (f : Vec3i -> float) (r0 : FloatRange) (buf : list float) :
  fits_int extents ->
  (is_Some (sampleVolume sch1 sch2 extents f r0 buf)
   <-> cx extents * cy extents * cz extents * 4 <= Z.of_nat (length buf)).
Proof.
  intros H. split.
  - now apply sampleVolume_some_fits.
  - intros Hlen. destruct (sampleVolume_run sch1 sch2 extents f r0 buf H Hlen) as (r & b & R & _).
    rewrite R. eauto.
Qed.

Lemma sampleVolume_needs_whole_buffer_witness :
  sampleVolume one_thread two_threads (mkCoord 2 1 1) (fun _ => F32.of_Z 5) ValueRange
               (replicate 7 sentinel) = None.
Proof.
  destruct (sampleVolume one_thread two_threads (mkCoord 2 1 1) (fun _ => F32.of_Z 5)
              ValueRange (replicate 7 sentinel)) as [x|] eqn:E; [exfalso|reflexivity].
  assert (S : is_Some (sampleVolume one_thread two_threads (mkCoord 2 1 1)
                         (fun _ => F32.of_Z 5) ValueRange (replicate 7 sentinel)))
    by (rewrite E; eauto).
  apply (sampleVolume_needs_whole_buffer one_thread two_threads (mkCoord 2 1 1)) in S.
  - vm_compute in S. now apply S.
  - unfold fits_int. vm_compute. repeat split; discriminate.
Defined.

Lemma sampleVolume_keeps_length sch1 sch2 extents f r0 buf st r buf' :
  sampleVolume sch1 sch2 extents f r0 buf = Some (st, r, buf') -> length buf' = length buf.
Proof.
  intros R. destruct (CoordBBox_empty (lattice extents)) eqn:Hne.
  - unfold sampleVolume in R. rewrite Hne in R. now injection R as _ _ <-.
  - destruct (sampleVolume_inv _ _ _ _ _ _ _ _ _ Hne R) as (b1 & S1 & _ & _ & S2).
    rewrite (rewrites_length _ _ _ _ S2). eapply stores_length, S1.
Qed.

(** X8. A run of [sampleVolume] that ends leaves the buffer at its
    length and, when the slot count fits an [int], leaves every slot from
    [width*height*depth*4] on as it was. *)
Theorem sampleVolume_keeps_length_and_tail (sch1 sch2 : schedule) (extents : Coord)
    (f : Vec3i -> float) (r0 : FloatRange) (buf : list float) (st : status)
    (r : FloatRange) (buf' : list float) :
  sampleVolume sch1 sch2 extents f r0 buf = Some (st, r, buf') ->
  length buf' = length buf
  /\ (fits_int extents ->
      forall j, cx extents * cy extents * cz extents * 4 <= Z.of_nat j -> buf' !! j = buf !! j).
Proof.
  intros R. split; [eapply sampleVolume_keeps_length, R|].
  intros H j Hj.
  assert (Hlen : cx extents * cy extents * cz extents * 4 <= Z.of_nat (length buf)).
  { apply (sampleVolume_some_fits sch1 sch2 extents f r0); [trivial|]. rewrite R. eauto. }
  destruct (sampleVolume_run sch1 sch2 extents f r0 buf H Hlen) as (r1 & b & R1 & _ & _ & T).
  rewrite R in R1. injection R1 as _ _ <-. now apply T.
Qed.

Lemma sampleVolume_keeps_length_and_tail_witness :
  (fun x => length (snd x)) <$> sampleVolume one_thread two_threads (mkCoord 2 1 1)
     (fun _ => F32.of_Z 5) ValueRange (replicate 9 sentinel) = Some 9%nat.
Proof.
  destruct (sampleVolume one_thread two_threads (mkCoord 2 1 1) (fun _ => F32.of_Z 5)
              ValueRange (replicate 9 sentinel)) as [[[st r] b]|] eqn:R.
  - destruct (sampleVolume_keeps_length_and_tail _ _ _ _ _ _ _ _ _ R) as [L _].
    cbn [fmap option_fmap option_map snd]. now rewrite L.
  - apply (f_equal (fun r => match r with Some _ => true | None => false end)) in R.
    vm_compute in R. discriminate.
Defined.

(** X9. What the two samplers hand back as their [bool]: [false] on an
    empty domain, and nothing otherwise, since control then leaves the
    function without a [return]; neither ever returns [true]. For
    [sampleGrid] the domain is the resolved box alone: the [false] of
    [sampleVolume] on an empty lattice is dropped. *)
Theorem sampling_status (sch1 sch2 : schedule) (grid : FloatGrid) (extents : Coord)
    (f : Vec3i -> float) (r0 : FloatRange) (buf : list float) :
  (forall st r buf', sampleVolume sch1 sch2 extents f r0 buf = Some (st, r, buf') ->
     st = if CoordBBox_empty (lattice extents) then Some false else None)
  /\ (forall st r sc buf', sampleGrid sch1 sch2 grid extents r0 buf = Some (st, r, sc, buf') ->
     st = if CoordBBox_empty (getIndexSpaceBoundingBox grid) then Some false else None)
  /\ (forall r buf', sampleVolume sch1 sch2 extents f r0 buf <> Some (Some true, r, buf'))
  /\ (forall r sc buf', sampleGrid sch1 sch2 grid extents r0 buf <> Some (Some true, r, sc, buf')).
Proof.
  assert (V : forall st r buf', sampleVolume sch1 sch2 extents f r0 buf = Some (st, r, buf') ->
     st = if CoordBBox_empty (lattice extents) then Some false else None).
  { intros st r buf' R. destruct (CoordBBox_empty (lattice extents)) eqn:Hne.
    - unfold sampleVolume in R. rewrite Hne in R. congruence.
    - now destruct (sampleVolume_inv _ _ _ _ _ _ _ _ _ Hne R) as (b1 & S1 & -> & S2). }
  assert (G : forall st r sc buf', sampleGrid sch1 sch2 grid extents r0 buf = Some (st, r, sc, buf') ->
     st = if CoordBBox_empty (getIndexSpaceBoundingBox grid) then Some false else None).
  { intros st r sc buf'. unfold sampleGrid. cbv zeta.
    destruct (CoordBBox_empty (getIndexSpaceBoundingBox grid)).
    - now intros [= <- _ _ _].
    - destruct (sampleVolume _ _ _ (sampling_func _ _ _) _ _) as [[[st1 r1] b1]|]; cbn [mbind option_bind];
        [|discriminate].
      now intros [= <- _ _ _]. }
  split_and!; trivial.
  - intros r buf' R. apply V in R. now destruct (CoordBBox_empty (lattice extents)).
  - intros r sc buf' R. apply G in R.
    now destruct (CoordBBox_empty (getIndexSpaceBoundingBox grid)).
Qed.

(** X10. The four slots of a cell whose sample is a NaN hold a NaN after
    the run, whatever the range. *)
Theorem nan_sample_stays_nan (sch1 sch2 : schedule) (extents : Coord)
    (f : Vec3i -> float) (r0 : FloatRange) (buf : list float) (st : status)
    (r : FloatRange) (buf' : list float) (c : Vec3i) (k : Z) :
  fits_int extents ->
  sampleVolume sch1 sch2 extents f r0 buf = Some (st, r, buf') ->
  in_box (lattice extents) c -> 0 <= k < 4 ->
  f c = S754_nan ->
  buf' !! Z.to_nat (flat_offset extents c + k) = Some S754_nan.
Proof.
  intros H R Hc Hk Hf.
  assert (Hlen : cx extents * cy extents * cz extents * 4 <= Z.of_nat (length buf)).
  { apply (sampleVolume_some_fits sch1 sch2 extents f r0); [trivial|]. rewrite R. eauto. }
  destruct (sampleVolume_run sch1 sch2 extents f r0 buf H Hlen) as (r1 & b & R1 & _ & S & _).
  rewrite R in R1. injection R1 as _ <- <-. rewrite (S c k Hc Hk), Hf. reflexivity.
Qed.

Lemma nan_sample_stays_nan_witness :
  (fun x => snd x !! 0%nat)
    <$> sampleVolume one_thread two_threads (mkCoord 2 1 1)
          (fun c => if cx c =? 0 then S754_nan else F32.of_Z 5) ValueRange
          (replicate 8 sentinel)
  = Some (Some S754_nan).
Proof.
  destruct (sampleVolume one_thread two_threads (mkCoord 2 1 1)
              (fun c => if cx c =? 0 then S754_nan else F32.of_Z 5) ValueRange
              (replicate 8 sentinel)) as [[[st r] b]|] eqn:R.
  - cbn [fmap option_fmap option_map snd]. f_equal.
    apply (nan_sample_stays_nan _ _ _ _ _ _ _ _ _ (mkCoord 0 0 0) 0) in R;
      [exact R | | | | reflexivity].
    + unfold fits_int. vm_compute. repeat split; discriminate.
    + vm_compute. repeat split; discriminate.
    + lia.
  - apply (f_equal (fun r => match r with Some _ => true | None => false end)) in R.
    vm_compute in R. discriminate.
Defined.

(** X11. For extents above [INT_MIN], [sampleVolume] returns [false]
    with the range and the buffer it was given exactly when an extent is
    zero or negative. *)
Theorem sampleVolume_false_iff_nonpositive_extent (sch1 sch2 : schedule) (extents : Coord)
    (f : Vec3i -> float) (r0 : FloatRange) (buf : list float) :
  Int32.min < cx extents <= Int32.max ->
  Int32.min < cy extents <= Int32.max ->
  Int32.min < cz extents <= Int32.max ->
  (sampleVolume sch1 sch2 extents f r0 buf = Some (Some false, r0, buf)
   <-> cx extents <= 0 \/ cy extents <= 0 \/ cz extents <= 0).
Proof.
  intros Hx Hy Hz.
  assert (E : CoordBBox_empty (lattice extents) = true
              <-> cx extents <= 0 \/ cy extents <= 0 \/ cz extents <= 0).
  { unfold CoordBBox_empty, lattice, Coord_sub, Int32.sub. cbn [bmin bmax cx cy cz].
    unfold Int32.min, Int32.max in *.
    rewrite !wrap32_id by (unfold Int32.min, Int32.max; lia).
    rewrite !orb_true_iff, !Z.ltb_lt. lia. }
  split.
  - intros R. apply E. destruct (CoordBBox_empty (lattice extents)) eqn:Hne; [reflexivity|].
    now destruct (sampleVolume_inv _ _ _ _ _ _ _ _ _ Hne R) as (b1 & S1 & ? & S2).
  - intros H. apply E in H. unfold sampleVolume. now rewrite H.
Qed.

Lemma sampleVolume_false_iff_nonpositive_extent_witness :
  sampleVolume one_thread one_thread (mkCoord 2 0 1) (fun _ => F32.of_Z 5) unit_range
               (replicate 8 sentinel)
  = Some (Some false, unit_range, replicate 8 sentinel).
Proof.
  apply (sampleVolume_false_iff_nonpositive_extent one_thread one_thread (mkCoord 2 0 1));
    cbn [cx cy cz]; unfold Int32.min, Int32.max; lia.
Defined.

(** ** The reduced range as a bound of the samples *)

Lemma samples_of_lattice (f : Vec3i -> float) (extents : Coord) (x : float) :
  x ∈ f <$> cells (lattice extents) <-> exists c, in_box (lattice extents) c /\ x = f c.
Proof.
  rewrite list_elem_of_fmap. split; intros (c & H1 & H2).
  - exists c. split; [now apply elem_of_cells|trivial].
  - exists c. split; [trivial|now apply elem_of_cells].
Qed.

(** The reported maximum is never below the initial one. *)
Lemma reported_max_above_initial sch1 sch2 extents f r0 buf st r buf' :
  fits_int extents -> (forall c, is_nan (f c) = false) ->
  sampleVolume sch1 sch2 extents f r0 buf = Some (st, r, buf') ->
  fle F32.numeric_limits_min (getMax r).
Proof.
  intros H Hf R.
  pose proof (sampleVolume_range _ _ _ _ _ _ _ _ _ H Hf R) as [_ E2].
  assert (Hn : no_nan (f <$> cells (lattice extents))).
  { apply Forall_fmap, Forall_forall. intros c _. apply Hf. }
  pose proof (accumulate_summarises ValueRange _ eq_refl eq_refl Hn) as [_ S2].
  cbn [ValueRange m_max] in S2.
  destruct (feq_not_nan _ _ E2) as [_ Nb]. destruct (feq_fle _ _ E2) as [_ Lb].
  apply fle_trans with (m_max (accumulate ValueRange (f <$> cells (lattice extents))));
    trivial.
  apply (extremum_bound (le := fge) _ _ _ S2). left.
Qed.

(** X12. After a run on a lattice of positive extents whose slot count
    fits an [int], over a field without NaN, the reported range has its
    ends in order and brackets every sample of the lattice; its minimum is
    never above [numeric_limits<float>::max()] and its maximum never below
    [numeric_limits<float>::min()], and each end is, numerically, a sample
    or that initial value. *)
Theorem range_brackets_samples (sch1 sch2 : schedule) (extents : Coord)
    (f : Vec3i -> float) (r0 : FloatRange) (buf : list float) (st : status)
    (r : FloatRange) (buf' : list float) :
  fits_int extents -> (forall c, is_nan (f c) = false) ->
  sampleVolume sch1 sch2 extents f r0 buf = Some (st, r, buf') ->
  range_ok r
  /\ (forall c, in_box (lattice extents) c -> fle (getMin r) (f c) /\ fle (f c) (getMax r))
  /\ fle (getMin r) F32.numeric_limits_max
  /\ fle F32.numeric_limits_min (getMax r)
  /\ (feq (getMin r) F32.numeric_limits_max
      \/ exists c, in_box (lattice extents) c /\ feq (getMin r) (f c))
  /\ (feq (getMax r) F32.numeric_limits_min
      \/ exists c, in_box (lattice extents) c /\ feq (getMax r) (f c)).
Proof.
  intros H Hf R.
  pose proof (sampleVolume_range _ _ _ _ _ _ _ _ _ H Hf R) as [E1 E2].
  set (xs := f <$> cells (lattice extents)) in *.
  assert (Hn : no_nan xs).
  { apply Forall_fmap, Forall_forall. intros c _. apply Hf. }
  pose proof (accumulate_summarises ValueRange xs eq_refl eq_refl Hn) as [S1 S2].
  cbn [ValueRange m_min m_max] in S1, S2.
  set (a := m_min (accumulate ValueRange xs)) in *.
  set (b := m_max (accumulate ValueRange xs)) in *.
  destruct (feq_not_nan _ _ E1) as [Na Na'], (feq_not_nan _ _ E2) as [Nb Nb'].
  destruct (feq_fle _ _ E1) as [La La'], (feq_fle _ _ E2) as [Lb Lb'].
  assert (Hlo : forall x, x ∈ F32.numeric_limits_max :: xs -> fle (getMin r) x).
  { intros x Hx. apply fle_trans with a; trivial.
    apply (extremum_bound (le := fle) _ _ _ S1 Hx). }
  assert (Hhi : forall x, x ∈ F32.numeric_limits_min :: xs -> fle x (getMax r)).
  { intros x Hx. apply fle_trans with b; trivial.
    apply (extremum_bound (le := fge) _ _ _ S2 Hx). }
  destruct (lattice_fits _ H) as (L & _).
  assert (Hc0 : in_box (lattice extents) (mkCoord 0 0 0)).
  { rewrite L. unfold in_box, fits_int in *. simpl. lia. }
  assert (Hin : forall c, in_box (lattice extents) c -> f c ∈ xs).
  { intros c Hc. apply samples_of_lattice. eauto. }
  split_and!.
  - split_and!; trivial.
    apply fle_trans with (f (mkCoord 0 0 0)); [apply Hf| |].
    + apply Hlo. right. now apply Hin.
    + apply Hhi. right. now apply Hin.
  - intros c Hc. split; [apply Hlo | apply Hhi]; right; now apply Hin.
  - apply Hlo. left.
  - apply Hhi. left.
  - destruct (extremum_attained (le := fle) _ _ S1) as (y & Hy & Ey).
    apply elem_of_cons in Hy. destruct Hy as [-> | Hy].
    + left. now apply feq_trans with a.
    + right. apply samples_of_lattice in Hy. destruct Hy as (c & Hc & ->).
      exists c. split; [trivial|]. now apply feq_trans with a.
  - destruct (extremum_attained (le := fge) _ _ S2) as (y & Hy & Ey).
    apply elem_of_cons in Hy. destruct Hy as [-> | Hy].
    + left. now apply feq_trans with b.
    + right. apply samples_of_lattice in Hy. destruct Hy as (c & Hc & ->).
      exists c. split; [trivial|]. now apply feq_trans with b.
Qed.

Lemma range_brackets_samples_witness :
  (fun x => F32.ltb (F32.of_Z 3) (getMin (snd (fst x))))
    <$> sampleVolume one_thread two_threads (mkCoord 2 1 1)
          (fun c => if cx c =? 0 then F32.of_Z 3 else F32.of_Z 5) ValueRange
          (replicate 8 sentinel)
  = Some false.
Proof.
  destruct (sampleVolume one_thread two_threads (mkCoord 2 1 1)
              (fun c => if cx c =? 0 then F32.of_Z 3 else F32.of_Z 5) ValueRange
              (replicate 8 sentinel)) as [[[st r] b]|] eqn:R.
  - cbn [fmap option_fmap option_map snd fst]. f_equal.
    apply range_brackets_samples in R.
    + destruct R as (_ & B & _). apply (B (mkCoord 0 0 0)).
      vm_compute. repeat split; discriminate.
    + unfold fits_int. vm_compute. repeat split; discriminate.
    + intros c. now destruct (cx c =? 0).
  - apply (f_equal (fun r => match r with Some _ => true | None => false end)) in R.
    vm_compute in R. discriminate.
Defined.

(** ** Two runs on the same field *)

Lemma lt_le_trans a b c :
  F32.ltb a b = true -> fle b c -> is_nan c = false -> F32.ltb a c = true.
Proof. intros H1 H2 Hc. float_cases. Qed.

(** Over a range whose maximum is positive, [unlerp] depends on the ends
    of the range up to the sign of a zero result only. *)
Lemma unlerp_feq a a' b b' x :
  feq a a' -> feq b b' -> F32.ltb (S754_zero false) b = true ->
  unlerp a b x = unlerp a' b' x
  \/ exists s s', unlerp a b x = S754_zero s /\ unlerp a' b' x = S754_zero s'.
Proof.
  intros Ha Hb Hpos.
  destruct (feq_cases _ _ Hb) as [<- | (s & s' & -> & _)]; [|now destruct s].
  destruct (feq_cases _ _ Ha) as [<- | (s & s' & -> & ->)]; [now left|].
  unfold unlerp.
  destruct b as [[]|[]| |[] mb eb]; try discriminate;
    destruct x as [[]|[]| |[] mx ex], s, s'; simpl; eauto.
Qed.

(** X13. Two runs on a lattice of positive extents whose slot count fits
    an [int], over the same field without NaN and on the same buffer, under
    any two schedules and whatever ranges they are given, report numerically
    equal ranges and leave buffers that agree slot by slot, up to the sign
    of a zero. *)
Theorem fill_independent_of_schedule (sch1 sch2 sch1' sch2' : schedule) (extents : Coord)
    (f : Vec3i -> float) (r0 r0' : FloatRange) (buf : list float)
    (st st' : status) (r r' : FloatRange) (buf1 buf2 : list float) :
  fits_int extents -> (forall c, is_nan (f c) = false) ->
  sampleVolume sch1 sch2 extents f r0 buf = Some (st, r, buf1) ->
  sampleVolume sch1' sch2' extents f r0' buf = Some (st', r', buf2) ->
  st = st' /\ range_eq r r' /\ Forall2 same_number buf1 buf2.
Proof.
  intros H Hf R1 R2.
  assert (Hlen : cx extents * cy extents * cz extents * 4 <= Z.of_nat (length buf)).
  { apply (sampleVolume_some_fits sch1 sch2 extents f r0); [trivial|]. rewrite R1. eauto. }
  destruct (sampleVolume_run sch1 sch2 extents f r0 buf H Hlen) as (x1 & y1 & Q1 & L1 & S1 & T1).
  destruct (sampleVolume_run sch1' sch2' extents f r0' buf H Hlen)
    as (x2 & y2 & Q2 & L2 & S2 & T2).
  rewrite R1 in Q1. rewrite R2 in Q2. injection Q1 as -> <- <-. injection Q2 as -> <- <-.
  pose proof (sampleVolume_range _ _ _ _ _ _ _ _ _ H Hf R1) as E1.
  pose proof (sampleVolume_range _ _ _ _ _ _ _ _ _ H Hf R2) as E2.
  assert (E : range_eq r r').
  { destruct E1 as [A1 B1], E2 as [A2 B2]. split.
    - apply feq_trans with (m_min (accumulate ValueRange (f <$> cells (lattice extents))));
        [trivial | now apply feq_sym].
    - apply feq_trans with (m_max (accumulate ValueRange (f <$> cells (lattice extents))));
        [trivial | now apply feq_sym]. }
  pose proof (reported_max_above_initial _ _ _ _ _ _ _ _ _ H Hf R1) as Hb.
  assert (Nb : is_nan (getMax r) = false) by (destruct E as [_ Eb]; apply (feq_not_nan _ _ Eb)).
  assert (Hpos : F32.ltb (S754_zero false) (getMax r) = true).
  { apply lt_le_trans with F32.numeric_limits_min; trivial. }
  split_and!; trivial.
  apply Forall2_same_length_lookup_2; [congruence|].
  intros j x y Hx Hy.
  destruct (Z.lt_ge_cases (Z.of_nat j) (cx extents * cy extents * cz extents * 4)) as [Hj|Hj].
  - destruct (flat_offset_surj extents (Z.of_nat j) H ltac:(lia)) as (c & k & Hc & Hk & Ej).
    pose proof (S1 c k Hc Hk) as V1. pose proof (S2 c k Hc Hk) as V2.
    rewrite <- Ej, Nat2Z.id in V1, V2. rewrite V1 in Hx. rewrite V2 in Hy.
    injection Hx as <-. injection Hy as <-.
    destruct E as [Ea Eb]. now apply unlerp_feq.
  - rewrite T1 in Hx by lia. rewrite T2 in Hy by lia. left. congruence.
Qed.

Lemma fill_independent_of_schedule_witness :
  match sampleVolume one_thread one_thread (mkCoord 2 2 2)
          (fun c => if cx c =? 0 then F32.of_Z 3 else F32.of_Z 5) ValueRange
          (replicate 32 sentinel),
        sampleVolume (Split AxisX true (Run 0) (Run 1)) two_threads (mkCoord 2 2 2)
          (fun c => if cx c =? 0 then F32.of_Z 3 else F32.of_Z 5) unit_range
          (replicate 32 sentinel) with
  | Some (_, r, b), Some (_, r', b') => range_eq r r' /\ Forall2 same_number b b'
  | _, _ => False
  end
  /\ tasks (Split AxisX true (Run 0) (Run 1)) (lattice (mkCoord 2 2 2))
     = [(1%nat, mkBBox (mkCoord 1 0 0) (mkCoord 1 1 1));
        (0%nat, mkBBox (mkCoord 0 0 0) (mkCoord 0 1 1))].
Proof.
  split; [|vm_compute; reflexivity].
  destruct (sampleVolume one_thread one_thread (mkCoord 2 2 2)
              (fun c => if cx c =? 0 then F32.of_Z 3 else F32.of_Z 5) ValueRange
              (replicate 32 sentinel)) as [[[st r] b]|] eqn:R1.
  - destruct (sampleVolume (Split AxisX true (Run 0) (Run 1)) two_threads (mkCoord 2 2 2)
                (fun c => if cx c =? 0 then F32.of_Z 3 else F32.of_Z 5) unit_range
                (replicate 32 sentinel)) as [[[st' r'] b']|] eqn:R2.
    + apply (fill_independent_of_schedule _ _ _ _ _ _ _ _ _ _ _ _ _ _ _) with (3 := R1) (4 := R2).
      * unfold fits_int. vm_compute. repeat split; discriminate.
      * intros c. now destruct (cx c =? 0).
    + apply (f_equal (fun r => match r with Some _ => true | None => false end)) in R2.
      vm_compute in R2. discriminate.
  - apply (f_equal (fun r => match r with Some _ => true | None => false end)) in R1.
    vm_compute in R1. discriminate.
Defined.

(** A second run, with the same schedules, on a buffer of the same length:
    the same range, the same slots of the lattice, the rest of the buffer
    as it was. *)
Lemma sampleVolume_rerun sch1 sch2 extents f r0 r0' buf st r buf1 b :
  fits_int extents -> length b = length buf ->
  sampleVolume sch1 sch2 extents f r0 buf = Some (st, r, buf1) ->
  exists b',
    sampleVolume sch1 sch2 extents f r0' b = Some (st, r, b')
    /\ length b' = length b
    /\ (forall j, Z.of_nat j < cx extents * cy extents * cz extents * 4 -> b' !! j = buf1 !! j)
    /\ (forall j, cx extents * cy extents * cz extents * 4 <= Z.of_nat j -> b' !! j = b !! j).
Proof.
  intros H Hb R1. set (n := cx extents * cy extents * cz extents * 4) in *.
  assert (Hlen : n <= Z.of_nat (length buf)).
  { apply (sampleVolume_some_fits sch1 sch2 extents f r0); [trivial|]. rewrite R1. eauto. }
  destruct (lattice_fits _ H) as (_ & _ & Hne & _).
  destruct (sampleVolume_inv _ _ _ _ _ _ _ _ _ Hne R1) as (b1 & _ & Hst & Hr & _).
  subst st.
  destruct (sampleVolume_run sch1 sch2 extents f r0 buf H Hlen) as (x1 & y1 & Q1 & L1 & S1 & T1).
  rewrite R1 in Q1. injection Q1 as <- <-.
  destruct (sampleVolume_run sch1 sch2 extents f r0' b H ltac:(fold n; lia))
    as (x2 & y2 & Q2 & L2 & S2 & T2).
  destruct (sampleVolume_inv _ _ _ _ _ _ _ _ _ Hne Q2) as (b2 & _ & _ & Hr2 & _).
  rewrite <- Hr in Hr2. subst x2. exists y2. split_and!; trivial.
  intros j Hj.
  destruct (flat_offset_surj extents (Z.of_nat j) H ltac:(fold n; lia))
    as (c & k & Hc & Hk & Ej).
  pose proof (S1 c k Hc Hk) as V1. pose proof (S2 c k Hc Hk) as V2.
  rewrite <- Ej, Nat2Z.id in V1, V2. congruence.
Qed.

Lemma sampleVolume_again sch1 sch2 extents f r0 r0' buf st r buf1 :
  fits_int extents ->
  sampleVolume sch1 sch2 extents f r0 buf = Some (st, r, buf1) ->
  sampleVolume sch1 sch2 extents f r0' buf1 = Some (st, r, buf1).
Proof.
  intros H R1.
  pose proof (sampleVolume_keeps_length _ _ _ _ _ _ _ _ _ R1) as L1.
  destruct (sampleVolume_rerun _ _ _ _ _ r0' _ _ _ _ buf1 H L1 R1) as (b' & Q & L & A & B).
  rewrite Q. do 2 f_equal. apply list_eq. intros j.
  destruct (Z.lt_ge_cases (Z.of_nat j) (cx extents * cy extents * cz extents * 4));
    [now apply A | now apply B].
Qed.

(** X14. A run reads nothing of what the slots of the lattice held: on
    another buffer of the same length, under the same schedules, it reports
    the same range and leaves the same values in the first
    [width*height*depth*4] slots, and the rest of that buffer as it was. *)
Theorem fill_overwrites_old_contents (sch1 sch2 : schedule) (extents : Coord)
    (f : Vec3i -> float) (r0 r0' : FloatRange) (buf other : list float)
    (st : status) (r : FloatRange) (buf1 : list float) :
  fits_int extents -> length other = length buf ->
  sampleVolume sch1 sch2 extents f r0 buf = Some (st, r, buf1) ->
  exists buf2,
    sampleVolume sch1 sch2 extents f r0' other = Some (st, r, buf2)
    /\ take (Z.to_nat (cx extents * cy extents * cz extents * 4)) buf2
       = take (Z.to_nat (cx extents * cy extents * cz extents * 4)) buf1
    /\ drop (Z.to_nat (cx extents * cy extents * cz extents * 4)) buf2
       = drop (Z.to_nat (cx extents * cy extents * cz extents * 4)) other.
Proof.
  intros H Hsame R1.
  destruct (sampleVolume_rerun _ _ _ _ _ r0' _ _ _ _ other H Hsame R1) as (b' & Q & L & A & B).
  exists b'. split_and!; trivial.
  - apply list_eq. intros j. rewrite !lookup_take.
    case_decide; [|reflexivity]. apply A. lia.
  - apply list_eq. intros j. rewrite !lookup_drop. apply B. lia.
Qed.

Lemma fill_overwrites_old_contents_witness :
  exists b,
    snd <$> sampleVolume one_thread two_threads (mkCoord 2 1 1) (fun _ => F32.of_Z 5) unit_range
              (replicate 9 (F32.of_Z 7)) = Some b
    /\ drop 8 b = [F32.of_Z 7].
Proof.
  destruct (sampleVolume one_thread two_threads (mkCoord 2 1 1) (fun _ => F32.of_Z 5) ValueRange
              (replicate 9 sentinel)) as [[[st r] b1]|] eqn:R1.
  - destruct (fill_overwrites_old_contents one_thread two_threads (mkCoord 2 1 1)
                (fun _ => F32.of_Z 5) ValueRange unit_range (replicate 9 sentinel)
                (replicate 9 (F32.of_Z 7)) st r b1) as (b2 & Q & _ & D).
    + unfold fits_int. vm_compute. repeat split; discriminate.
    + reflexivity.
    + exact R1.
    + exists b2. rewrite Q. split; [reflexivity | exact D].
  - apply (f_equal (fun r => match r with Some _ => true | None => false end)) in R1.
    vm_compute in R1. discriminate.
Defined.

(** ** The facade, further *)

(** X15. When the resolved box or the lattice is empty, the fill returns
    with the buffer untouched and with the summary changed all the same:
    the range becomes the pair of initial values of the default-constructed
    range, and the scale the world extents of the resolved box times the
    factor. *)
Theorem empty_domain_fill_resets_summary (sch1 sch2 : schedule) (self : oiVolume)
    (buf : list float) :
  let grid := m_grid self in
  let extents := mkCoord (width (m_summary self)) (height (m_summary self))
                         (depth (m_summary self)) in
  let world := BBoxd_extents (indexToWorld grid (getIndexSpaceBoundingBox grid)) in
  let k := F64.of_float (m_scaleFactor self) in
  CoordBBox_empty (getIndexSpaceBoundingBox grid) = true
  \/ CoordBBox_empty (lattice extents) = true ->
  exists self',
    fillTextureBuffer sch1 sch2 self (mkData (Some buf)) = Some (self', mkData (Some buf))
    /\ min_value (getSummary self') = F32.numeric_limits_max
    /\ max_value (getSummary self') = F32.numeric_limits_min
    /\ x_scale (getSummary self') = F64.mul (vx world) k
    /\ y_scale (getSummary self') = F64.mul (vy world) k
    /\ z_scale (getSummary self') = F64.mul (vz world) k.
Proof.
  intros grid extents world k H.
  unfold fillTextureBuffer. cbn [voxels]. fold grid extents. unfold sampleGrid. cbv zeta.
  fold world.
  destruct (CoordBBox_empty (getIndexSpaceBoundingBox grid)) eqn:E.
  - eexists. split; [reflexivity|]. now split_and!.
  - destruct H as [H | H]; [discriminate|].
    unfold sampleVolume. rewrite H. cbn [mbind option_bind].
    eexists. split; [reflexivity|]. now split_and!.
Qed.

Lemma empty_domain_fill_resets_summary_witness :
  exists self',
    fillTextureBuffer one_thread one_thread (volume_of bare_grid (mkCoord 2 1 1)) (buffer_of 8)
    = Some (self', buffer_of 8)
    /\ min_value (getSummary self') = F32.numeric_limits_max.
Proof.
  destruct (empty_domain_fill_resets_summary one_thread one_thread
              (volume_of bare_grid (mkCoord 2 1 1)) (replicate 8 sentinel))
    as (self' & Q & M & _).
  - left. vm_compute. reflexivity.
  - exists self'. split; [exact Q | exact M].
Defined.

(** X16. A second fill of the result of a fill, under the same schedules,
    changes neither the volume nor the buffer. *)
Theorem fillTextureBuffer_idempotent (sch1 sch2 : schedule) (self self' : oiVolume)
    (data data' : oiVolumeData) :
  let extents := mkCoord (width (m_summary self)) (height (m_summary self))
                         (depth (m_summary self)) in
  (CoordBBox_empty (lattice extents) = false -> fits_int extents) ->
  fillTextureBuffer sch1 sch2 self data = Some (self', data') ->
  fillTextureBuffer sch1 sch2 self' data' = Some (self', data').
Proof.
  intros extents Hfit. unfold fillTextureBuffer at 1.
  destruct (voxels data) as [buf|] eqn:V.
  - fold extents. unfold sampleGrid. cbv zeta.
    destruct (CoordBBox_empty (getIndexSpaceBoundingBox (m_grid self))) eqn:E.
    + cbn [mbind option_bind]. intros [= <- <-].
      unfold fillTextureBuffer. cbn [voxels m_summary m_grid width height depth].
      unfold sampleGrid. cbv zeta. now rewrite E.
    + destruct (sampleVolume sch1 sch2 extents _ ValueRange buf) as [[[st r] b1]|] eqn:R;
        cbn [mbind option_bind]; [|discriminate].
      intros [= <- <-].
      unfold fillTextureBuffer. cbn [voxels m_summary m_grid width height depth].
      fold extents. unfold sampleGrid. cbv zeta. rewrite E.
      assert (A : sampleVolume sch1 sch2 extents
                    (sampling_func (m_grid self)
                       (indexToWorld (m_grid self) (getIndexSpaceBoundingBox (m_grid self)))
                       (asVec3d extents)) ValueRange b1 = Some (st, r, b1)).
      { destruct (CoordBBox_empty (lattice extents)) eqn:Hne.
        - unfold sampleVolume in *. rewrite Hne in *. congruence.
        - eapply sampleVolume_again; [now apply Hfit | exact R]. }
      rewrite A. reflexivity.
  - intros [= <- <-]. unfold fillTextureBuffer. now rewrite V.
Qed.

Lemma fillTextureBuffer_idempotent_witness :
  match fillTextureBuffer one_thread two_threads
          (volume_of step_grid (mkCoord 2 1 1)) (buffer_of 8) with
  | Some (self', data') =>
      fillTextureBuffer one_thread two_threads self' data' = Some (self', data')
  | None => False
  end.
Proof.
  destruct (fillTextureBuffer one_thread two_threads
              (volume_of step_grid (mkCoord 2 1 1)) (buffer_of 8)) as [[self' data']|] eqn:R.
  - apply (fillTextureBuffer_idempotent _ _ _ _ _ _) with (2 := R).
    intros _. unfold fits_int. vm_compute. repeat split; discriminate.
  - apply (f_equal (fun r => match r with Some _ => true | None => false end)) in R.
    vm_compute in R. discriminate.
Defined.

(** X17. For a volume fresh from the constructor, over a grid with a
    non-empty resolved box and extents whose slot count fits an [int]:
    [voxel_count] is [width*height*depth], the fill runs to its end exactly
    on buffers of at least four floats per voxel, and a null buffer pointer
    makes it return with nothing changed. *)
Theorem new_volume_buffer_size (sch1 sch2 : schedule) (init_range : FloatRange)
    (init_scale : Vec3d) (grid : FloatGrid) (extents : Coord) (buf : list float) :
  let self := oiVolume_new init_range init_scale grid extents in
  fits_int extents ->
  CoordBBox_empty (getIndexSpaceBoundingBox grid) = false ->
  voxel_count (getSummary self) = cx extents * cy extents * cz extents
  /\ (is_Some (fillTextureBuffer sch1 sch2 self (mkData (Some buf)))
      <-> 4 * voxel_count (getSummary self) <= Z.of_nat (length buf))
  /\ fillTextureBuffer sch1 sch2 self (mkData None) = Some (self, mkData None).
Proof.
  intros self H Hne.
  assert (Hv : voxel_count (getSummary self) = cx extents * cy extents * cz extents).
  { cbn. unfold Int32.mul. unfold fits_int, Int32.max in H.
    assert (0 < cx extents * cy extents) by nia.
    assert (cx extents * cy extents <= cx extents * cy extents * cz extents) by nia.
    rewrite (wrap32_id (cx extents * cy extents)) by (unfold Int32.min, Int32.max; lia).
    apply wrap32_id. unfold Int32.min, Int32.max. lia. }
  split_and!; trivial.
  rewrite Hv. unfold fillTextureBuffer. cbn [voxels self oiVolume_new m_summary m_grid
    oiVolumeSummary_new width height depth].
  replace (mkCoord (cx extents) (cy extents) (cz extents)) with extents by now destruct extents.
  unfold sampleGrid. cbv zeta. rewrite Hne.
  split.
  - intros S. 
    destruct (sampleVolume sch1 sch2 extents _ ValueRange buf) as [x|] eqn:R.
    + enough (cx extents * cy extents * cz extents * 4 <= Z.of_nat (length buf)) by lia.
      eapply sampleVolume_some_fits; [exact H|]. rewrite R. eauto.
    + cbn in S. now destruct S.
  - intros Hlen.
    destruct (sampleVolume_run sch1 sch2 extents
                (sampling_func grid (indexToWorld grid (getIndexSpaceBoundingBox grid))
                   (asVec3d extents)) ValueRange buf H ltac:(lia)) as (r & b & R & _).
    rewrite R. cbn. eauto.
Qed.

Lemma new_volume_buffer_size_witness :
  voxel_count (getSummary (oiVolume_new unit_range zero_scale step_grid (mkCoord 2 3 4))) = 24.
Proof.
  apply (new_volume_buffer_size one_thread one_thread unit_range zero_scale step_grid
           (mkCoord 2 3 4) []).
  - unfold fits_int. vm_compute. repeat split; discriminate.
  - vm_compute. reflexivity.
Defined.

(** ** Floats as numbers: order and digits *)

Lemma digits2_pos_bounds m :
  2 ^ (Z.pos (digits2_pos m) - 1) <= Z.pos m < 2 ^ Z.pos (digits2_pos m).
Proof.
  induction m as [m IH|m IH|]; cbn [digits2_pos].
  - rewrite Pos2Z.inj_succ, Z.pow_succ_r by lia.
    replace (Z.succ (Z.pos (digits2_pos m)) - 1) with (Z.succ (Z.pos (digits2_pos m) - 1)) by lia.
    rewrite Z.pow_succ_r by lia. lia.
  - rewrite Pos2Z.inj_succ, Z.pow_succ_r by lia.
    replace (Z.succ (Z.pos (digits2_pos m)) - 1) with (Z.succ (Z.pos (digits2_pos m) - 1)) by lia.
    rewrite Z.pow_succ_r by lia. lia.
  - simpl. lia.
Qed.

Lemma shl_align_value mx ex ez :
  ez <= ex -> Z.pos (fst (shl_align mx ex ez)) = Z.pos mx * 2 ^ (ex - ez).
Proof.
  intros H. unfold shl_align.
  destruct (ez - ex) as [|d|d] eqn:E; try lia.
  - replace (ex - ez) with 0 by lia. cbn [fst]. lia.
  - cbn [fst]. replace (ex - ez) with (Z.pos d) by lia.
    change (PosDef.Pos.iter xO mx d) with (shift_pos d mx).
    rewrite shift_pos_correct. change (Z.pow_pos 2 d) with (2 ^ Z.pos d). lia.
Qed.

(** A float of the format has its exponent from -149 to 104 and fewer
    than 25 bits; above the least exponent it has 24. *)
Lemma valid_finite_bounds s m e :
  valid_float (S754_finite s m e) ->
  -149 <= e <= 104 /\ Z.pos m < 2 ^ 24 /\ (-149 < e -> 2 ^ 23 <= Z.pos m).
Proof.
  unfold valid_float, valid_binary, bounded, canonical_mantissa, fexp, emin, F32.prec, F32.emax.
  rewrite andb_true_iff, Z.eqb_eq, Z.leb_le. intros [C B].
  pose proof (digits2_pos_bounds m) as D.
  set (d := Z.pos (digits2_pos m)) in *.
  assert (0 < d) by (unfold d; lia).
  destruct (Z.max_spec (d + e - 24) (3 - 128 - 24)) as [[L M]|[L M]]; rewrite M in C.
  - split; [lia|]. assert (d <= 24) by lia.
    split; [|lia]. apply Z.lt_le_trans with (2 ^ d); [lia|]. apply Z.pow_le_mono_r; lia.
  - assert (d = 24) by lia. split; [lia|]. split; [|intros _]; replace d with 24 in D; lia.
Qed.

Lemma units_compare_pos m1 e1 m2 e2 :
  valid_float (S754_finite false m1 e1) -> valid_float (S754_finite false m2 e2) ->
  match (e1 ?= e2) with
  | Eq => Pos.compare_cont Eq m1 m2
  | Lt => Lt
  | Gt => Gt
  end = (Z.pos m1 * 2 ^ (e1 + 149) ?= Z.pos m2 * 2 ^ (e2 + 149)).
Proof.
  intros V1 V2.
  destruct (valid_finite_bounds _ _ _ V1) as (E1 & U1 & N1).
  destruct (valid_finite_bounds _ _ _ V2) as (E2 & U2 & N2).
  destruct (Z.compare_spec e1 e2) as [->|L|L].
  - change (Pos.compare_cont Eq m1 m2) with (Z.pos m1 ?= Z.pos m2).
    apply Zmult_compare_compat_r. apply Z.lt_gt, Z.pow_pos_nonneg; lia.
  - symmetry. apply Z.compare_lt_iff.
    replace (e2 + 149) with ((e2 - e1) + (e1 + 149)) by lia.
    rewrite (Z.pow_add_r 2 (e2 - e1) (e1 + 149)) by lia.
    assert (2 <= 2 ^ (e2 - e1)) by (change 2 with (2 ^ 1) at 1; apply Z.pow_le_mono_r; lia).
    assert (0 < 2 ^ (e1 + 149)) by (apply Z.pow_pos_nonneg; lia).
    specialize (N2 ltac:(lia)). change (2 ^ 24) with 16777216 in *.
    change (2 ^ 23) with 8388608 in *.
    set (P := 2 ^ (e2 - e1)) in *. set (Q := 2 ^ (e1 + 149)) in *.
    assert (Z.pos m1 < Z.pos m2 * P) by nia. rewrite Z.mul_assoc.
    apply Z.mul_lt_mono_pos_r; lia.
  - symmetry. apply Z.compare_gt_iff.
    replace (e1 + 149) with ((e1 - e2) + (e2 + 149)) by lia.
    rewrite (Z.pow_add_r 2 (e1 - e2) (e2 + 149)) by lia.
    assert (2 <= 2 ^ (e1 - e2)) by (change 2 with (2 ^ 1) at 1; apply Z.pow_le_mono_r; lia).
    assert (0 < 2 ^ (e2 + 149)) by (apply Z.pow_pos_nonneg; lia).
    specialize (N1 ltac:(lia)). change (2 ^ 24) with 16777216 in *.
    change (2 ^ 23) with 8388608 in *.
    set (P := 2 ^ (e1 - e2)) in *. set (Q := 2 ^ (e2 + 149)) in *.
    assert (Z.pos m2 < Z.pos m1 * P) by nia. rewrite Z.mul_assoc.
    apply Z.mul_lt_mono_pos_r; lia.
Qed.

Lemma valid_flip s m e : valid_float (S754_finite s m e) -> valid_float (S754_finite false m e).
Proof. intros H. exact H. Qed.

Lemma units_pos m e : 0 < Z.pos m * 2 ^ (e + 149) \/ e + 149 < 0.
Proof.
  destruct (Z.lt_ge_cases (e + 149) 0); [now right|left].
  apply Z.mul_pos_pos; [lia|]. apply Z.pow_pos_nonneg; lia.
Qed.

(** On finite floats and zeros, [SFcompare] is the order of the numbers. *)
Lemma compare_units x y :
  valid_float x -> valid_float y ->
  (forall s, x <> S754_infinity s) -> (forall s, y <> S754_infinity s) ->
  is_nan x = false -> is_nan y = false ->
  SFcompare x y = Some (units x ?= units y).
Proof.
  intros Vx Vy Ix Iy Nx Ny.
  destruct x as [sx|sx| |sx mx ex]; try discriminate; try (now destruct (Ix sx));
  destruct y as [sy|sy| |sy my ey]; try discriminate; try (now destruct (Iy sy)).
  - reflexivity.
  - destruct (valid_finite_bounds _ _ _ Vy) as (E & _).
    destruct (units_pos my ey) as [P|P]; [|lia].
    cbn [SFcompare units]. destruct sy; cbn [cond_Zopp]; f_equal; symmetry.
    + apply Z.compare_gt_iff. lia.
    + apply Z.compare_lt_iff. lia.
  - destruct (valid_finite_bounds _ _ _ Vx) as (E & _).
    destruct (units_pos mx ex) as [P|P]; [|lia].
    cbn [SFcompare units]. destruct sx; cbn [cond_Zopp]; f_equal; symmetry.
    + apply Z.compare_lt_iff. lia.
    + apply Z.compare_gt_iff. lia.
  - destruct (valid_finite_bounds _ _ _ Vx) as (Ex & _).
    destruct (valid_finite_bounds _ _ _ Vy) as (Ey & _).
    destruct (units_pos mx ex) as [Px|Px]; [|lia].
    destruct (units_pos my ey) as [Py|Py]; [|lia].
    cbn [SFcompare units].
    destruct sx, sy; cbn [cond_Zopp]; f_equal.
    + rewrite Z.compare_opp.
      rewrite <- (units_compare_pos my ey mx ex (valid_flip _ _ _ Vy) (valid_flip _ _ _ Vx)).
      rewrite (Z.compare_antisym ex ey). destruct (ex ?= ey); cbn [CompOpp]; try reflexivity.
      change (CompOpp (Pos.compare mx my) = Pos.compare my mx).
      symmetry. apply Pos.compare_antisym.
    + symmetry. apply Z.compare_lt_iff. lia.
    + symmetry. apply Z.compare_gt_iff. lia.
    + apply (units_compare_pos mx ex my ey Vx Vy).
Qed.

(** ** The sign of a difference and of a quotient *)

Lemma round_aux_sign_false m e l : sign_false (binary_round_aux F32.prec F32.emax false m e l).
Proof.
  unfold binary_round_aux.
  destruct (shr_fexp _ _ m e l) as [mrs' e'].
  destruct (shr_fexp _ _ _ e' loc_Exact) as [mrs'' e''].
  destruct (shr_m mrs''); [reflexivity| |exact I].
  now destruct (e'' <=? _).
Qed.

Lemma normalize_sign_false n e :
  0 <= n -> sign_false (binary_normalize F32.prec F32.emax n e false).
Proof.
  intros H. destruct n as [|p|p]; [reflexivity| |lia].
  unfold binary_normalize, binary_round. destruct (shl_align _ _ _) as [mz ez].
  apply round_aux_sign_false.
Qed.

(** The difference of two finite floats, before rounding. *)
Lemma sub_finite sx mx ex sa ma ea :
  -149 <= ex -> -149 <= ea ->
  exists n,
    F32.sub (S754_finite sx mx ex) (S754_finite sa ma ea)
    = binary_normalize F32.prec F32.emax n (Z.min ex ea) false
    /\ n * 2 ^ (Z.min ex ea + 149)
       = units (S754_finite sx mx ex) - units (S754_finite sa ma ea).
Proof.
  intros Hx Ha. eexists. split; [reflexivity|].
  set (ez := Z.min ex ea). assert (ez <= ex /\ ez <= ea /\ -149 <= ez) as (L1 & L2 & L3)
    by (unfold ez; lia).
  rewrite !shl_align_value by trivial. cbn [units].
  replace (ex + 149) with ((ex - ez) + (ez + 149)) by lia.
  replace (ea + 149) with ((ea - ez) + (ez + 149)) by lia.
  rewrite (Z.pow_add_r 2 (ex - ez)), (Z.pow_add_r 2 (ea - ez)) by lia.
  destruct sx, sa; cbn [cond_Zopp]; ring.
Qed.

(** [<=] on finite floats and zeros is [<=] of the numbers. *)
Lemma fle_units x a :
  valid_float x -> valid_float a ->
  (forall s, x <> S754_infinity s) -> (forall s, a <> S754_infinity s) ->
  is_nan x = false -> is_nan a = false ->
  fle a x -> units a <= units x.
Proof.
  intros Vx Va Ix Ia Nx Na H. unfold fle, F32.ltb, SFltb in H.
  rewrite (compare_units x a) in H by trivial.
  destruct (Z.compare_spec (units x) (units a)); try discriminate; lia.
Qed.

Lemma sub_not_negative x a :
  valid_float x -> valid_float a -> fle a x -> not_negative (F32.sub x a).
Proof.
  intros Vx Va H.
  destruct x as [sx|sx| |sx mx ex], a as [sa|sa| |sa ma ea];
    lazymatch goal with
    | |- _ (F32.sub (S754_finite _ _ _) (S754_finite _ _ _)) => idtac
    | _ => unfold fle in H; cbn in H |- *; trivial;
           repeat match goal with s : bool |- _ => destruct s end;
           cbn in H |- *; trivial; discriminate
    end.
  destruct (valid_finite_bounds _ _ _ Vx) as (Ex & _).
  destruct (valid_finite_bounds _ _ _ Va) as (Ea & _).
  destruct (sub_finite sx mx ex sa ma ea) as (n & -> & Hn); try lia.
  apply fle_units in H; trivial; try discriminate.
  assert (0 < 2 ^ (Z.min ex ea + 149)) by (apply Z.pow_pos_nonneg; lia).
  assert (0 <= n) by nia.
  pose proof (normalize_sign_false n (Z.min ex ea) H1) as S.
  now destruct (binary_normalize _ _ _ _ _).
Qed.

Lemma sub_sign_false b a :
  valid_float b -> valid_float a -> fle a b -> F32.ltb (S754_zero false) b = true ->
  sign_false (F32.sub b a).
Proof.
  intros Vb Va H P.
  destruct b as [sb|sb| |sb mb eb], a as [sa|sa| |sa ma ea];
    lazymatch goal with
    | |- _ (F32.sub (S754_finite _ _ _) (S754_finite _ _ _)) => idtac
    | _ => unfold fle in H; cbn in H, P |- *; trivial;
           repeat match goal with s : bool |- _ => destruct s end;
           cbn in H, P |- *; trivial; discriminate
    end.
  destruct (valid_finite_bounds _ _ _ Vb) as (Eb & _).
  destruct (valid_finite_bounds _ _ _ Va) as (Ea & _).
  destruct (sub_finite sb mb eb sa ma ea) as (n & -> & Hn); try lia.
  apply fle_units in H; trivial; try discriminate.
  assert (0 < 2 ^ (Z.min eb ea + 149)) by (apply Z.pow_pos_nonneg; lia).
  assert (0 <= n) by nia.
  now apply normalize_sign_false.
Qed.

Lemma div_not_negative n d : not_negative n -> sign_false d -> not_negative (F32.div n d).
Proof.
  intros Hn Hd.
  destruct n as [sn|sn| |sn mn en], d as [sd|sd| |sd md ed]; cbn in *; subst; trivial.
  destruct (SFdiv_core_binary _ _ _ _ _ _) as [[mz ez] lz].
  pose proof (round_aux_sign_false mz ez lz) as S.
  now destruct (binary_round_aux _ _ _ _ _ _).
Qed.

Lemma not_negative_ltb r : not_negative r -> F32.ltb r (S754_zero false) = false.
Proof. destruct r as [s|s| |s m e]; cbn; trivial; now intros ->. Qed.

(** Over a range with a positive maximum, a value from the minimum up is
    never remapped to a negative number. *)
Lemma unlerp_not_negative a b x :
  valid_float a -> valid_float b -> valid_float x ->
  fle a x -> fle a b -> F32.ltb (S754_zero false) b = true ->
  F32.ltb (unlerp a b x) (S754_zero false) = false.
Proof.
  intros Va Vb Vx Hx Hb P. apply not_negative_ltb, div_not_negative.
  - now apply sub_not_negative.
  - now apply sub_sign_false.
Qed.

(** ** Shifting a mantissa right *)

Lemma iter_pos_nat {A} (f : A -> A) p : forall x,
  SpecFloat.iter_pos f p x = Nat.iter (Pos.to_nat p) f x.
Proof.
  induction p as [p IH|p IH|]; intros x; cbn [SpecFloat.iter_pos].
  - rewrite !IH, Pos2Nat.inj_xI, Nat.iter_succ_r.
    replace (2 * Pos.to_nat p)%nat with (Pos.to_nat p + Pos.to_nat p)%nat by lia.
    now rewrite Nat.iter_add.
  - rewrite !IH, Pos2Nat.inj_xO.
    replace (2 * Pos.to_nat p)%nat with (Pos.to_nat p + Pos.to_nat p)%nat by lia.
    now rewrite Nat.iter_add.
  - reflexivity.
Qed.

(** One more place shifted out of the quotient of [n] by [c]. *)
Lemma shr_1_ratio n c mrs :
  0 <= n -> 0 < c ->
  shr_m mrs = n / c -> loc_of_shr_record mrs = ratio_loc n c ->
  shr_m (shr_1 mrs) = n / (c * 2)
  /\ loc_of_shr_record (shr_1 mrs) = ratio_loc n (c * 2).
Proof.
  intros Hn Hc Em El.
  assert (D : n / (c * 2) = n / c / 2) by (now rewrite Z.div_div by lia).
  assert (R : n mod (c * 2) = n mod c + c * ((n / c) mod 2)) by (rewrite Z.rem_mul_r; lia).
  assert (B : 0 <= n mod c < c) by (apply Z.mod_pos_bound; lia).
  assert (Q : 0 <= n / c) by (apply Z.div_pos; lia).
  assert (S : shr_r mrs || shr_s mrs = negb (n mod c =? 0)).
  { unfold ratio_loc in El. destruct mrs as [q r s]. cbn [shr_r shr_s loc_of_shr_record] in *.
    destruct (n mod c =? 0); destruct r, s; simpl in *; congruence. }
  rewrite D, <- Em. unfold ratio_loc. rewrite R, <- Em.
  destruct mrs as [q r s]. cbn [shr_m shr_r shr_s] in *.
  rewrite <- Em in Q.
  destruct q as [|[p|p|]|p]; try lia; cbn [shr_1 shr_m shr_r shr_s loc_of_shr_record]; rewrite S.
  - split; [reflexivity|]. change (0 mod 2) with 0. rewrite Z.mul_0_r, Z.add_0_r.
    destruct (n mod c =? 0) eqn:E; cbn [negb]; [reflexivity|].
    apply Z.eqb_neq in E. f_equal. symmetry. apply Z.compare_lt_iff. lia.
  - split; [rewrite Pos2Z.inj_xI; apply Z.div_unique with 1; lia|].
    replace (Z.pos p~1 mod 2) with 1
      by (rewrite Pos2Z.inj_xI, Z.add_comm, Z.mul_comm, Z.mod_add; [reflexivity|lia]).
    rewrite Z.mul_1_r.
    destruct (n mod c + c =? 0) eqn:E0; [apply Z.eqb_eq in E0; lia|].
    destruct (n mod c =? 0) eqn:E; cbn [negb]; f_equal; symmetry.
    + apply Z.eqb_eq in E. apply Z.compare_eq_iff. lia.
    + apply Z.eqb_neq in E. apply Z.compare_gt_iff. lia.
  - split; [rewrite Pos2Z.inj_xO; apply Z.div_unique with 0; lia|].
    replace (Z.pos p~0 mod 2) with 0
      by (rewrite Pos2Z.inj_xO, Z.mul_comm, Z.mod_mul; [reflexivity|lia]).
    rewrite Z.mul_0_r, Z.add_0_r.
    destruct (n mod c =? 0) eqn:E; cbn [negb]; [reflexivity|].
    apply Z.eqb_neq in E. f_equal. symmetry. apply Z.compare_lt_iff. lia.
  - split; [reflexivity|]. change (1 mod 2) with 1. rewrite Z.mul_1_r.
    destruct (n mod c + c =? 0) eqn:E0; [apply Z.eqb_eq in E0; lia|].
    destruct (n mod c =? 0) eqn:E; cbn [negb]; f_equal; symmetry.
    + apply Z.eqb_eq in E. apply Z.compare_eq_iff. lia.
    + apply Z.eqb_neq in E. apply Z.compare_gt_iff. lia.
Qed.

Lemma shr_iter_ratio n c mrs (k : nat) :
  0 <= n -> 0 < c ->
  shr_m mrs = n / c -> loc_of_shr_record mrs = ratio_loc n c ->
  shr_m (Nat.iter k shr_1 mrs) = n / (c * 2 ^ Z.of_nat k)
  /\ loc_of_shr_record (Nat.iter k shr_1 mrs) = ratio_loc n (c * 2 ^ Z.of_nat k).
Proof.
  intros Hn Hc Em El. induction k as [|k IH].
  - cbn [Nat.iter]. change (2 ^ Z.of_nat 0) with 1. rewrite Z.mul_1_r. now split.
  - change (Nat.iter (S k) shr_1 mrs) with (shr_1 (Nat.iter k shr_1 mrs)).
    rewrite Nat2Z.inj_succ, Z.pow_succ_r by lia.
    replace (c * (2 * 2 ^ Z.of_nat k)) with (c * 2 ^ Z.of_nat k * 2) by ring.
    destruct IH as [I1 I2]. apply shr_1_ratio; trivial.
    apply Z.mul_pos_pos; [lia|apply Z.pow_pos_nonneg; lia].
Qed.

Lemma shr_iter_spec m (n : nat) :
  0 <= m ->
  let mrs := Nat.iter n shr_1 (shr_record_of_loc m loc_Exact) in
  shr_m mrs = m / 2 ^ Z.of_nat n /\ loc_of_shr_record mrs = shifted_out m (Z.of_nat n).
Proof.
  intros Hm. cbv zeta. unfold shifted_out, ratio_loc.
  rewrite <- (Z.mul_1_l (2 ^ Z.of_nat n)).
  apply shr_iter_ratio; try lia.
  - cbn [shr_m shr_record_of_loc]. now rewrite Z.div_1_r.
  - cbn [loc_of_shr_record shr_record_of_loc]. unfold ratio_loc.
    now rewrite Zmod_1_r.
Qed.

Lemma rne_bounds m n : 0 <= m -> 0 <= n -> m / 2 ^ n <= rne m n <= m / 2 ^ n + 1.
Proof.
  intros Hm Hn. unfold rne, round_nearest_even.
  destruct (shifted_out m n) as [|[]]; try lia. destruct (Z.even _); lia.
Qed.

Lemma rne_exact m n : 0 <= n -> m mod 2 ^ n = 0 -> rne m n = m / 2 ^ n.
Proof. intros Hn H. unfold rne, shifted_out, ratio_loc. now rewrite H. Qed.

Lemma shr_exact_spec m e n mrs e' :
  0 <= m -> 0 <= n ->
  shr (shr_record_of_loc m loc_Exact) e n = (mrs, e') ->
  e' = e + n /\ shr_m mrs = m / 2 ^ n
  /\ round_nearest_even (shr_m mrs) (loc_of_shr_record mrs) = rne m n.
Proof.
  intros Hm Hn. unfold shr, rne. destruct n as [|p|p]; try lia.
  - intros [= <- <-]. cbn [shr_m shr_record_of_loc loc_of_shr_record]. unfold shifted_out, ratio_loc.
    rewrite Z.pow_0_r, Z.div_1_r, Z.mod_1_r. split; [lia|]. now split.
  - rewrite iter_pos_nat. destruct (shr_iter_spec m (Pos.to_nat p) Hm) as [I1 I2].
    rewrite positive_nat_Z in I1, I2. intros [= <- <-].
    split; [reflexivity|]. split; [exact I1|]. rewrite <- I1, <- I2. reflexivity.
Qed.

Lemma digits_unique v j : 0 < v -> 2 ^ (j - 1) <= v < 2 ^ j -> Zdigits2 v = j.
Proof.
  intros Hv [L U]. destruct v as [|p|p]; try lia. cbn [Zdigits2].
  pose proof (digits2_pos_bounds p) as [L' U'].
  set (d := Z.pos (digits2_pos p)) in *. assert (0 < d) by (unfold d; lia).
  destruct (Z.lt_trichotomy d j) as [C|[C|C]]; [exfalso|trivial|exfalso].
  - assert (2 ^ d <= 2 ^ (j - 1)) by (apply Z.pow_le_mono_r; lia). lia.
  - assert (0 <= j).
    { destruct (Z.lt_ge_cases j 0) as [N|N]; [|trivial].
      rewrite (Z.pow_neg_r 2 j) in U by trivial. lia. }
    assert (2 ^ j <= 2 ^ (d - 1)) by (apply Z.pow_le_mono_r; lia). lia.
Qed.

Lemma digits_bounds v : 0 < v -> 2 ^ (Zdigits2 v - 1) <= v < 2 ^ Zdigits2 v.
Proof. intros Hv. destruct v as [|p|p]; try lia. apply digits2_pos_bounds. Qed.

Lemma digits_pos v : 0 < v -> 0 < Zdigits2 v.
Proof. intros Hv. destruct v as [|p|p]; try lia. cbn. lia. Qed.

Lemma digits_shift v j : 0 < v -> 0 <= j -> Zdigits2 (v * 2 ^ j) = Zdigits2 v + j.
Proof.
  intros Hv Hj. pose proof (digits_bounds v Hv) as [L U]. pose proof (digits_pos v Hv).
  assert (0 < 2 ^ j) by (apply Z.pow_pos_nonneg; lia).
  apply digits_unique; [nia|].
  replace (Zdigits2 v + j - 1) with (Zdigits2 v - 1 + j) by lia.
  rewrite !Z.pow_add_r by lia. nia.
Qed.

(** ** Rounding, in units of 2^-149 *)

Lemma fexp32 k : fexp F32.prec F32.emax k = Z.max (k - 24) (-149).
Proof. reflexivity. Qed.

Lemma valid_of_bounds s m e :
  -149 <= e <= 104 -> Zdigits2 (Z.pos m) <= 24 -> (-149 < e -> Zdigits2 (Z.pos m) = 24) ->
  valid_float (S754_finite s m e).
Proof.
  intros He Hd Hn. unfold valid_float, valid_binary, bounded, canonical_mantissa.
  rewrite fexp32. cbn [Zdigits2] in *. apply andb_true_iff. split.
  - apply Z.eqb_eq. destruct (Z.eq_dec e (-149)) as [->|N]; [lia|].
    rewrite Hn by lia. lia.
  - apply Z.leb_le. unfold F32.emax, F32.prec. lia.
Qed.

Lemma shl_align_exp mx ex ez : ez <= ex -> snd (shl_align mx ex ez) = ez.
Proof.
  intros H. unfold shl_align. destruct (ez - ex) as [|d|d] eqn:E; cbn [snd]; lia.
Qed.

Lemma shl_align_id mx ex ez : ex <= ez -> shl_align mx ex ez = (mx, ex).
Proof.
  intros H. unfold shl_align. destruct (ez - ex) as [|d|d] eqn:E; trivial. lia.
Qed.

(** A mantissa that needs no shift goes through [binary_round_aux] as it
    is. *)
Lemma round_aux_fixed s mz E :
  fexp F32.prec F32.emax (Zdigits2 (Z.pos mz) + E) = E ->
  binary_round_aux F32.prec F32.emax s (Z.pos mz) E loc_Exact
  = if E <=? 104 then S754_finite s mz E else S754_infinity s.
Proof.
  intros H. unfold binary_round_aux, shr_fexp. rewrite H, Z.sub_diag. cbn [shr].
  cbn [shr_m shr_record_of_loc loc_of_shr_record round_nearest_even].
  rewrite H, Z.sub_diag. cbn [shr shr_m shr_record_of_loc]. reflexivity.
Qed.

Lemma pow2_split a b : 0 <= a -> 0 <= b -> 2 ^ (a + b) = 2 ^ a * 2 ^ b.
Proof. intros. now apply Z.pow_add_r. Qed.

Lemma rne_scale m n j : 0 <= m -> 0 <= n -> 0 <= j -> rne (m * 2 ^ j) (n + j) = rne m n.
Proof.
  intros Hm Hn Hj. unfold rne, shifted_out, ratio_loc.
  assert (P : 0 < 2 ^ j) by (apply Z.pow_pos_nonneg; lia).
  assert (Pn : 0 < 2 ^ n) by (apply Z.pow_pos_nonneg; lia).
  rewrite !(pow2_split n j) by trivial.
  rewrite Z.div_mul_cancel_r by lia.
  rewrite Z.mul_mod_distr_r by lia.
  assert (B : 0 <= m mod 2 ^ n < 2 ^ n) by (apply Z.mod_pos_bound; lia).
  destruct (m mod 2 ^ n =? 0) eqn:E.
  - apply Z.eqb_eq in E. rewrite E, Z.mul_0_l. reflexivity.
  - apply Z.eqb_neq in E.
    destruct (m mod 2 ^ n * 2 ^ j =? 0) eqn:E'; [apply Z.eqb_eq in E'; nia|].
    f_equal. f_equal. rewrite Z.mul_assoc. symmetry. apply Zmult_compare_compat_r. lia.
Qed.

(** [binary_round] gives the nearest float, or the infinity past the
    largest one. *)
Lemma binary_round_units m e :
  -149 <= e ->
  let v := Z.pos m * 2 ^ (e + 149) in
  (round_units v < huge
   /\ exists M E,
        binary_round F32.prec F32.emax false m e = S754_finite false M E
        /\ valid_float (S754_finite false M E)
        /\ Z.pos M * 2 ^ (E + 149) = round_units v)
  \/ (huge <= round_units v
      /\ binary_round F32.prec F32.emax false m e = S754_infinity false).
Proof.
  intros He v.
  pose proof (digits_bounds (Z.pos m) ltac:(lia)) as Bm.
  pose proof (digits_pos (Z.pos m) ltac:(lia)) as Pm.
  set (d := Zdigits2 (Z.pos m)) in *.
  assert (Pu : 0 < 2 ^ (e + 149)) by (apply Z.pow_pos_nonneg; lia).
  assert (Dv : Zdigits2 v = d + (e + 149)) by (apply digits_shift; lia).
  unfold binary_round. change (Z.pos (digits2_pos m)) with d.
  set (E := fexp F32.prec F32.emax (d + e)).
  assert (EE : E = Z.max (d + e - 24) (-149)) by apply fexp32.
  assert (Nv : Z.max (Zdigits2 v - 24) 0 = E + 149) by lia.
  unfold round_units. rewrite Nv.
  destruct (Z.le_gt_cases E e) as [C|C].
  - (* no bit is lost *)
    pose proof (shl_align_value m e E C) as Vz. pose proof (shl_align_exp m e E C) as Ez.
    destruct (shl_align m e E) as [mz ez]. cbn [fst snd] in Vz, Ez. subst ez.
    assert (Dz : Zdigits2 (Z.pos mz) = d + (e - E)) by (rewrite Vz; apply digits_shift; lia).
    rewrite round_aux_fixed by (rewrite Dz; fold E; f_equal; lia).
    assert (Vv : v = Z.pos mz * 2 ^ (E + 149)).
    { unfold v. rewrite Vz. replace (e + 149) with ((e - E) + (E + 149)) by lia.
      rewrite pow2_split by lia. ring. }
    assert (R : rne v (E + 149) = Z.pos mz).
    { rewrite rne_exact by (try lia; rewrite Vv; apply Z.mod_mul; lia).
      rewrite Vv. apply Z.div_mul. lia. }
    rewrite R.
    pose proof (digits_bounds (Z.pos mz) ltac:(lia)) as Bz. rewrite Dz in Bz.
    assert (P2 : 0 < 2 ^ (E + 149)) by (apply Z.pow_pos_nonneg; lia).
    destruct (E <=? 104) eqn:L; [apply Z.leb_le in L; left | apply Z.leb_gt in L; right].
    + split.
      * unfold huge. apply Z.lt_le_trans with (2 ^ (d + (e - E)) * 2 ^ (E + 149)); [nia|].
        rewrite <- pow2_split by lia. apply Z.pow_le_mono_r; lia.
      * exists mz, E. split; [reflexivity|]. split; [|reflexivity].
        apply valid_of_bounds; lia.
    + split; [|reflexivity].
      unfold huge. apply Z.le_trans with (2 ^ (d + (e - E) - 1) * 2 ^ (E + 149)); [|nia].
      rewrite <- pow2_split by lia. apply Z.pow_le_mono_r; lia.
  - (* the low bits are rounded away *)
    assert (E24 : E = d + e - 24) by lia.
    rewrite shl_align_id by lia.
    unfold binary_round_aux, shr_fexp. fold d. fold E.
    destruct (shr (shr_record_of_loc (Z.pos m) loc_Exact) e (E - e)) as [mrs e'] eqn:S1.
    destruct (shr_exact_spec (Z.pos m) e (E - e) mrs e' ltac:(lia) ltac:(lia) S1)
      as (-> & M0 & M1).
    rewrite M1. replace (e + (E - e)) with E by lia.
    pose proof (rne_bounds (Z.pos m) (E - e) ltac:(lia) ltac:(lia)) as RB.
    assert (RS : rne v (E + 149) = rne (Z.pos m) (E - e)).
    { unfold v. replace (E + 149) with ((E - e) + (e + 149)) by lia.
      apply rne_scale; lia. }
    rewrite RS. set (r := rne (Z.pos m) (E - e)) in *.
    assert (F : 2 ^ 23 <= Z.pos m / 2 ^ (E - e) < 2 ^ 24).
    { assert (P1 : 0 < 2 ^ (E - e)) by (apply Z.pow_pos_nonneg; lia).
      replace d with (24 + (E - e)) in Bm by lia.
      replace (24 + (E - e) - 1) with (23 + (E - e)) in Bm by lia.
      rewrite !pow2_split in Bm by lia. split.
      - apply Z.div_le_lower_bound; lia.
      - apply Z.div_lt_upper_bound; lia. }
    assert (P2 : 0 < 2 ^ (E + 149)) by (apply Z.pow_pos_nonneg; lia).
    destruct (Z.eq_dec r (2 ^ 24)) as [T|T].
    + (* the carry reaches a new place *)
      rewrite T. change (Zdigits2 (2 ^ 24)) with 25.
      replace (fexp F32.prec F32.emax (25 + E) - E) with 1 by (rewrite fexp32; lia).
      cbn [shr shr_record_of_loc SpecFloat.iter_pos shr_1 shr_m]. change (2 ^ 24) with 16777216.
      cbn [shr_1 shr_m].
      destruct (E + 1 <=? F32.emax - F32.prec) eqn:L;
        [apply Z.leb_le in L; left | apply Z.leb_gt in L; right];
        unfold F32.emax, F32.prec in L.
      * split.
        -- unfold huge. change 16777216 with (2 ^ 24). rewrite <- pow2_split by lia.
           apply Z.pow_lt_mono_r; lia.
        -- exists 8388608%positive, (E + 1). split; [reflexivity|]. split.
           ++ apply valid_of_bounds; [lia|cbn; lia|reflexivity].
           ++ replace (E + 1 + 149) with (1 + (E + 149)) by lia.
              rewrite pow2_split by lia. change (2 ^ 1) with 2. lia.
      * split; [|reflexivity].
        unfold huge. change 16777216 with (2 ^ 24). rewrite <- pow2_split by lia.
        apply Z.pow_le_mono_r; lia.
    + assert (Rr : 2 ^ 23 <= r < 2 ^ 24) by lia.
      assert (Dr : Zdigits2 r = 24) by (apply digits_unique; [lia|exact Rr]).
      rewrite Dr. replace (fexp F32.prec F32.emax (24 + E) - E) with 0 by (rewrite fexp32; lia).
      cbn [shr shr_record_of_loc shr_m].
      destruct r as [|M|M] eqn:Er; try lia.
      destruct (E <=? F32.emax - F32.prec) eqn:L;
        [apply Z.leb_le in L; left | apply Z.leb_gt in L; right];
        unfold F32.emax, F32.prec in L.
      * split.
        -- unfold huge. apply Z.lt_le_trans with (2 ^ 24 * 2 ^ (E + 149)); [nia|].
           rewrite <- pow2_split by lia. apply Z.pow_le_mono_r; lia.
        -- exists M, E. split; [reflexivity|]. split; [|reflexivity].
           apply valid_of_bounds; lia.
      * split; [|reflexivity].
        unfold huge. apply Z.le_trans with (2 ^ 23 * 2 ^ (E + 149)); [|nia].
        rewrite <- pow2_split by lia. apply Z.pow_le_mono_r; lia.
Qed.

(** ** Rounding is monotone *)

Lemma rne_mono m1 m2 n : 0 <= m1 <= m2 -> 0 <= n -> rne m1 n <= rne m2 n.
Proof.
  intros Hm Hn.
  assert (P : 0 < 2 ^ n) by (apply Z.pow_pos_nonneg; lia).
  pose proof (rne_bounds m1 n ltac:(lia) Hn) as B1.
  pose proof (rne_bounds m2 n ltac:(lia) Hn) as B2.
  assert (F : m1 / 2 ^ n <= m2 / 2 ^ n) by (apply Z.div_le_mono; lia).
  destruct (Z.eq_dec (m1 / 2 ^ n) (m2 / 2 ^ n)) as [E|E]; [|lia].
  pose proof (Z.div_mod m1 (2 ^ n) ltac:(lia)) as D1.
  pose proof (Z.div_mod m2 (2 ^ n) ltac:(lia)) as D2.
  pose proof (Z.mod_pos_bound m1 (2 ^ n) P) as R1.
  pose proof (Z.mod_pos_bound m2 (2 ^ n) P) as R2.
  assert (R : m1 mod 2 ^ n <= m2 mod 2 ^ n) by nia.
  unfold rne, shifted_out, ratio_loc, round_nearest_even. rewrite <- E.
  destruct (Z.eqb_spec (m1 mod 2 ^ n) 0) as [Z1|Z1];
    destruct (Z.eqb_spec (m2 mod 2 ^ n) 0) as [Z2|Z2]; try lia;
    repeat match goal with
    | |- context [?a ?= ?b] => destruct (Z.compare_spec a b)
    end; try lia; destruct (Z.even (m1 / 2 ^ n)); lia.
Qed.

Lemma digits_mono v1 v2 : 0 < v1 <= v2 -> Zdigits2 v1 <= Zdigits2 v2.
Proof.
  intros H. pose proof (digits_bounds v1 ltac:(lia)) as [L1 U1].
  pose proof (digits_bounds v2 ltac:(lia)) as [L2 U2].
  pose proof (digits_pos v1 ltac:(lia)). pose proof (digits_pos v2 ltac:(lia)).
  destruct (Z.le_gt_cases (Zdigits2 v1) (Zdigits2 v2)) as [|C]; [trivial|exfalso].
  assert (2 ^ Zdigits2 v2 <= 2 ^ (Zdigits2 v1 - 1)) by (apply Z.pow_le_mono_r; lia). lia.
Qed.

Lemma round_units_zero : round_units 0 = 0.
Proof. reflexivity. Qed.

Lemma round_units_nonneg v : 0 <= v -> 0 <= round_units v.
Proof.
  intros H. unfold round_units. set (n := Z.max _ 0). assert (0 <= n) by lia.
  pose proof (rne_bounds v n H ltac:(lia)). 
  assert (0 <= v / 2 ^ n) by (apply Z.div_pos; [lia|apply Z.pow_pos_nonneg; lia]).
  apply Z.mul_nonneg_nonneg; [lia|]. apply Z.pow_nonneg. lia.
Qed.

(** Rounding keeps the order. *)
Lemma round_units_mono v1 v2 : 0 <= v1 <= v2 -> round_units v1 <= round_units v2.
Proof.
  intros [H1 H2]. destruct (Z.eq_dec v1 0) as [->|N1].
  { rewrite round_units_zero. apply round_units_nonneg. lia. }
  pose proof (digits_mono v1 v2 ltac:(lia)) as Dm.
  pose proof (digits_bounds v1 ltac:(lia)) as [L1 U1].
  pose proof (digits_bounds v2 ltac:(lia)) as [L2 U2].
  pose proof (digits_pos v1 ltac:(lia)) as P1. pose proof (digits_pos v2 ltac:(lia)) as P2.
  unfold round_units.
  set (d1 := Zdigits2 v1) in *. set (d2 := Zdigits2 v2) in *.
  set (n1 := Z.max (d1 - 24) 0). set (n2 := Z.max (d2 - 24) 0).
  assert (Q1 : 0 < 2 ^ n1) by (apply Z.pow_pos_nonneg; lia).
  assert (Q2 : 0 < 2 ^ n2) by (apply Z.pow_pos_nonneg; lia).
  destruct (Z.eq_dec n1 n2) as [E|E].
  - rewrite <- E. apply Z.mul_le_mono_nonneg_r; [lia|]. apply rne_mono; lia.
  - assert (n1 < n2 /\ n2 = d2 - 24 /\ d1 < d2) as (Hn & E2 & Hd) by lia.
    pose proof (rne_bounds v1 n1 ltac:(lia) ltac:(lia)) as B1.
    pose proof (rne_bounds v2 n2 ltac:(lia) ltac:(lia)) as B2.
    apply Z.le_trans with (2 ^ d1).
    + assert (v1 / 2 ^ n1 < 2 ^ (d1 - n1)).
      { apply Z.div_lt_upper_bound; [lia|]. rewrite <- pow2_split by lia.
        replace (n1 + (d1 - n1)) with d1 by lia. lia. }
      replace (2 ^ d1) with (2 ^ (d1 - n1) * 2 ^ n1)
        by (rewrite <- pow2_split by lia; f_equal; lia).
      apply Z.mul_le_mono_nonneg_r; lia.
    + apply Z.le_trans with (2 ^ (d2 - 1)); [apply Z.pow_le_mono_r; lia|].
      assert (2 ^ 23 <= v2 / 2 ^ n2).
      { apply Z.div_le_lower_bound; [lia|]. rewrite Z.mul_comm, <- pow2_split by lia.
        replace (23 + n2) with (d2 - 1) by lia. lia. }
      replace (2 ^ (d2 - 1)) with (2 ^ 23 * 2 ^ n2)
        by (rewrite <- pow2_split by lia; f_equal; lia).
      apply Z.mul_le_mono_nonneg_r; lia.
Qed.

(** A float is its own nearest float. *)
Lemma round_units_valid s m e :
  valid_float (S754_finite s m e) ->
  round_units (Z.pos m * 2 ^ (e + 149)) = Z.pos m * 2 ^ (e + 149).
Proof.
  intros V. destruct (valid_finite_bounds _ _ _ V) as (He & U & L).
  pose proof (digits_pos (Z.pos m) ltac:(lia)) as Pd.
  assert (D : Zdigits2 (Z.pos m) <= 24).
  { pose proof (digits_bounds (Z.pos m) ltac:(lia)) as [Lb _].
    destruct (Z.le_gt_cases (Zdigits2 (Z.pos m)) 24) as [|C]; [trivial|exfalso].
    assert (2 ^ 24 <= 2 ^ (Zdigits2 (Z.pos m) - 1)) by (apply Z.pow_le_mono_r; lia). lia. }
  assert (D' : -149 < e -> Zdigits2 (Z.pos m) = 24).
  { intros C. apply digits_unique; [lia|]. specialize (L C). change (24 - 1) with 23. lia. }
  unfold round_units. rewrite digits_shift by lia.
  set (n := Z.max _ 0).
  assert (Hn : 0 <= n <= e + 149) by lia.
  assert (M : (Z.pos m * 2 ^ (e + 149)) mod 2 ^ n = 0).
  { replace (e + 149) with ((e + 149 - n) + n) by lia. rewrite pow2_split by lia.
    rewrite Z.mul_assoc. apply Z.mod_mul. apply Z.pow_nonzero; lia. }
  rewrite rne_exact by (trivial; lia).
  pose proof (Z.div_mod (Z.pos m * 2 ^ (e + 149)) (2 ^ n) ltac:(apply Z.pow_nonzero; lia)).
  lia.
Qed.

(** The difference of two floats [a <= x], rounded. *)
Lemma sub_round x a :
  valid_float x -> valid_float a -> finite_or_zero x -> finite_or_zero a ->
  units a <= units x ->
  (round_units (units x - units a) < huge
   /\ valid_float (F32.sub x a) /\ finite_or_zero (F32.sub x a)
   /\ units (F32.sub x a) = round_units (units x - units a))
  \/ (huge <= round_units (units x - units a) /\ F32.sub x a = S754_infinity false).
Proof.
  intros Vx Va Fx Fa H.
  assert (small : forall s m e, valid_float (S754_finite s m e) ->
                                Z.pos m * 2 ^ (e + 149) < huge).
  { intros s m e V. destruct (valid_finite_bounds _ _ _ V) as (He & U & _).
    unfold huge. apply Z.lt_le_trans with (2 ^ 24 * 2 ^ (e + 149)).
    - apply Z.mul_lt_mono_pos_r; [apply Z.pow_pos_nonneg; lia|lia].
    - rewrite <- pow2_split by lia. apply Z.pow_le_mono_r; lia. }
  destruct x as [sx| | |sx mx ex], a as [sa| | |sa ma ea]; try contradiction.
  - left. cbn [units]. rewrite Z.sub_diag, round_units_zero.
    split; [reflexivity|]. now destruct sx, sa.
  - left. cbn [units] in *. destruct (valid_finite_bounds _ _ _ Va) as (He & _).
    destruct (units_pos ma ea) as [P|P]; [|lia].
    destruct sa; cbn [cond_Zopp] in *; [|lia].
    rewrite Z.sub_0_l, Z.opp_involutive, (round_units_valid true) by trivial.
    split; [now apply (small true)|]. cbn. split; [exact Va|]. split; [trivial|reflexivity].
  - left. cbn [units] in *. destruct (valid_finite_bounds _ _ _ Vx) as (He & _).
    destruct (units_pos mx ex) as [P|P]; [|lia].
    destruct sx; cbn [cond_Zopp] in *; [lia|].
    rewrite Z.sub_0_r, (round_units_valid false) by trivial.
    split; [now apply (small false)|]. cbn. split; [exact Vx|]. split; [trivial|reflexivity].
  - destruct (valid_finite_bounds _ _ _ Vx) as (Ex & _).
    destruct (valid_finite_bounds _ _ _ Va) as (Ea & _).
    destruct (sub_finite sx mx ex sa ma ea) as (n & -> & Hn); try lia.
    set (D := units (S754_finite sx mx ex) - units (S754_finite sa ma ea)) in *.
    assert (P : 0 < 2 ^ (Z.min ex ea + 149)) by (apply Z.pow_pos_nonneg; lia).
    assert (0 <= n) by nia.
    destruct n as [|p|p]; [| |lia].
    + left. replace D with 0 by lia. rewrite round_units_zero.
      split; [reflexivity|]. cbn. now split.
    + cbn [binary_normalize].
      destruct (binary_round_units p (Z.min ex ea) ltac:(lia)) as [(Hs & M & E & -> & V & U)|(Hh & ->)];
        rewrite Hn in *.
      * left. split; [trivial|]. split; [trivial|]. split; [exact I|]. exact U.
      * right. now split.
Qed.

(** ** A quotient of at most one *)

Lemma shr_1_m mrs : 0 <= shr_m mrs -> shr_m (shr_1 mrs) = shr_m mrs / 2.
Proof.
  destruct mrs as [q r s]. cbn [shr_m]. intros H.
  destruct q as [|[p|p|]|p]; try lia; cbn [shr_1 shr_m].
  - reflexivity.
  - rewrite Pos2Z.inj_xI. apply Z.div_unique with 1; lia.
  - rewrite Pos2Z.inj_xO. apply Z.div_unique with 0; lia.
  - reflexivity.
Qed.

Lemma shr_iter_m mrs (n : nat) :
  0 <= shr_m mrs -> shr_m (Nat.iter n shr_1 mrs) = shr_m mrs / 2 ^ Z.of_nat n.
Proof.
  intros H. induction n as [|n IH].
  - cbn. now rewrite Z.div_1_r.
  - change (Nat.iter (S n) shr_1 mrs) with (shr_1 (Nat.iter n shr_1 mrs)). rewrite shr_1_m.
    + rewrite IH, Nat2Z.inj_succ, Z.pow_succ_r by lia.
      rewrite Z.div_div by (try lia; apply Z.pow_pos_nonneg; lia). f_equal. lia.
    + rewrite IH. apply Z.div_pos; [lia|apply Z.pow_pos_nonneg; lia].
Qed.

Lemma shr_m_spec mrs e n mrs' e' :
  0 <= shr_m mrs -> shr mrs e n = (mrs', e') ->
  e' = e + Z.max n 0 /\ shr_m mrs' = shr_m mrs / 2 ^ Z.max n 0.
Proof.
  intros H. unfold shr. destruct n as [|p|p]; intros [= <- <-].
  - cbn. rewrite Z.div_1_r. lia.
  - rewrite iter_pos_nat, shr_iter_m, positive_nat_Z by trivial.
    replace (Z.max (Z.pos p) 0) with (Z.pos p) by lia. now split.
  - replace (Z.max (Z.neg p) 0) with 0 by lia. cbn. rewrite Z.div_1_r. lia.
Qed.

Lemma round_nearest_even_bounds x l : x <= round_nearest_even x l <= x + 1.
Proof. unfold round_nearest_even. destruct l as [|[]]; try lia. destruct (Z.even x); lia. Qed.

Lemma shr_record_m q l : shr_m (shr_record_of_loc q l) = q.
Proof. now destruct l as [|[]]. Qed.

Lemma digits_le v j : 0 <= v < 2 ^ j -> 0 <= j -> Zdigits2 v <= j.
Proof.
  intros [L U] Hj. destruct (Z.eq_dec v 0) as [->|N]; [cbn; lia|].
  pose proof (digits_bounds v ltac:(lia)) as [Lb _].
  pose proof (digits_pos v ltac:(lia)).
  destruct (Z.le_gt_cases (Zdigits2 v) j) as [|C]; [trivial|exfalso].
  assert (2 ^ j <= 2 ^ (Zdigits2 v - 1)) by (apply Z.pow_le_mono_r; lia). lia.
Qed.

(** What [binary_round_aux] gives for a mantissa below [2^-e], [e <= -24]:
    a float of at most one. *)
Lemma round_aux_le_one q e l :
  0 <= q -> e <= -24 -> q + 1 <= 2 ^ (- e) ->
  let r := binary_round_aux F32.prec F32.emax false q e l in
  F32.ltb (F32.of_Z 1) r = false /\ is_nan r = false.
Proof.
  intros Hq He Hb. unfold binary_round_aux, shr_fexp.
  destruct (shr (shr_record_of_loc q l) e _) as [mrs1 e1] eqn:S1.
  apply shr_m_spec in S1; [|rewrite shr_record_m; lia]. rewrite shr_record_m in S1.
  destruct S1 as [-> M0].
  set (n1 := Z.max (fexp F32.prec F32.emax (Zdigits2 q + e) - e) 0) in *.
  pose proof (round_nearest_even_bounds (shr_m mrs1) (loc_of_shr_record mrs1)) as RB.
  set (M1 := round_nearest_even (shr_m mrs1) (loc_of_shr_record mrs1)) in *.
  rewrite M0 in RB.
  assert (Dq : Zdigits2 q <= - e) by (apply digits_le; lia).
  assert (Hn1 : 0 <= n1 /\ e + n1 <= -24) by (unfold n1; rewrite fexp32; lia).
  set (E1 := e + n1) in *.
  assert (P1 : 0 < 2 ^ n1) by (apply Z.pow_pos_nonneg; lia).
  assert (Q0 : 0 <= q / 2 ^ n1) by (apply Z.div_pos; lia).
  assert (B1 : 0 <= M1 /\ M1 <= 2 ^ (- E1)).
  { split; [lia|].
    assert (q / 2 ^ n1 < 2 ^ (- E1)); [|lia].
    apply Z.div_lt_upper_bound; [lia|]. rewrite <- pow2_split by lia.
    replace (n1 + - E1) with (- e) by lia. lia. }
  destruct (shr (shr_record_of_loc M1 loc_Exact) E1 _) as [mrs2 e2] eqn:S2.
  apply shr_m_spec in S2; [|rewrite shr_record_m; lia]. rewrite shr_record_m in S2.
  destruct S2 as [-> M2].
  set (n2 := Z.max (fexp F32.prec F32.emax (Zdigits2 M1 + E1) - E1) 0) in *.
  assert (D1 : Zdigits2 M1 <= - E1 + 1).
  { apply digits_le; [|lia]. rewrite pow2_split by lia. change (2 ^ 1) with 2. lia. }
  assert (Hn2 : 0 <= n2 /\ E1 + n2 <= -23) by (unfold n2; rewrite fexp32; lia).
  set (E2 := E1 + n2) in *.
  assert (P2 : 0 < 2 ^ n2) by (apply Z.pow_pos_nonneg; lia).
  assert (B2 : 0 <= shr_m mrs2 /\ shr_m mrs2 <= 2 ^ (- E2)).
  { rewrite M2. split; [apply Z.div_pos; lia|].
    apply Z.div_le_upper_bound; [lia|]. rewrite <- pow2_split by lia.
    replace (n2 + - E2) with (- E1) by lia. lia. }
  destruct (shr_m mrs2) as [|m|m]; [now split| |lia].
  replace (E2 <=? F32.emax - F32.prec) with true
    by (symmetry; apply Z.leb_le; unfold F32.emax, F32.prec; lia).
  split; [|reflexivity].
  change (F32.of_Z 1) with (S754_finite false 8388608 (-23)).
  unfold F32.ltb, SFltb, SFcompare.
  destruct (Z.compare_spec (-23) E2) as [<-|C|C]; [|lia|reflexivity].
  change (Pos.compare_cont Eq 8388608 m) with (Z.pos 8388608 ?= Z.pos m).
  change (2 ^ (- -23)) with (Z.pos 8388608) in B2.
  destruct (Z.compare_spec (Z.pos 8388608) (Z.pos m)); try reflexivity. lia.
Qed.

Lemma div_eucl_spec a b q r :
  0 <= a -> 0 < b -> Z.div_eucl a b = (q, r) -> q = a / b /\ r = a mod b.
Proof. intros Ha Hb E. unfold Z.div, Z.modulo. now rewrite E. Qed.

(** The quotient of two floats [0 <= n <= d], [0 < d]. *)
Lemma div_le_one n d :
  valid_float n -> valid_float d -> finite_or_zero n -> finite_or_zero d ->
  0 <= units n -> 0 < units d -> units n <= units d ->
  F32.ltb (F32.of_Z 1) (F32.div n d) = false /\ is_nan (F32.div n d) = false.
Proof.
  intros Vn Vd Fn Fd Hn Hd H.
  destruct d as [sd| | |sd md ed]; try contradiction; [cbn in Hd; lia|].
  destruct (valid_finite_bounds _ _ _ Vd) as (Ed & Ud & _).
  destruct sd; [cbn in Hd; lia|]. cbn [units cond_Zopp] in *.
  destruct n as [sn| | |sn mn en]; try contradiction; [now destruct sn|].
  destruct (valid_finite_bounds _ _ _ Vn) as (En & Un & _).
  destruct (units_pos mn en) as [Pn|Pn]; [|lia].
  destruct sn; cbn [units cond_Zopp] in *; [lia|].
  destruct (Z.eq_dec (Z.pos mn * 2 ^ (en + 149)) (Z.pos md * 2 ^ (ed + 149))) as [E|N].
  - (* the same float *)
    pose proof (units_compare_pos mn en md ed Vn Vd) as C.
    rewrite E, Z.compare_refl in C.
    assert (en = ed /\ mn = md) as [-> ->].
    { destruct (Z.compare_spec en ed); try discriminate. split; [trivial|].
      now apply Pos.compare_eq. }
    rewrite div_self_is_one. now split.
  - assert (L : Z.pos mn * 2 ^ (en + 149) < Z.pos md * 2 ^ (ed + 149)) by lia.
    clear H N.
    unfold F32.div, SFdiv, SFdiv_core_binary. cbn [xorb].
    set (d1 := Zdigits2 (Z.pos mn)). set (d2 := Zdigits2 (Z.pos md)).
    set (e' := Z.min (fexp F32.prec F32.emax (d1 + en - (d2 + ed))) (en - ed)).
    pose proof (digits_bounds (Z.pos mn) ltac:(lia)) as [L1 _].
    pose proof (digits_bounds (Z.pos md) ltac:(lia)) as [_ U2].
    fold d1 in L1. fold d2 in U2.
    pose proof (digits_pos (Z.pos mn) ltac:(lia)) as P1. fold d1 in P1.
    pose proof (digits_pos (Z.pos md) ltac:(lia)) as P2. fold d2 in P2.
    assert (K : d1 + en - (d2 + ed) <= 0).
    { assert (2 ^ (d1 - 1 + (en + 149)) < 2 ^ (d2 + (ed + 149))).
      { rewrite (pow2_split (d1 - 1) (en + 149)), (pow2_split d2 (ed + 149)) by lia.
        assert (0 < 2 ^ (en + 149)) by (apply Z.pow_pos_nonneg; lia).
        assert (0 < 2 ^ (ed + 149)) by (apply Z.pow_pos_nonneg; lia). nia. }
      apply Z.pow_lt_mono_r_iff in H; lia. }
    assert (He' : e' <= -24 /\ e' <= en - ed) by (unfold e'; rewrite fexp32; lia).
    set (s := en - ed - e'). assert (Hs : 0 <= s) by (unfold s; lia).
    set (m' := match s with 0 => Z.pos mn | Z.pos _ => Z.shiftl (Z.pos mn) s | Z.neg _ => 0 end).
    assert (Em : m' = Z.pos mn * 2 ^ s).
    { unfold m'. destruct s as [|p|p] eqn:Es; [lia| |lia]. apply Z.shiftl_mul_pow2. lia. }
    assert (Ps : 0 < 2 ^ s) by (apply Z.pow_pos_nonneg; lia).
    assert (Pe : 0 < 2 ^ (- e')) by (apply Z.pow_pos_nonneg; lia).
    assert (Lm : m' < Z.pos md * 2 ^ (- e')).
    { assert (X : 0 < 2 ^ (en + 149)) by (apply Z.pow_pos_nonneg; lia).
      assert (T : 2 ^ (- e') * 2 ^ (en + 149) = 2 ^ s * 2 ^ (ed + 149)).
      { rewrite <- !pow2_split by lia. f_equal. unfold s. lia. }
      rewrite Em. apply Z.mul_lt_mono_pos_r with (2 ^ (en + 149)); [exact X|].
      rewrite <- (Z.mul_assoc (Z.pos md)), T. nia. }
    destruct (Z.div_eucl m' (Z.pos md)) as [q r] eqn:Q.
    apply div_eucl_spec in Q; [|lia|lia]. destruct Q as [-> ->].
    apply round_aux_le_one; [apply Z.div_pos; lia|lia|].
    assert (m' / Z.pos md < 2 ^ (- e')); [|lia].
    apply Z.div_lt_upper_bound; lia.
Qed.

(** ** [unlerp] between the ends of the range *)

Lemma sub_finite_operands b a s m e :
  F32.sub b a = S754_finite s m e -> finite_or_zero b /\ finite_or_zero a.
Proof.
  destruct b as [sb|sb| |sb mb eb], a as [sa|sa| |sa ma ea]; cbn;
    try discriminate; try (now split);
    repeat match goal with s : bool |- _ => destruct s end; discriminate.
Qed.

Lemma between_finite a b x :
  finite_or_zero a -> finite_or_zero b -> is_nan x = false -> fle a x -> fle x b ->
  finite_or_zero x.
Proof.
  intros Fa Fb Nx H1 H2. unfold fle in *.
  destruct x as [sx|[]| |sx mx ex]; try discriminate; try exact I.
  - destruct a as [sa| | |[] ma ea]; try contradiction; discriminate.
  - destruct b as [sb| | |[] mb eb]; try contradiction; discriminate.
Qed.

Lemma finite_no_infinity x : finite_or_zero x -> forall s, x <> S754_infinity s.
Proof. now destruct x. Qed.

Lemma finite_no_nan x : finite_or_zero x -> is_nan x = false.
Proof. now destruct x. Qed.

(** Over a range whose width is a finite non-zero float, a value between
    the ends is remapped to a number from 0 to 1. *)
Lemma unlerp_unit_interval a b x s m e :
  valid_float a -> valid_float b -> valid_float x -> is_nan x = false ->
  fle a x -> fle x b ->
  F32.sub b a = S754_finite s m e ->
  is_nan (unlerp a b x) = false
  /\ F32.ltb (unlerp a b x) (S754_zero false) = false
  /\ F32.ltb (F32.of_Z 1) (unlerp a b x) = false.
Proof.
  intros Va Vb Vx Nx Hax Hxb W.
  destruct (sub_finite_operands _ _ _ _ _ W) as [Fb Fa].
  pose proof (between_finite _ _ _ Fa Fb Nx Hax Hxb) as Fx.
  pose proof (fle_units x a Vx Va (finite_no_infinity _ Fx) (finite_no_infinity _ Fa)
                (finite_no_nan _ Fx) (finite_no_nan _ Fa) Hax) as Uax.
  pose proof (fle_units b x Vb Vx (finite_no_infinity _ Fb) (finite_no_infinity _ Fx)
                (finite_no_nan _ Fb) (finite_no_nan _ Fx) Hxb) as Uxb.
  destruct (sub_round b a Vb Va Fb Fa ltac:(lia)) as [(Sd & Vd & Fd & Ud)|(_ & Id)];
    [|rewrite W in Id; discriminate].
  pose proof (round_units_mono (units x - units a) (units b - units a) ltac:(lia)) as Mono.
  destruct (sub_round x a Vx Va Fx Fa Uax) as [(Sn & Vn & Fn & Un)|(Hh & _)]; [|lia].
  pose proof (round_units_nonneg (units x - units a) ltac:(lia)) as Pn.
  assert (Pd : 0 < units (F32.sub b a)).
  { pose proof (round_units_nonneg (units b - units a) ltac:(lia)) as P.
    rewrite <- Ud in P. rewrite W in P |- *. rewrite W in Vd.
    destruct (valid_finite_bounds _ _ _ Vd) as (He & _).
    destruct (units_pos m e) as [Q|Q]; [|lia].
    destruct s; cbn [units cond_Zopp] in *; lia. }
  unfold unlerp.
  destruct (div_le_one (F32.sub x a) (F32.sub b a) Vn Vd Fn Fd) as [L1 L2]; try lia.
  split; [exact L2|]. split; [|exact L1].
  apply not_negative_ltb, div_not_negative.
  - now apply sub_not_negative.
  - rewrite W in Pd |- *. destruct s; [|reflexivity].
    rewrite W in Vd. destruct (valid_finite_bounds _ _ _ Vd) as (He & _).
    destruct (units_pos m e) as [Q|Q]; [|lia]. cbn [units cond_Zopp] in Pd. lia.
Qed.

(** ** The slots after a run *)

Lemma extremum_feq le m m' l :
  (forall a b c, is_nan b = false -> le a b -> le b c -> le a c) ->
  (forall a b, feq a b -> le a b) ->
  feq m m' -> extremum le m' l -> extremum le m l.
Proof.
  intros T F E (N & Lo & At). destruct (feq_not_nan _ _ E) as [Nm _].
  repeat split; trivial.
  - eapply Forall_impl; [exact Lo|]. intros x Hx. apply T with m'; auto.
  - eapply Exists_impl; [exact At|]. intros x Hx. now apply feq_trans with m'.
Qed.

(** The reported range summarises the samples of the lattice and the two
    initial values. *)
Lemma reported_range sch1 sch2 extents f r0 buf st r buf' :
  fits_int extents -> (forall c, is_nan (f c) = false) ->
  sampleVolume sch1 sch2 extents f r0 buf = Some (st, r, buf') ->
  summarises r (F32.numeric_limits_max :: (f <$> cells (lattice extents)))
               (F32.numeric_limits_min :: (f <$> cells (lattice extents))).
Proof.
  intros H Hf R.
  pose proof (sampleVolume_range _ _ _ _ _ _ _ _ _ H Hf R) as [E1 E2].
  assert (Hn : no_nan (f <$> cells (lattice extents))).
  { apply Forall_fmap, Forall_forall. intros c _. apply Hf. }
  pose proof (accumulate_summarises ValueRange _ eq_refl eq_refl Hn) as [S1 S2].
  cbn [ValueRange m_min m_max] in S1, S2. split.
  - apply (extremum_feq fle _ _ _ fle_trans (fun a b E => proj1 (feq_fle a b E)) E1 S1).
  - apply (extremum_feq fge _ _ _ (@le_trans fge std_max _) (@feq_le fge std_max _) E2 S2).
Qed.

Lemma feq_valid a y : feq a y -> valid_float y -> valid_float a.
Proof.
  intros E V. destruct (feq_cases _ _ E) as [-> | (s & s' & -> & _)]; [exact V|reflexivity].
Qed.

(** The facts about a run that the bounds on its slots rest on. *)
Lemma run_facts sch1 sch2 extents f r0 buf st r buf' :
  fits_int extents -> (forall c, valid_float (f c)) -> (forall c, is_nan (f c) = false) ->
  sampleVolume sch1 sch2 extents f r0 buf = Some (st, r, buf') ->
  valid_float (getMin r) /\ valid_float (getMax r)
  /\ fle (getMin r) (getMax r)
  /\ F32.ltb (S754_zero false) (getMax r) = true
  /\ (forall c, in_box (lattice extents) c -> fle (getMin r) (f c) /\ fle (f c) (getMax r))
  /\ (forall c k, in_box (lattice extents) c -> 0 <= k < 4 ->
        buf' !! Z.to_nat (flat_offset extents c + k)
        = Some (unlerp (getMin r) (getMax r) (f c))).
Proof.
  intros H Vf Hf R.
  destruct (reported_range _ _ _ _ _ _ _ _ _ H Hf R) as [S1 S2].
  assert (Hin : forall c, in_box (lattice extents) c -> f c ∈ f <$> cells (lattice extents)).
  { intros c Hc. apply samples_of_lattice. eauto. }
  assert (Vl : forall y, y ∈ f <$> cells (lattice extents) -> valid_float y).
  { intros y Hy. apply samples_of_lattice in Hy. destruct Hy as (c & _ & ->). apply Vf. }
  assert (B : forall c, in_box (lattice extents) c ->
                        fle (getMin r) (f c) /\ fle (f c) (getMax r)).
  { intros c Hc. split.
    - apply (extremum_bound (le := fle) _ _ _ S1). right. now apply Hin.
    - apply (extremum_bound (le := fge) _ _ _ S2). right. now apply Hin. }
  destruct (lattice_fits _ H) as (L & _).
  assert (Hc0 : in_box (lattice extents) (mkCoord 0 0 0)).
  { rewrite L. unfold in_box, fits_int in *. simpl. lia. }
  assert (Hb : fle F32.numeric_limits_min (getMax r)).
  { apply (extremum_bound (le := fge) _ _ _ S2). left. }
  assert (Nb : is_nan (getMax r) = false) by apply S2.
  split_and!; trivial.
  - destruct (extremum_attained (le := fle) _ _ S1) as (y & Hy & Ey).
    apply (feq_valid _ _ Ey). apply elem_of_cons in Hy. destruct Hy as [-> | Hy]; [reflexivity|].
    now apply Vl.
  - destruct (extremum_attained (le := fge) _ _ S2) as (y & Hy & Ey).
    apply (feq_valid _ _ Ey). apply elem_of_cons in Hy. destruct Hy as [-> | Hy]; [reflexivity|].
    now apply Vl.
  - destruct (B _ Hc0). apply fle_trans with (f (mkCoord 0 0 0)); trivial.
  - now apply lt_le_trans with F32.numeric_limits_min.
  - assert (Hlen : cx extents * cy extents * cz extents * 4 <= Z.of_nat (length buf)).
    { apply (sampleVolume_some_fits sch1 sch2 extents f r0); [trivial|]. rewrite R. eauto. }
    destruct (sampleVolume_run sch1 sch2 extents f r0 buf H Hlen) as (r1 & b & R1 & _ & S & _).
    rewrite R in R1. injection R1 as _ <- <-. exact S.
Qed.

(** The slots of the lattice after a run over a field of floats without
    NaN. *)
Lemma sampleVolume_slots_bounds sch1 sch2 extents f r0 buf st r buf' j :
  fits_int extents -> (forall c, valid_float (f c)) -> (forall c, is_nan (f c) = false) ->
  sampleVolume sch1 sch2 extents f r0 buf = Some (st, r, buf') ->
  0 <= Z.of_nat j < cx extents * cy extents * cz extents * 4 ->
  exists v,
    buf' !! j = Some v
    /\ F32.ltb v (S754_zero false) = false
    /\ (forall s m e, F32.sub (getMax r) (getMin r) = S754_finite s m e ->
        is_nan v = false /\ F32.ltb (F32.of_Z 1) v = false).
Proof.
  intros H Vf Hf R Hj.
  destruct (run_facts _ _ _ _ _ _ _ _ _ H Vf Hf R) as (Va & Vb & Hab & Pb & B & S).
  destruct (flat_offset_surj extents (Z.of_nat j) H Hj) as (c & k & Hc & Hk & Ej).
  destruct (B c Hc) as [Hax Hxb].
  exists (unlerp (getMin r) (getMax r) (f c)). split.
  - rewrite <- (S c k Hc Hk), <- Ej. now rewrite Nat2Z.id.
  - split; [now apply unlerp_not_negative|].
    intros s m e W.
    destruct (unlerp_unit_interval _ _ _ _ _ _ Va Vb (Vf c) (Hf c) Hax Hxb W) as (N & _ & U).
    now split.
Qed.

(** X19. After a fill from a grid whose samples are floats and no NaN, on
    a non-empty box, no voxel of the lattice holds a number below zero; and
    when [max_value - min_value] of the summary is a finite non-zero float,
    every voxel of the lattice holds a number from 0 to 1, and no NaN. *)
Theorem fill_voxels_in_unit_interval (sch1 sch2 : schedule) (self self' : oiVolume)
    (buf buf' : list float) (j : nat) :
  let grid := m_grid self in
  let extents := mkCoord (width (m_summary self)) (height (m_summary self))
                         (depth (m_summary self)) in
  CoordBBox_empty (getIndexSpaceBoundingBox grid) = false ->
  fits_int extents ->
  (forall p, valid_float (wsSample grid p)) ->
  (forall p, is_nan (wsSample grid p) = false) ->
  fillTextureBuffer sch1 sch2 self (mkData (Some buf)) = Some (self', mkData (Some buf')) ->
  0 <= Z.of_nat j < cx extents * cy extents * cz extents * 4 ->
  exists v,
    buf' !! j = Some v
    /\ F32.ltb v (S754_zero false) = false
    /\ (forall s m e,
          F32.sub (max_value (getSummary self')) (min_value (getSummary self'))
          = S754_finite s m e ->
          is_nan v = false /\ F32.ltb (F32.of_Z 1) v = false).
Proof.
  intros grid extents Hne H Vf Hf R Hj.
  unfold fillTextureBuffer in R. cbn [voxels] in R. fold grid extents in R.
  unfold sampleGrid in R. cbv zeta in R. rewrite Hne in R.
  destruct (sampleVolume sch1 sch2 extents _ ValueRange buf) as [[[st r] b]|] eqn:V;
    cbn [mbind option_bind] in R; [|discriminate].
  injection R as <- <-. cbn [getSummary m_summary min_value max_value].
  eapply sampleVolume_slots_bounds; [exact H| | |exact V|exact Hj].
  - intros c. apply Vf.
  - intros c. apply Hf.
Qed.

Lemma fill_voxels_in_unit_interval_witness :
  match fillTextureBuffer one_thread two_threads
          (volume_of step_grid (mkCoord 2 1 1)) (buffer_of 8) with
  | Some (_, mkData (Some b)) =>
      exists v, b !! 7%nat = Some v /\ F32.ltb v (S754_zero false) = false
  | _ => False
  end.
Proof.
  destruct (fillTextureBuffer one_thread two_threads
              (volume_of step_grid (mkCoord 2 1 1)) (buffer_of 8))
    as [[self' [[b|]]]|] eqn:R.
  - destruct (fill_voxels_in_unit_interval one_thread two_threads
                (volume_of step_grid (mkCoord 2 1 1)) self' (replicate 8 sentinel) b 7)
      as (v & Hv & Hn & _).
    + vm_compute. reflexivity.
    + unfold fits_int. vm_compute. repeat split; discriminate.
    + intros p. cbn. now destruct (SFltb (vx p) F64.half).
    + intros p. cbn. now destruct (SFltb (vx p) F64.half).
    + exact R.
    + vm_compute. split; [discriminate|reflexivity].
    + exists v. split; [exact Hv | exact Hn].
  - apply (f_equal (fun r => match r with
                             | Some (_, mkData (Some _)) => true
                             | _ => false
                             end)) in R.
    vm_compute in R. discriminate.
  - apply (f_equal (fun r => match r with Some _ => true | None => false end)) in R.
    vm_compute in R. discriminate.
Defined.

(** The ends of a range of finite non-zero width are apart. *)
Lemma finite_width_gap a b s m e :
  valid_float a -> valid_float b -> fle a b ->
  F32.sub b a = S754_finite s m e ->
  s = false /\ units a < units b.
Proof.
  intros Va Vb Hab W.
  destruct (sub_finite_operands _ _ _ _ _ W) as [Fb Fa].
  pose proof (fle_units b a Vb Va (finite_no_infinity _ Fb) (finite_no_infinity _ Fa)
                (finite_no_nan _ Fb) (finite_no_nan _ Fa) Hab) as U.
  destruct (sub_round b a Vb Va Fb Fa U) as [(_ & Vd & _ & Ud)|(_ & Id)];
    [|rewrite W in Id; discriminate].
  pose proof (round_units_nonneg (units b - units a) ltac:(lia)) as P.
  rewrite W in Vd, Ud. destruct (valid_finite_bounds _ _ _ Vd) as (He & _).
  destruct (units_pos m e) as [Q|Q]; [|lia].
  destruct s; cbn [units cond_Zopp] in Ud; [lia|]. split; [reflexivity|].
  destruct (Z.eq_dec (units b - units a) 0) as [Z|Z]; [|lia].
  rewrite Z, round_units_zero in Ud. lia.
Qed.

Lemma units_max_float x :
  valid_float x -> finite_or_zero x -> units x <= units F32.numeric_limits_max.
Proof.
  intros V F. destruct x as [sx| | |sx mx ex]; try contradiction; [cbn; lia|].
  destruct (valid_finite_bounds _ _ _ V) as (He & U & _).
  destruct (units_pos mx ex) as [P|P]; [|lia].
  assert (2 ^ (ex + 149) <= 2 ^ 253) by (apply Z.pow_le_mono_r; lia).
  assert (0 < 2 ^ (ex + 149)) by (apply Z.pow_pos_nonneg; lia).
  change (units F32.numeric_limits_max) with ((2 ^ 24 - 1) * 2 ^ 253).
  destruct sx; cbn [units cond_Zopp]; nia.
Qed.

(** X20. After a run over a field of floats without NaN that has a sample
    of at least [numeric_limits<float>::min()], when the width of the
    reported range is a finite non-zero float: the maximum is a sample and
    the slots of a cell that has it hold exactly 1; the minimum is a sample
    and the slots of a cell that has it hold a zero. *)
Theorem extremes_map_to_zero_and_one (sch1 sch2 : schedule) (extents : Coord)
    (f : Vec3i -> float) (r0 : FloatRange) (buf : list float) (st : status)
    (r : FloatRange) (buf' : list float) (s : bool) (m : positive) (e : Z) (c0 : Vec3i) :
  fits_int extents -> (forall c, valid_float (f c)) -> (forall c, is_nan (f c) = false) ->
  sampleVolume sch1 sch2 extents f r0 buf = Some (st, r, buf') ->
  F32.sub (getMax r) (getMin r) = S754_finite s m e ->
  in_box (lattice extents) c0 -> fle F32.numeric_limits_min (f c0) ->
  (exists c, in_box (lattice extents) c /\ feq (f c) (getMax r)
             /\ forall k, 0 <= k < 4 ->
                  buf' !! Z.to_nat (flat_offset extents c + k) = Some (F32.of_Z 1))
  /\ (exists c z, in_box (lattice extents) c /\ feq (f c) (getMin r)
                  /\ forall k, 0 <= k < 4 ->
                       buf' !! Z.to_nat (flat_offset extents c + k) = Some (S754_zero z)).
Proof.
  intros H Vf Hf R W Hc0 Hpos.
  destruct (reported_range _ _ _ _ _ _ _ _ _ H Hf R) as [S1 S2].
  destruct (run_facts _ _ _ _ _ _ _ _ _ H Vf Hf R) as (Va & Vb & Hab & Pb & B & S).
  assert (Hin : forall c, in_box (lattice extents) c -> f c ∈ f <$> cells (lattice extents)).
  { intros c Hc. apply samples_of_lattice. eauto. }
  assert (Nb : is_nan (getMax r) = false) by apply S2.
  assert (Na : is_nan (getMin r) = false) by apply S1.
  destruct (finite_width_gap _ _ _ _ _ Va Vb Hab W) as [-> G].
  destruct (sub_finite_operands _ _ _ _ _ W) as [Fb Fa].
  split.
  - assert (A : exists c, in_box (lattice extents) c /\ feq (getMax r) (f c)).
    { destruct (extremum_attained (le := fge) _ _ S2) as (y & Hy & Ey).
      apply elem_of_cons in Hy. destruct Hy as [-> | Hy].
      - exists c0. split; [trivial|]. apply fle_antisym; trivial.
        + apply fle_trans with F32.numeric_limits_min; trivial.
          now destruct (feq_fle _ _ Ey).
        + now apply B.
      - apply samples_of_lattice in Hy. destruct Hy as (c & Hc & ->). eauto. }
    destruct A as (c & Hc & Ec). exists c. split; [trivial|]. split; [now apply feq_sym|].
    intros k Hk. rewrite (S c k Hc Hk). f_equal.
    destruct (feq_cases _ _ Ec) as [<- | (z & z' & Ez & _)].
    + unfold unlerp. rewrite W. apply div_self_is_one.
    + rewrite Ez in Pb. now destruct z.
  - assert (A : exists c, in_box (lattice extents) c /\ feq (getMin r) (f c)).
    { destruct (extremum_attained (le := fle) _ _ S1) as (y & Hy & Ey).
      apply elem_of_cons in Hy. destruct Hy as [-> | Hy].
      - exfalso. apply feq_finite in Ey. unfold getMin in G. rewrite Ey in G.
        pose proof (units_max_float _ Vb Fb) as Hm. unfold F32.numeric_limits_max in Hm. lia.
      - apply samples_of_lattice in Hy. destruct Hy as (c & Hc & ->). eauto. }
    destruct A as (c & Hc & Ec).
    assert (Z : exists z, unlerp (getMin r) (getMax r) (f c) = S754_zero z).
    { unfold unlerp. rewrite W.
      destruct (feq_cases _ _ Ec) as [<- | (z & z' & -> & ->)].
      - destruct (getMin r) as [z| | |sa ma ea]; try contradiction.
        + exists false. now destruct z.
        + exists false. now rewrite sub_self_is_zero.
      - destruct z, z'; cbn; eauto. }
    destruct Z as (z & Ez). exists c, z. split; [trivial|]. split; [now apply feq_sym|].
    intros k Hk. now rewrite (S c k Hc Hk), Ez.
Qed.

Lemma extremes_map_to_zero_and_one_witness :
  match sampleVolume one_thread two_threads (mkCoord 2 1 1)
          (fun c => if cx c =? 0 then F32.of_Z 3 else F32.of_Z 5) ValueRange
          (replicate 8 sentinel) with
  | Some (_, _, b) => exists c, forall k, 0 <= k < 4 ->
                        b !! Z.to_nat (flat_offset (mkCoord 2 1 1) c + k) = Some (F32.of_Z 1)
  | None => False
  end.
Proof.
  destruct (sampleVolume one_thread two_threads (mkCoord 2 1 1)
              (fun c => if cx c =? 0 then F32.of_Z 3 else F32.of_Z 5) ValueRange
              (replicate 8 sentinel)) as [[[st r] b]|] eqn:R.
  - assert (Er : r = mkRange (F32.of_Z 3) (F32.of_Z 5)).
    { pose proof (f_equal (fmap (fun p => snd (fst p))) R) as R'.
      vm_compute in R'. injection R' as <-. vm_compute. reflexivity. }
    destruct (extremes_map_to_zero_and_one one_thread two_threads (mkCoord 2 1 1)
                (fun c => if cx c =? 0 then F32.of_Z 3 else F32.of_Z 5) ValueRange
                (replicate 8 sentinel) st r b false (2 ^ 23) (-22) (mkCoord 0 0 0))
      as ((c & _ & _ & Hc) & _).
    + unfold fits_int. vm_compute. repeat split; discriminate.
    + intros c. now destruct (cx c =? 0).
    + intros c. now destruct (cx c =? 0).
    + exact R.
    + rewrite Er. vm_compute. reflexivity.
    + vm_compute. repeat split; discriminate.
    + vm_compute. reflexivity.
    + exists c. exact Hc.
  - apply (f_equal (fun r => match r with Some _ => true | None => false end)) in R.
    vm_compute in R. discriminate.
Defined.

(** ** A range that is already from 0 to 1 *)

(** The sign given to [binary_round_aux] is the sign of what it gives. *)
Lemma round_aux_sign s m e l :
  binary_round_aux F32.prec F32.emax s m e l
  = match binary_round_aux F32.prec F32.emax false m e l with
    | S754_zero _ => S754_zero s
    | S754_infinity _ => S754_infinity s
    | S754_nan => S754_nan
    | S754_finite _ m' e' => S754_finite s m' e'
    end.
Proof.
  unfold binary_round_aux.
  destruct (shr_fexp _ _ m e l) as [mrs' e'].
  destruct (shr_fexp _ _ _ e' loc_Exact) as [mrs'' e''].
  destruct (shr_m mrs''); [reflexivity| |reflexivity].
  now destruct (e'' <=? _).
Qed.

(** Two floats for the same number are the same float. *)
Lemma canonical_unique m1 e1 m2 e2 :
  valid_float (S754_finite false m1 e1) -> valid_float (S754_finite false m2 e2) ->
  Z.pos m1 * 2 ^ (e1 + 149) = Z.pos m2 * 2 ^ (e2 + 149) ->
  m1 = m2 /\ e1 = e2.
Proof.
  intros V1 V2 E. pose proof (units_compare_pos m1 e1 m2 e2 V1 V2) as C.
  rewrite E, Z.compare_refl in C.
  destruct (Z.compare_spec e1 e2); try discriminate. split; [|trivial].
  now apply Pos.compare_eq.
Qed.

(** Dividing a float by one gives the float. *)
Lemma div_one s m e :
  valid_float (S754_finite s m e) ->
  F32.div (S754_finite s m e) (F32.of_Z 1) = S754_finite s m e.
Proof.
  intros V. destruct (valid_finite_bounds _ _ _ V) as (He & U & L).
  pose proof (digits_pos (Z.pos m) ltac:(lia)) as Pd.
  pose proof (digits_bounds (Z.pos m) ltac:(lia)) as [Lb Ub].
  assert (D : Zdigits2 (Z.pos m) <= 24).
  { destruct (Z.le_gt_cases (Zdigits2 (Z.pos m)) 24) as [|C]; [trivial|exfalso].
    assert (2 ^ 24 <= 2 ^ (Zdigits2 (Z.pos m) - 1)) by (apply Z.pow_le_mono_r; lia). lia. }
  assert (D' : -149 < e -> Zdigits2 (Z.pos m) = 24).
  { intros C. apply digits_unique; [lia|]. specialize (L C). change (24 - 1) with 23. lia. }
  change (F32.of_Z 1) with (S754_finite false 8388608 (-23)).
  unfold F32.div, SFdiv, SFdiv_core_binary.
  change (Zdigits2 (Z.pos 8388608)) with 24. rewrite xorb_false_r.
  set (d := Zdigits2 (Z.pos m)) in *.
  set (e' := Z.min (fexp F32.prec F32.emax (d + e - (24 + -23))) (e - -23)).
  assert (He' : -149 <= e' <= e /\ fexp F32.prec F32.emax (d + e) = e
                /\ (e' = e \/ e' = e - 1)).
  { unfold e'. rewrite !fexp32. destruct (Z.eq_dec e (-149)) as [->|N]; [lia|].
    rewrite D' by lia. lia. }
  destruct He' as (B' & Ce & J).
  set (j := e - e'). assert (Hj : 0 <= j <= 1) by (unfold j; lia).
  replace (e - -23 - e') with (23 + j) by (unfold j; lia).
  destruct (23 + j) as [|p|p] eqn:Ep; try lia. rewrite <- Ep.
  rewrite Z.shiftl_mul_pow2 by lia. rewrite pow2_split by lia.
  replace (Z.pos m * (2 ^ 23 * 2 ^ j)) with (Z.pos m * 2 ^ j * 8388608)
    by (change (2 ^ 23) with 8388608; ring).
  assert (Q : Z.div_eucl (Z.pos m * 2 ^ j * 8388608) 8388608 = (Z.pos m * 2 ^ j, 0)).
  { pose proof (Z.div_mul (Z.pos m * 2 ^ j) 8388608 ltac:(lia)) as Q1.
    pose proof (Z.mod_mul (Z.pos m * 2 ^ j) 8388608 ltac:(lia)) as Q2.
    unfold Z.div in Q1. unfold Z.modulo in Q2.
    destruct (Z.div_eucl (Z.pos m * 2 ^ j * 8388608) 8388608) as [q r].
    cbn [fst snd] in Q1, Q2. now subst. }
  rewrite Q. change (new_location 8388608 0) with loc_Exact.
  assert (Pj : 0 < Z.pos m * 2 ^ j) by (apply Z.mul_pos_pos; [lia|apply Z.pow_pos_nonneg; lia]).
  destruct (Z.pos m * 2 ^ j) as [|p'|p'] eqn:Ep'; try lia.
  rewrite round_aux_sign.
  assert (Dp : Zdigits2 (Z.pos p') = d + j) by (rewrite <- Ep'; apply digits_shift; lia).
  assert (R : binary_round_aux F32.prec F32.emax false (Z.pos p') e' loc_Exact
              = binary_round F32.prec F32.emax false p' e').
  { unfold binary_round. rewrite shl_align_id; [reflexivity|].
    change (Z.pos (digits2_pos p')) with (Zdigits2 (Z.pos p')). rewrite Dp.
    replace (d + j + e') with (d + e) by (unfold j; lia). lia. }
  rewrite R.
  assert (Ev : Z.pos p' * 2 ^ (e' + 149) = Z.pos m * 2 ^ (e + 149)).
  { rewrite <- Ep', <- Z.mul_assoc, <- pow2_split by lia. do 2 f_equal. unfold j. lia. }
  destruct (binary_round_units p' e' ltac:(lia)) as [(_ & M & E & -> & VM & UM)|(Hh & _)].
  - rewrite Ev, (round_units_valid s) in UM by trivial.
    destruct (canonical_unique M E m e VM V UM) as [-> ->]. reflexivity.
  - exfalso. rewrite Ev, (round_units_valid s) in Hh by trivial.
    assert (Z.pos m * 2 ^ (e + 149) < huge); [|lia].
    unfold huge. apply Z.lt_le_trans with (2 ^ 24 * 2 ^ (e + 149)).
    + apply Z.mul_lt_mono_pos_r; [apply Z.pow_pos_nonneg; lia|lia].
    + rewrite <- pow2_split by lia. apply Z.pow_le_mono_r; lia.
Qed.

(** Over the range from a zero to 1, [unlerp] gives back its argument, up
    to the sign of a zero. *)
Lemma unlerp_unit_range z x :
  valid_float x -> same_number (unlerp (S754_zero z) (F32.of_Z 1) x) x.
Proof.
  intros V. unfold unlerp.
  replace (F32.sub (F32.of_Z 1) (S754_zero z)) with (F32.of_Z 1) by reflexivity.
  destruct x as [sx|sx| |sx mx ex].
  - right. destruct sx, z; cbn; eauto.
  - left. now destruct sx.
  - now left.
  - left. change (F32.sub (S754_finite sx mx ex) (S754_zero z)) with (S754_finite sx mx ex).
    now apply div_one.
Qed.

(** X21. After a run over a field of floats whose reported range is from
    zero to 1, every slot of a cell of the lattice holds the sample of the
    cell itself, up to the sign of a zero: subtracting zero and dividing by
    1 are exact, so the normalisation changes nothing. *)
Theorem unit_range_is_kept (sch1 sch2 : schedule) (extents : Coord)
    (f : Vec3i -> float) (r0 : FloatRange) (buf : list float) (st : status)
    (r : FloatRange) (buf' : list float) (z : bool) (c : Vec3i) (k : Z) :
  fits_int extents -> (forall c, valid_float (f c)) ->
  sampleVolume sch1 sch2 extents f r0 buf = Some (st, r, buf') ->
  getMin r = S754_zero z -> getMax r = F32.of_Z 1 ->
  in_box (lattice extents) c -> 0 <= k < 4 ->
  exists v, buf' !! Z.to_nat (flat_offset extents c + k) = Some v /\ same_number v (f c).
Proof.
  intros H Vf R Ha Hb Hc Hk.
  assert (Hlen : cx extents * cy extents * cz extents * 4 <= Z.of_nat (length buf)).
  { apply (sampleVolume_some_fits sch1 sch2 extents f r0); [trivial|]. rewrite R. eauto. }
  destruct (sampleVolume_run sch1 sch2 extents f r0 buf H Hlen) as (r1 & b & R1 & _ & S & _).
  rewrite R in R1. injection R1 as _ <- <-.
  eexists. split; [now apply S|]. rewrite Ha, Hb. apply unlerp_unit_range, Vf.
Qed.

Lemma unit_range_is_kept_witness :
  match sampleVolume one_thread two_threads (mkCoord 2 1 1)
          (fun c => if cx c =? 0 then F32.of_Z 0 else F32.of_Z 1) ValueRange
          (replicate 8 sentinel) with
  | Some (_, _, b) => exists v, b !! 4%nat = Some v /\ same_number v (F32.of_Z 1)
  | None => False
  end.
Proof.
  destruct (sampleVolume one_thread two_threads (mkCoord 2 1 1)
              (fun c => if cx c =? 0 then F32.of_Z 0 else F32.of_Z 1) ValueRange
              (replicate 8 sentinel)) as [[[st r] b]|] eqn:R.
  - assert (Er : r = mkRange (F32.of_Z 0) (F32.of_Z 1)).
    { pose proof (f_equal (fmap (fun p => snd (fst p))) R) as R'.
      vm_compute in R'. injection R' as <-. vm_compute. reflexivity. }
    apply (unit_range_is_kept one_thread two_threads (mkCoord 2 1 1)
             (fun c => if cx c =? 0 then F32.of_Z 0 else F32.of_Z 1) ValueRange
             (replicate 8 sentinel) st r b false (mkCoord 1 0 0) 0).
    + unfold fits_int. vm_compute. repeat split; discriminate.
    + intros c. now destruct (cx c =? 0).
    + exact R.
    + rewrite Er. reflexivity.
    + rewrite Er. reflexivity.
    + vm_compute. repeat split; discriminate.
    + lia.
  - apply (f_equal (fun r => match r with Some _ => true | None => false end)) in R.
    vm_compute in R. discriminate.
Defined.

(** ** The quotient, rounded *)

Lemma new_location_ratio c r :
  0 < c -> 0 <= r < c ->
  new_location c r = if r =? 0 then loc_Exact else loc_Inexact (2 * r ?= c).
Proof.
  intros Hc Hr. unfold new_location, new_location_even, new_location_odd.
  destruct (Z.even c) eqn:P; [reflexivity|].
  destruct (Z.eqb_spec r 0); [reflexivity|]. f_equal.
  assert (O : Z.odd c = true) by (rewrite <- Z.negb_even, P; reflexivity).
  apply Z.odd_spec in O. destruct O as [k ->].
  destruct (Z.compare_spec (2 * r + 1) (2 * k + 1)), (Z.compare_spec (2 * r) (2 * k + 1));
    try reflexivity; lia.
Qed.

Lemma loc_record_round_trip q l : loc_of_shr_record (shr_record_of_loc q l) = l.
Proof. now destruct l as [|[]]. Qed.

Lemma round_ratio_bounds n c : n / c <= round_ratio n c <= n / c + 1.
Proof. apply round_nearest_even_bounds. Qed.

(** Rounding a quotient keeps the order of the quotients. *)
Lemma round_ratio_mono n c n' c' :
  0 <= n -> 0 < c -> 0 <= n' -> 0 < c' -> n * c' <= n' * c ->
  round_ratio n c <= round_ratio n' c'.
Proof.
  intros Hn Hc Hn' Hc' H.
  pose proof (round_ratio_bounds n c) as B. pose proof (round_ratio_bounds n' c') as B'.
  pose proof (Z.div_mod n c ltac:(lia)) as D. pose proof (Z.div_mod n' c' ltac:(lia)) as D'.
  pose proof (Z.mod_pos_bound n c Hc) as R. pose proof (Z.mod_pos_bound n' c' Hc') as R'.
  set (q := n / c) in *. set (q' := n' / c') in *.
  set (r := n mod c) in *. set (r' := n' mod c') in *.
  assert (Hq : q <= q').
  { destruct (Z.le_gt_cases q q') as [|C]; [trivial|exfalso].
    assert (q' + 1 <= q) by lia.
    assert (n' * c < (q' + 1) * c' * c) by nia.
    assert ((q' + 1) * c' * c <= q * c * c') by nia.
    nia. }
  destruct (Z.eq_dec q q') as [E|E]; [|lia].
  assert (Hr : r * c' <= r' * c) by nia.
  unfold round_ratio, ratio_loc, round_nearest_even. fold q q' r r'. rewrite <- E.
  destruct (Z.eqb_spec r 0) as [Z1|Z1].
  - destruct (Z.eqb_spec r' 0) as [Z2|Z2]; [lia|].
    destruct (Z.compare_spec (2 * r') c'); destruct (Z.even q); lia.
  - destruct (Z.eqb_spec r' 0) as [Z2|Z2].
    + exfalso. rewrite Z2 in Hr. assert (0 < r * c') by (apply Z.mul_pos_pos; lia). lia.
    + destruct (Z.compare_spec (2 * r) c) as [C|C|C];
        destruct (Z.compare_spec (2 * r') c') as [C'|C'|C']; destruct (Z.even q); try lia;
        exfalso; nia.
Qed.

Lemma shr_ratio_spec n c e k mrs e' :
  0 <= n -> 0 < c -> 0 <= k ->
  shr (shr_record_of_loc (n / c) (ratio_loc n c)) e k = (mrs, e') ->
  e' = e + k /\ shr_m mrs = n / (c * 2 ^ k)
  /\ round_nearest_even (shr_m mrs) (loc_of_shr_record mrs) = round_ratio n (c * 2 ^ k).
Proof.
  intros Hn Hc Hk. unfold shr, round_ratio. destruct k as [|p|p]; try lia.
  - intros [= <- <-]. rewrite shr_record_m, loc_record_round_trip.
    change (2 ^ 0) with 1. rewrite Z.mul_1_r. split; [lia|]. now split.
  - rewrite iter_pos_nat.
    destruct (shr_iter_ratio n c (shr_record_of_loc (n / c) (ratio_loc n c)) (Pos.to_nat p)
                Hn Hc (shr_record_m _ _) (loc_record_round_trip _ _)) as [I1 I2].
    rewrite positive_nat_Z in I1, I2. intros [= <- <-].
    split; [reflexivity|]. split; [exact I1|]. rewrite <- I1, <- I2. reflexivity.
Qed.

Lemma digits_ge v j : 0 <= j -> 2 ^ j <= v -> j + 1 <= Zdigits2 v.
Proof.
  intros Hj H. assert (0 < 2 ^ j) by (apply Z.pow_pos_nonneg; lia).
  pose proof (digits_bounds v ltac:(lia)) as [_ U]. pose proof (digits_pos v ltac:(lia)).
  destruct (Z.le_gt_cases (j + 1) (Zdigits2 v)) as [|C]; [trivial|exfalso].
  assert (2 ^ Zdigits2 v <= 2 ^ j) by (apply Z.pow_le_mono_r; lia). lia.
Qed.

(** What [binary_round_aux] gives for the quotient of [n] by [c] counted
    in units of [2^e], when the quotient is below [2^-e] and [e] is low
    enough for the format. *)
Lemma round_aux_ratio n c e :
  0 <= n -> 0 < c -> e <= -24 -> n < c * 2 ^ (- e) ->
  e <= fexp F32.prec F32.emax (Zdigits2 (n / c) + e) ->
  exists k E,
    0 <= k /\ E = e + k /\ -149 <= E <= -24
    /\ n / (c * 2 ^ k) < 2 ^ 24 /\ (-149 < E -> 2 ^ 23 <= n / (c * 2 ^ k))
    /\ let r := binary_round_aux F32.prec F32.emax false (n / c) e (ratio_loc n c) in
       valid_float r /\ finite_or_zero r
       /\ units r = round_ratio n (c * 2 ^ k) * 2 ^ (E + 149).
Proof.
  intros Hn Hc He Hb Hs.
  assert (Pe : 0 < 2 ^ (- e)) by (apply Z.pow_pos_nonneg; lia).
  assert (Hq : 0 <= n / c < 2 ^ (- e)).
  { split; [apply Z.div_pos; lia|]. apply Z.div_lt_upper_bound; lia. }
  set (q := n / c) in *.
  assert (Dq : Zdigits2 q <= - e) by (apply digits_le; lia).
  set (E := fexp F32.prec F32.emax (Zdigits2 q + e)) in *.
  assert (EE : E = Z.max (Zdigits2 q + e - 24) (-149)) by apply fexp32.
  set (k := E - e). exists k, E.
  assert (Hk : 0 <= k) by (unfold k; lia).
  assert (Pk : 0 < 2 ^ k) by (apply Z.pow_pos_nonneg; lia).
  assert (M0 : n / (c * 2 ^ k) = q / 2 ^ k) by (unfold q; now rewrite Z.div_div by lia).
  assert (B0 : 0 <= q / 2 ^ k < 2 ^ 24 /\ (-149 < E -> 2 ^ 23 <= q / 2 ^ k)).
  { destruct (Z.eq_dec q 0) as [Z|Z].
    - rewrite Z in *. cbn [Zdigits2] in EE. rewrite Z.div_0_l by lia.
      split; [lia|]. intros C. lia.
    - pose proof (digits_bounds q ltac:(lia)) as [L U].
      pose proof (digits_pos q ltac:(lia)) as Pd.
      split; [split; [apply Z.div_pos; lia|]|].
      + destruct (Z.le_gt_cases k (Zdigits2 q)) as [C|C].
        * apply Z.div_lt_upper_bound; [lia|].
          apply Z.lt_le_trans with (2 ^ Zdigits2 q); [lia|].
          rewrite <- pow2_split by lia. apply Z.pow_le_mono_r; lia.
        * rewrite Z.div_small; [lia|]. split; [lia|].
          apply Z.lt_le_trans with (2 ^ Zdigits2 q); [lia|]. apply Z.pow_le_mono_r; lia.
      + intros C. assert (K : k = Zdigits2 q - 24) by (unfold k; lia).
        apply Z.div_le_lower_bound; [lia|]. rewrite Z.mul_comm, <- pow2_split by lia.
        replace (23 + k) with (Zdigits2 q - 1) by lia. lia. }
  rewrite M0. destruct B0 as [B0 B1].
  split; [exact Hk|]. split; [unfold k; lia|]. split; [lia|]. split; [lia|]. split; [exact B1|].
  cbv zeta. unfold binary_round_aux, shr_fexp. fold q. fold E. fold k.
  destruct (shr (shr_record_of_loc q (ratio_loc n c)) e k) as [mrs e1] eqn:S1.
  destruct (shr_ratio_spec n c e k mrs e1 Hn Hc Hk S1) as (-> & Em & Er).
  rewrite Er. replace (e + k) with E by (unfold k; lia).
  pose proof (round_ratio_bounds n (c * 2 ^ k)) as RB. rewrite M0 in RB.
  set (r := round_ratio n (c * 2 ^ k)) in *.
  assert (PE : 0 < 2 ^ (E + 149)) by (apply Z.pow_pos_nonneg; lia).
  destruct (Z.eq_dec r (2 ^ 24)) as [T|T].
  - rewrite T. change (Zdigits2 (2 ^ 24)) with 25.
    replace (fexp F32.prec F32.emax (25 + E) - E) with 1 by (rewrite fexp32; lia).
    cbn [shr shr_record_of_loc SpecFloat.iter_pos shr_1 shr_m]. change (2 ^ 24) with 16777216.
    cbn [shr_1 shr_m].
    replace (E + 1 <=? F32.emax - F32.prec) with true
      by (symmetry; apply Z.leb_le; unfold F32.emax, F32.prec; lia).
    split; [apply valid_of_bounds; [lia|cbn; lia|reflexivity]|]. split; [exact I|].
    cbn [units cond_Zopp]. replace (E + 1 + 149) with (1 + (E + 149)) by lia.
    rewrite pow2_split by lia. change (2 ^ 1) with 2. lia.
  - destruct (Z.eq_dec r 0) as [Z|Z].
    + rewrite Z. cbn [Zdigits2]. unfold shr. 
      destruct (fexp F32.prec F32.emax (0 + E) - E) as [|p|p];
        [| rewrite iter_pos_nat, shr_iter_m by (cbn; lia) |];
        cbn [shr_m shr_record_of_loc]; rewrite ?Z.div_0_l by (apply Z.pow_nonzero; lia);
        (split; [reflexivity|]; split; [exact I|]; cbn; lia).
    + assert (Pr : 0 < r < 2 ^ 24) by lia.
      pose proof (digits_le r 24 ltac:(lia) ltac:(lia)) as Dr.
      pose proof (digits_pos r ltac:(lia)) as Pdr.
      assert (Dn : -149 < E -> Zdigits2 r = 24).
      { intros C. apply digits_unique; [lia|]. specialize (B1 C). change (24 - 1) with 23. lia. }
      replace (fexp F32.prec F32.emax (Zdigits2 r + E) - E) with 0
        by (rewrite fexp32; destruct (Z.eq_dec E (-149)) as [->|N]; [lia|rewrite Dn; lia]).
      cbn [shr shr_record_of_loc shr_m].
      destruct r as [|M|M] eqn:Erm; try lia.
      replace (E <=? F32.emax - F32.prec) with true
        by (symmetry; apply Z.leb_le; unfold F32.emax, F32.prec; lia).
      split; [apply valid_of_bounds; trivial; lia|]. split; [exact I|]. reflexivity.
Qed.

(** ** The order of the quotients *)

(** The quotient of two floats [0 <= n <= d], [0 < d], is the float
    nearest to the quotient of [N] by [C] counted in units of [2^E]. *)
Lemma div_spec n d :
  valid_float n -> valid_float d -> finite_or_zero n -> finite_or_zero d ->
  0 <= units n -> 0 < units d -> units n <= units d ->
  exists N C E,
    0 <= N /\ 0 < C /\ -149 <= E <= -23
    /\ N * units d = units n * C * 2 ^ (- E)
    /\ N / C < 2 ^ 24 /\ (-149 < E -> 2 ^ 23 <= N / C)
    /\ valid_float (F32.div n d) /\ finite_or_zero (F32.div n d)
    /\ units (F32.div n d) = round_ratio N C * 2 ^ (E + 149).
Proof.
  intros Vn Vd Fn Fd Hn Hd H.
  destruct d as [sd| | |sd md ed]; try contradiction; [cbn in Hd; lia|].
  destruct (valid_finite_bounds _ _ _ Vd) as (Ed & Ud & _).
  destruct sd; [cbn in Hd; lia|]. cbn [units cond_Zopp] in *.
  destruct n as [sn| | |sn mn en]; try contradiction.
  { exists 0, 1, (-149). cbn [units]. split_and!; try reflexivity; try lia;
      try (now destruct sn); cbn; lia. }
  destruct (valid_finite_bounds _ _ _ Vn) as (En & Un & _).
  destruct (units_pos mn en) as [Pn|Pn]; [|lia].
  destruct sn; cbn [units cond_Zopp] in *; [lia|].
  destruct (Z.eq_dec (Z.pos mn * 2 ^ (en + 149)) (Z.pos md * 2 ^ (ed + 149))) as [E|N].
  - destruct (canonical_unique mn en md ed Vn Vd E) as [-> ->].
    rewrite div_self_is_one. exists (2 ^ 23), 1, (-23).
    split_and!; try reflexivity; try lia;
      try (change (2 ^ (- -23)) with (2 ^ 23); lia); cbn; lia.
  - assert (L : Z.pos mn * 2 ^ (en + 149) < Z.pos md * 2 ^ (ed + 149)) by lia.
    clear H N.
    unfold F32.div, SFdiv, SFdiv_core_binary. cbn [xorb].
    set (d1 := Zdigits2 (Z.pos mn)). set (d2 := Zdigits2 (Z.pos md)).
    set (e' := Z.min (fexp F32.prec F32.emax (d1 + en - (d2 + ed))) (en - ed)).
    pose proof (digits_bounds (Z.pos mn) ltac:(lia)) as [L1 _].
    pose proof (digits_bounds (Z.pos md) ltac:(lia)) as [_ U2].
    fold d1 in L1. fold d2 in U2.
    pose proof (digits_pos (Z.pos mn) ltac:(lia)) as P1. fold d1 in P1.
    pose proof (digits_pos (Z.pos md) ltac:(lia)) as P2. fold d2 in P2.
    assert (Xn : 0 < 2 ^ (en + 149)) by (apply Z.pow_pos_nonneg; lia).
    assert (Xd : 0 < 2 ^ (ed + 149)) by (apply Z.pow_pos_nonneg; lia).
    assert (K : d1 + en - (d2 + ed) <= 0).
    { assert (2 ^ (d1 - 1 + (en + 149)) < 2 ^ (d2 + (ed + 149))).
      { rewrite (pow2_split (d1 - 1) (en + 149)), (pow2_split d2 (ed + 149)) by lia. nia. }
      apply Z.pow_lt_mono_r_iff in H; lia. }
    assert (He' : e' <= -24 /\ e' <= en - ed) by (unfold e'; rewrite fexp32; lia).
    set (s := en - ed - e'). assert (Hs : 0 <= s) by (unfold s; lia).
    set (m' := match s with 0 => Z.pos mn | Z.pos _ => Z.shiftl (Z.pos mn) s | Z.neg _ => 0 end).
    assert (Em : m' = Z.pos mn * 2 ^ s).
    { unfold m'. destruct s as [|p|p] eqn:Es; [lia| |lia]. apply Z.shiftl_mul_pow2. lia. }
    assert (Ps : 0 < 2 ^ s) by (apply Z.pow_pos_nonneg; lia).
    assert (Pe : 0 < 2 ^ (- e')) by (apply Z.pow_pos_nonneg; lia).
    assert (T : 2 ^ (- e') * 2 ^ (en + 149) = 2 ^ s * 2 ^ (ed + 149)).
    { rewrite <- !pow2_split by lia. f_equal. unfold s. lia. }
    assert (Lm : m' < Z.pos md * 2 ^ (- e')).
    { rewrite Em. apply Z.mul_lt_mono_pos_r with (2 ^ (en + 149)); [exact Xn|].
      rewrite <- (Z.mul_assoc (Z.pos md)), T. nia. }
    destruct (Z.div_eucl m' (Z.pos md)) as [q r] eqn:Q.
    apply div_eucl_spec in Q; [|lia|lia]. destruct Q as [-> ->].
    rewrite new_location_ratio by (try lia; apply Z.mod_pos_bound; lia).
    change (if m' mod Z.pos md =? 0 then loc_Exact
            else loc_Inexact (2 * (m' mod Z.pos md) ?= Z.pos md))
      with (ratio_loc m' (Z.pos md)).
    assert (Hfit : e' <= fexp F32.prec F32.emax (Zdigits2 (m' / Z.pos md) + e')).
    { rewrite fexp32. destruct (Z.le_gt_cases e' (-149)) as [|C]; [lia|].
      assert (e' <= d1 + en - (d2 + ed) - 24) by (unfold e' in *; rewrite fexp32 in *; lia).
      assert (24 - d1 + d2 <= s) by (unfold s; lia).
      assert (2 ^ 23 <= m' / Z.pos md).
      { apply Z.div_le_lower_bound; [lia|].
        apply Z.le_trans with (2 ^ d2 * 2 ^ 23); [nia|].
        apply Z.le_trans with (2 ^ (d1 - 1) * 2 ^ s); [|rewrite Em; nia].
        rewrite <- !pow2_split by lia. apply Z.pow_le_mono_r; lia. }
      pose proof (digits_ge (m' / Z.pos md) 23 ltac:(lia) ltac:(lia)). lia. }
    destruct (round_aux_ratio m' (Z.pos md) e' ltac:(lia) ltac:(lia) ltac:(lia) Lm Hfit)
      as (k & E & Hk & EE & HE & B0 & B1 & V & F & U).
    exists m', (Z.pos md * 2 ^ k), E.
    assert (Pk : 0 < 2 ^ k) by (apply Z.pow_pos_nonneg; lia).
    split_and!; trivial; try lia.
    rewrite Em. replace (- E) with (- e' - k) by lia.
    assert (2 ^ (- e' - k) * 2 ^ k = 2 ^ (- e'))
      by (rewrite <- pow2_split by lia; f_equal; lia).
    nia.
Qed.

(** The quotient by a float keeps the order of the dividends. *)
Lemma div_mono na nb d :
  valid_float na -> valid_float nb -> valid_float d ->
  finite_or_zero na -> finite_or_zero nb -> finite_or_zero d ->
  0 <= units na -> units na <= units nb -> units nb <= units d -> 0 < units d ->
  fle (F32.div na d) (F32.div nb d).
Proof.
  intros Va Vb Vd Fa Fb Fd Ha Hab Hbd Hd.
  destruct (div_spec na d Va Vd Fa Fd) as (Na & Ca & Ea & Pa & Qa & HEa & Ra & Ua & La & Wa & Ga & Xa);
    try lia.
  destruct (div_spec nb d Vb Vd Fb Fd) as (Nb & Cb & Eb & Pb & Qb & HEb & Rb & Ub & Lb & Wb & Gb & Xb);
    try lia.
  assert (U : units (F32.div na d) <= units (F32.div nb d)).
  { rewrite Xa, Xb.
    pose proof (round_ratio_bounds Na Ca) as Ba. pose proof (round_ratio_bounds Nb Cb) as Bb.
    assert (0 <= Na / Ca) by (apply Z.div_pos; lia).
    assert (0 <= Nb / Cb) by (apply Z.div_pos; lia).
    assert (Ta : 0 < 2 ^ (- Ea)) by (apply Z.pow_pos_nonneg; lia).
    assert (Tb : 0 < 2 ^ (- Eb)) by (apply Z.pow_pos_nonneg; lia).
    destruct (Z.lt_trichotomy Ea Eb) as [C|[C|C]].
    - (* the second quotient is one binade up, at least *)
      apply Z.le_trans with (2 ^ 24 * 2 ^ (Ea + 149)).
      { apply Z.mul_le_mono_nonneg_r; [apply Z.pow_nonneg|]; lia. }
      apply Z.le_trans with (2 ^ 23 * 2 ^ (Eb + 149)).
      { rewrite <- !pow2_split by lia. apply Z.pow_le_mono_r; lia. }
      apply Z.mul_le_mono_nonneg_r; [apply Z.pow_nonneg; lia|]. specialize (Lb ltac:(lia)). lia.
    - (* the same binade *)
      subst Eb. apply Z.mul_le_mono_nonneg_r; [apply Z.pow_nonneg; lia|].
      apply round_ratio_mono; trivial.
      apply Z.mul_le_mono_pos_r with (units d); [lia|].
      replace (Na * Cb * units d) with (Na * units d * Cb) by ring.
      replace (Nb * Ca * units d) with (Nb * units d * Ca) by ring.
      rewrite Ra, Rb.
      replace (units na * Ca * 2 ^ (- Ea) * Cb) with (units na * (Ca * Cb * 2 ^ (- Ea))) by ring.
      replace (units nb * Cb * 2 ^ (- Ea) * Ca) with (units nb * (Ca * Cb * 2 ^ (- Ea))) by ring.
      apply Z.mul_le_mono_nonneg_r; [|lia].
      apply Z.mul_nonneg_nonneg; [apply Z.mul_nonneg_nonneg|]; lia.
    - (* the first quotient cannot be a binade up *)
      exfalso. specialize (La ltac:(lia)).
      assert (A1 : 2 ^ 23 * Ca <= Na).
      { pose proof (Z.mul_div_le Na Ca Qa). nia. }
      assert (B1 : Nb < 2 ^ 24 * Cb).
      { pose proof (Z.div_mod Nb Cb ltac:(lia)). pose proof (Z.mod_pos_bound Nb Cb Qb). nia. }
      assert (A2 : 2 ^ 23 * units d <= units na * 2 ^ (- Ea)).
      { apply Z.mul_le_mono_pos_r with Ca; [lia|].
        replace (units na * 2 ^ (- Ea) * Ca) with (units na * Ca * 2 ^ (- Ea)) by ring.
        rewrite <- Ra. nia. }
      assert (B2 : units nb * 2 ^ (- Eb) < 2 ^ 24 * units d).
      { apply Z.mul_lt_mono_pos_r with Cb; [lia|].
        replace (units nb * 2 ^ (- Eb) * Cb) with (units nb * Cb * 2 ^ (- Eb)) by ring.
        rewrite <- Rb. nia. }
      assert (S : 2 * 2 ^ (- Ea) <= 2 ^ (- Eb)).
      { change 2 with (2 ^ 1) at 1. rewrite <- pow2_split by lia. apply Z.pow_le_mono_r; lia. }
      change (2 ^ 24) with (2 * 2 ^ 23) in B2. nia. }
  unfold fle, F32.ltb, SFltb.
  rewrite (compare_units (F32.div nb d) (F32.div na d)); trivial;
    try (now apply finite_no_infinity); try (now apply finite_no_nan).
  destruct (Z.compare_spec (units (F32.div nb d)) (units (F32.div na d))); trivial. lia.
Qed.

(** Over a range of finite non-zero width, [unlerp] keeps the order of
    the values between the ends. *)
Lemma unlerp_mono a b x y s m e :
  valid_float a -> valid_float b -> valid_float x -> valid_float y ->
  is_nan x = false -> is_nan y = false ->
  fle a x -> fle x y -> fle y b ->
  F32.sub b a = S754_finite s m e ->
  fle (unlerp a b x) (unlerp a b y).
Proof.
  intros Va Vb Vx Vy Nx Ny Hax Hxy Hyb W.
  destruct (sub_finite_operands _ _ _ _ _ W) as [Fb Fa].
  assert (Hay : fle a y) by (apply fle_trans with x; trivial).
  assert (Hxb : fle x b) by (apply fle_trans with y; trivial).
  pose proof (between_finite _ _ _ Fa Fb Nx Hax Hxb) as Fx.
  pose proof (between_finite _ _ _ Fa Fb Ny Hay Hyb) as Fy.
  pose proof (fle_units x a Vx Va (finite_no_infinity _ Fx) (finite_no_infinity _ Fa)
                (finite_no_nan _ Fx) (finite_no_nan _ Fa) Hax) as Uax.
  pose proof (fle_units y x Vy Vx (finite_no_infinity _ Fy) (finite_no_infinity _ Fx)
                (finite_no_nan _ Fy) (finite_no_nan _ Fx) Hxy) as Uxy.
  pose proof (fle_units b y Vb Vy (finite_no_infinity _ Fb) (finite_no_infinity _ Fy)
                (finite_no_nan _ Fb) (finite_no_nan _ Fy) Hyb) as Uyb.
  destruct (sub_round b a Vb Va Fb Fa ltac:(lia)) as [(Sd & Vd & Fd & Ud)|(_ & Id)];
    [|rewrite W in Id; discriminate].
  pose proof (round_units_mono (units x - units a) (units y - units a) ltac:(lia)) as M1.
  pose proof (round_units_mono (units y - units a) (units b - units a) ltac:(lia)) as M2.
  destruct (sub_round y a Vy Va Fy Fa ltac:(lia)) as [(Sy & Vny & Fny & Uny)|(Hh & _)]; [|lia].
  destruct (sub_round x a Vx Va Fx Fa Uax) as [(Sx & Vnx & Fnx & Unx)|(Hh & _)]; [|lia].
  pose proof (round_units_nonneg (units x - units a) ltac:(lia)) as Pn.
  destruct (finite_width_gap _ _ _ _ _ Va Vb ltac:(apply fle_trans with x; trivial) W) as [_ G].
  assert (Pd : 0 < units (F32.sub b a)).
  { pose proof (round_units_nonneg (units b - units a) ltac:(lia)) as P.
    rewrite <- Ud in P. rewrite W in P, Vd |- *.
    destruct (valid_finite_bounds _ _ _ Vd) as (He & _).
    destruct (units_pos m e) as [Q|Q]; [|lia].
    destruct s; cbn [units cond_Zopp] in *; lia. }
  unfold unlerp. apply div_mono; trivial; lia.
Qed.

(** X22. After a run over a field of floats without NaN, when the width
    of the reported range is a finite non-zero float, the normalisation
    keeps the order of the samples: of two cells of the lattice, the one
    with the smaller sample has the smaller slots (the rounding of the
    subtraction and of the division never swaps two voxels). *)
Theorem normalisation_keeps_order (sch1 sch2 : schedule) (extents : Coord)
    (f : Vec3i -> float) (r0 : FloatRange) (buf : list float) (st : status)
    (r : FloatRange) (buf' : list float) (s : bool) (m : positive) (e : Z)
    (c1 c2 : Vec3i) (k1 k2 : Z) :
  fits_int extents -> (forall c, valid_float (f c)) -> (forall c, is_nan (f c) = false) ->
  sampleVolume sch1 sch2 extents f r0 buf = Some (st, r, buf') ->
  F32.sub (getMax r) (getMin r) = S754_finite s m e ->
  in_box (lattice extents) c1 -> in_box (lattice extents) c2 ->
  0 <= k1 < 4 -> 0 <= k2 < 4 ->
  fle (f c1) (f c2) ->
  exists v1 v2,
    buf' !! Z.to_nat (flat_offset extents c1 + k1) = Some v1
    /\ buf' !! Z.to_nat (flat_offset extents c2 + k2) = Some v2
    /\ fle v1 v2.
Proof.
  intros H Vf Hf R W Hc1 Hc2 Hk1 Hk2 L.
  destruct (run_facts _ _ _ _ _ _ _ _ _ H Vf Hf R) as (Va & Vb & _ & _ & B & S).
  exists (unlerp (getMin r) (getMax r) (f c1)), (unlerp (getMin r) (getMax r) (f c2)).
  split; [now apply S|]. split; [now apply S|].
  destruct (B c1 Hc1) as [B1 _]. destruct (B c2 Hc2) as [_ B2].
  now apply (unlerp_mono _ _ _ _ s m e).
Qed.

Lemma normalisation_keeps_order_witness :
  match sampleVolume one_thread two_threads (mkCoord 3 1 1)
          (fun c => if cx c =? 0 then F32.of_Z 3 else if cx c =? 1 then F32.of_Z 4 else F32.of_Z 6)
          ValueRange (replicate 12 sentinel) with
  | Some (_, _, b) => exists v1 v2, b !! 0%nat = Some v1 /\ b !! 4%nat = Some v2 /\ fle v1 v2
  | None => False
  end.
Proof.
  destruct (sampleVolume one_thread two_threads (mkCoord 3 1 1)
              (fun c => if cx c =? 0 then F32.of_Z 3 else if cx c =? 1 then F32.of_Z 4 else F32.of_Z 6)
              ValueRange (replicate 12 sentinel)) as [[[st r] b]|] eqn:R.
  - assert (Er : r = mkRange (F32.of_Z 3) (F32.of_Z 6)).
    { pose proof (f_equal (fmap (fun p => snd (fst p))) R) as R'.
      vm_compute in R'. injection R' as <-. vm_compute. reflexivity. }
    apply (normalisation_keeps_order one_thread two_threads (mkCoord 3 1 1)
             (fun c => if cx c =? 0 then F32.of_Z 3 else if cx c =? 1 then F32.of_Z 4 else F32.of_Z 6)
             ValueRange (replicate 12 sentinel) st r b false (3 * 2 ^ 22) (-22)
             (mkCoord 0 0 0) (mkCoord 1 0 0) 0 0).
    + unfold fits_int. vm_compute. repeat split; discriminate.
    + intros c. destruct (cx c =? 0); [reflexivity|]. now destruct (cx c =? 1).
    + intros c. destruct (cx c =? 0); [reflexivity|]. now destruct (cx c =? 1).
    + exact R.
    + rewrite Er. vm_compute. reflexivity.
    + vm_compute. repeat split; discriminate.
    + vm_compute. repeat split; discriminate.
    + lia.
    + lia.
    + vm_compute. reflexivity.
  - apply (f_equal (fun r => match r with Some _ => true | None => false end)) in R.
    vm_compute in R. discriminate.
Defined.
